(** * rlm-skill: character-window and syntax-aware chunkers

    A shallow embedding of [scripts/chunk_text.py] and
    [scripts/split_code_treesitter.py], and the properties of the
    boundary selector, the node selector, the chunk emitter and the
    overwrite policy.

    Conventions.
    - Python integers are [Z]; a Python [str] is a list of characters and a
      [bytes] object a list of bytes. A character is an [ascii]: the scripts
      never look at a character other than to compare it with the newline.
    - Collaborators outside the repository (hashlib, the codecs, json,
      tree-sitter, os.walk) are parameters.
    - A [while] loop is a loop body (one iteration, returning either the
      next loop state or the value the loop leaves with) iterated under a
      fuel bound; running out of fuel is a separate outcome, never a result.
    - File-system effects are explicit state passing over a finite map from
      paths to entries; an exception leaves the state as it was when it was
      raised (nothing is rolled back). *)

From Stdlib Require Import ZArith Lia Ascii String List Bool.
From Stdlib Require Import DecimalString DecimalNat Decimal DecimalZ DecimalPos.
From stdpp Require Import base option list strings gmap.
From Equations Require Import Equations.

Local Open Scope Z_scope.
Set Warnings "-register-all".

(** ** Python sequences *)

Module Py.

(** [len(s)] *)
Definition len {A} (l : list A) : Z := Z.of_nat (length l).

(** Index adjustment of slices and of the [start]/[end] arguments of
    [str.rfind]: a negative index counts from the end, and the result is
    clipped to [0, len]. *)
Definition adjust_index (n i : Z) : Z :=
  if i <? 0 then Z.max 0 (i + n) else Z.min i n.

(** [l[a:b]] *)
Definition slice {A} (l : list A) (a b : Z) : list A :=
  let lo := adjust_index (len l) a in
  let hi := adjust_index (len l) b in
  firstn (Z.to_nat (hi - lo)) (skipn (Z.to_nat lo) l).

(** [l[:k]] *)
Definition prefix {A} (l : list A) (k : Z) : list A := slice l 0 k.

(** [int(x)] for the exact product [n * 0.6]: truncation towards zero.
    The source computes the product in double precision; for every
    [|n| < 2^50] the double nearest to [0.6 * n] has the same integer part
    as the exact product, so the integer below is what [int] returns. *)
Definition int_times_min_ratio (n : Z) : Z := Z.quot (n * 3) 5.

End Py.

(** ** Text and newlines *)

Definition text := list ascii.

Definition newline : ascii := "010"%char.

Definition is_newline (c : ascii) : bool := Ascii.eqb c newline.

(** [text[i] == "\n"] for an index [0 <= i]; [false] out of range. *)
Definition newline_at (t : text) (i : Z) : bool :=
  match nth_error t (Z.to_nat i) with
  | Some c => is_newline c
  | None => false
  end.

(** The scan of [str.rfind]: the highest index in [lo, lo + n) that holds a
    newline, [-1] when there is none. *)
Fixpoint rfind_scan (t : text) (lo : Z) (n : nat) : Z :=
  match n with
  | O => -1
  | S k => if newline_at t (lo + Z.of_nat k) then lo + Z.of_nat k
           else rfind_scan t lo k
  end.

(** [text.rfind("\n", start, end)] *)
Definition rfind_newline (t : text) (start end_ : Z) : Z :=
  let lo := Py.adjust_index (Py.len t) start in
  let hi := Py.adjust_index (Py.len t) end_ in
  rfind_scan t lo (Z.to_nat (hi - lo)).

(** ** chunk_text.py: the boundary selector *)

Definition span := (Z * Z)%type.

(** [_choose_chunk_end(text, start, hard_end)] with the default
    [min_ratio = 0.6]. *)
Definition _choose_chunk_end (t : text) (start hard_end : Z) : Z :=
  if hard_end >=? Py.len t then Py.len t
  else
    let min_end := start + Py.int_times_min_ratio (hard_end - start) in
    let nl := rfind_newline t start hard_end in
    if negb (nl =? -1) && (nl >=? min_end) then nl + 1 else hard_end.

(** The exceptions the two scripts raise or let through. *)
Inductive exn :=
| ValueError (msg : string)
| RuntimeError (msg : string)
| OSError (msg : string)
| LookupError (msg : string).

(** What a call comes to: a value, an exception, or a loop that is still
    running when the fuel is spent. *)
Inductive outcome (A : Type) :=
| Ok (a : A)
| Raise (e : exn)
| Spin.
Arguments Ok {A} a.
Arguments Raise {A} e.
Arguments Spin {A}.

(** The variables of the [while] loop of [_iter_chunk_spans]. *)
Record loop_state := LoopState { ls_start : Z; ls_spans : list span }.

(** One iteration of [while start < len(text)]: [inr spans] when the loop
    is left (the condition is false, or a [break]), [inl st] when it goes
    round again. *)
Definition loop_body (t : text) (max_chars overlap_chars : Z)
    (st : loop_state) : loop_state + list span :=
  let start := ls_start st in
  let spans := ls_spans st in
  if start <? Py.len t then
    let hard_end := Z.min (start + max_chars) (Py.len t) in
    let end_ := _choose_chunk_end t start hard_end in
    let emit (end_ : Z) : loop_state + list span :=
      let spans := spans ++ [(start, end_)] in
      if end_ >=? Py.len t then inr spans
      else inl (LoopState (Z.max 0 (end_ - overlap_chars)) spans) in
    if end_ <=? start then
      let end_ := hard_end in
      if end_ <=? start then inr spans else emit end_
    else emit end_
  else inr spans.

Fixpoint while_loop (fuel : nat) (t : text) (max_chars overlap_chars : Z)
    (st : loop_state) : option (list span) :=
  match fuel with
  | O => None
  | S fuel' =>
      match loop_body t max_chars overlap_chars st with
      | inr spans => Some spans
      | inl st' => while_loop fuel' t max_chars overlap_chars st'
      end
  end.

(** [_iter_chunk_spans(text, max_chars, overlap_chars)] *)
Definition _iter_chunk_spans (fuel : nat) (t : text)
    (max_chars overlap_chars : Z) : outcome (list span) :=
  if max_chars <=? 0 then Raise (ValueError "--max-chars must be > 0")
  else if overlap_chars <? 0 then Raise (ValueError "--overlap-chars must be >= 0")
  else if overlap_chars >=? max_chars then
    Raise (ValueError "--overlap-chars must be < --max-chars")
  else
    match while_loop fuel t max_chars overlap_chars (LoopState 0 []) with
    | Some spans => Ok spans
    | None => Spin
    end.

(** The state after [n] iterations, when none of them left the loop. *)
Fixpoint iterations (n : nat) (t : text) (max_chars overlap_chars : Z)
    (st : loop_state) : option loop_state :=
  match n with
  | O => Some st
  | S n' =>
      match loop_body t max_chars overlap_chars st with
      | inr _ => None
      | inl st' => iterations n' t max_chars overlap_chars st'
      end
  end.

Definition text_of_string (s : string) : text := list_ascii_of_string s.

(** ** Decimal formatting *)

Module Fmt.

(** [str(n)] for an integer. *)
Definition str (n : Z) : string := NilZero.string_of_int (Z.to_int n).

Fixpoint zeros (k : nat) : string :=
  match k with
  | O => EmptyString
  | S k' => String "0" (zeros k')
  end.

(** [f"{n:0{width}d}"]: the sign first, then zeros up to [width], then the
    digits. *)
Definition format_0d (width n : Z) : string :=
  let digits := str (Z.abs n) in
  let sign := if n <? 0 then "-"%string else EmptyString in
  let fill := width - Z.of_nat (String.length sign)
                    - Z.of_nat (String.length digits) in
  (sign ++ zeros (Z.to_nat fill) ++ digits)%string.

(** [f"chunk_{i:0{width}d}"] *)
Definition chunk_name (width i : Z) : string :=
  ("chunk_" ++ format_0d width i)%string.

(** [max(4, len(str(n)))] *)
Definition id_width (n : Z) : Z :=
  Z.max 4 (Z.of_nat (String.length (str n))).

End Fmt.

(** ** The file system *)

Module Fs.

(** A path is the list of its components below the root. *)
Definition path := list string.

Inductive entry :=
| File (content : list Byte.byte)
| Dir.

Abbreviation filesystem := (gmap path entry).

(** [p / name] *)
Definition child (p : path) (name : string) : path := p ++ [name].

(** [p.parent] *)
Definition parent (p : path) : path := removelast p.

(** [p.name] *)
Definition name (p : path) : string := List.last p EmptyString.

(** The highest index of a ["."] in a name, [-1] when there is none. *)
Fixpoint rfind_dot (cs : list ascii) (i : Z) (found : Z) : Z :=
  match cs with
  | [] => found
  | c :: cs' => rfind_dot cs' (i + 1) (if Ascii.eqb c "." then i else found)
  end.

(** [p.suffix]: the name from its last dot on, when that dot is neither the
    first nor the last character. *)
Definition suffix (p : path) : string :=
  let cs := list_ascii_of_string (name p) in
  let i := rfind_dot cs 0 (-1) in
  if (0 <? i) && (i <? Py.len cs - 1)
  then string_of_list_ascii (Py.slice cs i (Py.len cs))
  else EmptyString.

(** [p.stem]: the name without its suffix. *)
Definition stem (p : path) : string :=
  let cs := list_ascii_of_string (name p) in
  let i := rfind_dot cs 0 (-1) in
  if (0 <? i) && (i <? Py.len cs - 1)
  then string_of_list_ascii (Py.slice cs 0 i)
  else name p.

(** [p.name.startswith("chunk_") and p.suffix == ".txt"] *)
Definition is_chunk_file (p : path) : bool :=
  String.prefix "chunk_" (name p) && String.eqb (suffix p) ".txt".

(** The root always exists and is a directory. *)
Definition stat (fs : filesystem) (p : path) : option entry :=
  match p with
  | [] => Some Dir
  | _ => fs !! p
  end.

Definition exists_ (fs : filesystem) (p : path) : bool :=
  match stat fs p with Some _ => true | None => false end.

Definition is_dir (fs : filesystem) (p : path) : bool :=
  match stat fs p with Some Dir => true | _ => false end.

Definition is_file (fs : filesystem) (p : path) : bool :=
  match stat fs p with Some (File _) => true | _ => false end.

(** The entries directly below [p], in the order the map lists them. *)
Definition listdir (fs : filesystem) (p : path) : list path :=
  List.filter (fun q => bool_decide (q <> [] /\ parent q = p))
              (List.map fst (map_to_list fs)).

(** Programs over the file system: the state is kept when an exception is
    raised. *)
Definition io (A : Type) : Type := filesystem -> outcome A * filesystem.

Definition ret {A} (a : A) : io A := fun fs => (Ok a, fs).

Definition bind {A B} (m : io A) (f : A -> io B) : io B :=
  fun fs =>
    match m fs with
    | (Ok a, fs') => f a fs'
    | (Raise e, fs') => (Raise e, fs')
    | (Spin, fs') => (Spin, fs')
    end.

Definition raise {A} (e : exn) : io A := fun fs => (Raise e, fs).

(** A pure call that may raise or spin. *)
Definition lift {A} (o : outcome A) : io A := fun fs => (o, fs).

(** Reading the state without changing it. *)
Definition gets {A} (f : filesystem -> A) : io A := fun fs => (Ok (f fs), fs).

#[global] Instance io_ret : MRet io := @ret.
#[global] Instance io_bind : MBind io := fun A B f m => bind m f.

(** [p.read_bytes()] *)
Definition read_bytes (p : path) : io (list Byte.byte) :=
  fun fs =>
    match stat fs p with
    | Some (File b) => (Ok b, fs)
    | Some Dir => (Raise (OSError "IsADirectoryError"), fs)
    | None => (Raise (OSError "FileNotFoundError"), fs)
    end.

(** [p.write_bytes(data)]: the parent has to be a directory and [p] must
    not be one; the file is created or replaced. *)
Definition write_bytes (p : path) (data : list Byte.byte) : io unit :=
  fun fs =>
    match p with
    | [] => (Raise (OSError "IsADirectoryError"), fs)
    | _ =>
        match stat fs (parent p) with
        | Some Dir =>
            match stat fs p with
            | Some Dir => (Raise (OSError "IsADirectoryError"), fs)
            | _ => (Ok tt, <[p := File data]> fs)
            end
        | Some (File _) => (Raise (OSError "NotADirectoryError"), fs)
        | None => (Raise (OSError "FileNotFoundError"), fs)
        end
    end.

(** [p.unlink()] *)
Definition unlink (p : path) : io unit :=
  fun fs =>
    match stat fs p with
    | Some (File _) => (Ok tt, delete p fs)
    | Some Dir => (Raise (OSError "IsADirectoryError"), fs)
    | None => (Raise (OSError "FileNotFoundError"), fs)
    end.

(** [p.iterdir()], as the list it yields. *)
Definition iterdir (p : path) : io (list path) :=
  fun fs =>
    match stat fs p with
    | Some Dir => (Ok (listdir fs p), fs)
    | Some (File _) => (Raise (OSError "NotADirectoryError"), fs)
    | None => (Raise (OSError "FileNotFoundError"), fs)
    end.

(** [p.mkdir(parents=True, exist_ok=True)], walking down from [base]: a
    missing component is created, a directory is entered, a file in the
    way is an error. *)
Fixpoint mkdir_from (base : path) (rest : list string) : io unit :=
  fun fs =>
    match rest with
    | [] => (Ok tt, fs)
    | c :: rest' =>
        let p := child base c in
        match fs !! p with
        | Some Dir => mkdir_from p rest' fs
        | Some (File _) =>
            (Raise (OSError match rest' with
                            | [] => "FileExistsError"
                            | _ => "NotADirectoryError"
                            end), fs)
        | None => mkdir_from p rest' (<[p := Dir]> fs)
        end
    end.

Definition mkdir_parents (p : path) : io unit := mkdir_from [] p.

End Fs.

(** ** External collaborators *)

(** [hashlib.sha256(data).hexdigest()] *)
Class Hashlib := { sha256_hexdigest : list Byte.byte -> string }.

(** [raw.decode(encoding, errors="replace")], which only fails on an
    unknown encoding, [s.encode("utf-8", errors="replace")], and
    [os.linesep], the line separator text-mode files write on this
    platform. *)
Class Codecs := {
  decode : string -> list Byte.byte -> option text;
  encode_utf8 : text -> list Byte.byte;
  linesep : text
}.

(** What a file opened in text mode with [newline=None] hands to its
    encoder: every newline written becomes [os.linesep]. *)
Definition translate_newlines `{Codecs} (s : text) : text :=
  flat_map (fun c => if is_newline c then linesep else [c]) s.

(** The bytes [p.write_text(s, encoding="utf-8", ...)] puts into the
    file. *)
Definition text_file_bytes `{Codecs} (s : text) : list Byte.byte :=
  encode_utf8 (translate_newlines s).

(** A line the entry points print, on the standard output or on the error
    stream. *)
Inductive printed :=
| Stdout (line : string)
| Stderr (line : string).

(** [str(e)] for an exception: its message. *)
Definition exn_str (e : exn) : string :=
  match e with
  | ValueError msg | RuntimeError msg | OSError msg | LookupError msg => msg
  end.

(** ** chunk_text.py: the chunk emitter and the index writer *)

Module ChunkText.

Record Chunk := mkChunk {
  chunk_id : string;
  path : string;
  start_char : Z;
  end_char : Z;
  start_line : Z;
  end_line : Z;
  sha256 : string
}.

(** [_compute_newline_positions(text)]: the offsets of the newlines, in
    increasing order. *)
Fixpoint newline_positions_from (i : Z) (t : text) : list Z :=
  match t with
  | [] => []
  | c :: t' =>
      if is_newline c then i :: newline_positions_from (i + 1) t'
      else newline_positions_from (i + 1) t'
  end.

Definition _compute_newline_positions (t : text) : list Z :=
  newline_positions_from 0 t.

(** The loop of [bisect.bisect_right(a, x)] over [lo, hi). *)
Fixpoint bisect_loop (fuel : nat) (a : list Z) (x : Z) (lo hi : nat) : nat :=
  match fuel with
  | O => lo
  | S fuel' =>
      if (lo <? hi)%nat then
        let mid := ((lo + hi) / 2)%nat in
        if x <? nth mid a 0 then bisect_loop fuel' a x lo mid
        else bisect_loop fuel' a x (S mid) hi
      else lo
  end.

Definition bisect_right (a : list Z) (x : Z) : Z :=
  Z.of_nat (bisect_loop (length a) a x 0%nat (length a)).

(** [_line_number_at(newlines, pos)] *)
Definition _line_number_at (newlines : list Z) (pos : Z) : Z :=
  let pos := if pos <? 0 then 0 else pos in
  bisect_right newlines (pos - 1) + 1.

(** [_safe_mkdir(path)] *)
Definition _safe_mkdir (p : Fs.path) : Fs.io unit := Fs.mkdir_parents p.

(** [_would_overwrite_existing_chunks(out_dir)] *)
Definition _would_overwrite_existing_chunks (out_dir : Fs.path) : Fs.io bool :=
  ex ← Fs.gets (fun fs => Fs.exists_ fs out_dir);
  if negb ex then mret false
  else
    d ← Fs.gets (fun fs => Fs.is_dir fs out_dir);
    if negb d then mret true
    else
      ps ← Fs.iterdir out_dir;
      mret (existsb Fs.is_chunk_file ps).

(** [enumerate(l, start=i)] *)
Fixpoint enumerate_from {A} (i : Z) (l : list A) : list (Z * A) :=
  match l with
  | [] => []
  | x :: l' => (i, x) :: enumerate_from (i + 1) l'
  end.

Section Emitter.
Context `{Hashlib} `{Codecs}.

(** [json.dumps(index, indent=2, sort_keys=True)] for the index of
    [chunk_text]: source file, output directory, the two parameters and
    the chunk records. *)
Variable dumps_index : Fs.path -> Fs.path -> Z -> Z -> list Chunk -> text.

(** [p.write_text(s, encoding="utf-8", errors="replace")]: the file is
    opened in text mode, so the newlines of [s] are translated before the
    text is encoded. *)
Definition write_text (p : Fs.path) (s : text) : Fs.io unit :=
  Fs.write_bytes p (text_file_bytes s).

(** The record built in the body of the emission loop. *)
Definition chunk_record (t : text) (newlines : list Z) (width : Z)
    (i : Z) (sp : span) : Chunk :=
  let '(start, end_) := sp in
  let chunk_id := Fmt.chunk_name width i in
  let chunk_text := Py.slice t start end_ in
  let digest := sha256_hexdigest (encode_utf8 chunk_text) in
  let start_line := _line_number_at newlines start in
  let end_line := _line_number_at newlines (Z.max start (end_ - 1)) in
  let filename := (chunk_id ++ ".txt")%string in
  {| chunk_id := chunk_id; path := filename;
     start_char := start; end_char := end_;
     start_line := start_line; end_line := end_line;
     sha256 := digest |}.

(** [for i, (start, end) in enumerate(spans, start=1): ...], with the list
    [chunks] built so far. *)
Fixpoint emit_chunks (out_dir : Fs.path) (t : text) (newlines : list Z)
    (width : Z) (items : list (Z * span)) (chunks : list Chunk)
    : Fs.io (list Chunk) :=
  match items with
  | [] => mret chunks
  | (i, sp) :: items' =>
      let c := chunk_record t newlines width i sp in
      let chunk_text := Py.slice t (fst sp) (snd sp) in
      write_text (Fs.child out_dir (path c)) chunk_text;;
      emit_chunks out_dir t newlines width items' (chunks ++ [c])
  end.

(** [chunk_text(source_path, out_dir, max_chars, overlap_chars, encoding,
    force)] *)
Definition chunk_text (fuel : nat) (source_path out_dir : Fs.path)
    (max_chars overlap_chars : Z) (encoding : string) (force : bool)
    : Fs.io (list Chunk) :=
  raw ← Fs.read_bytes source_path;
  t ← Fs.lift (match decode encoding raw with
               | Some t => Ok t
               | None => Raise (LookupError "unknown encoding")
               end);
  _safe_mkdir out_dir;;
  clash ← _would_overwrite_existing_chunks out_dir;
  if clash && negb force then
    Fs.raise (RuntimeError "Refusing to overwrite existing chunk_*.txt files")
  else
    let newlines := _compute_newline_positions t in
    spans ← Fs.lift (_iter_chunk_spans fuel t max_chars overlap_chars);
    let width := Fmt.id_width (Py.len spans) in
    chunks ← emit_chunks out_dir t newlines width (enumerate_from 1 spans) [];
    write_text (Fs.child out_dir "index.json")
      (dumps_index source_path out_dir max_chars overlap_chars chunks
         ++ [newline]);;
    mret chunks.

(** The arguments of [main], as [argparse] returns them. *)
Record Args := mkArgs {
  arg_source : Fs.path;
  arg_out_dir : option Fs.path;
  arg_max_chars : Z;
  arg_overlap_chars : Z;
  arg_encoding : string;
  arg_force : bool
}.

(** [str(path)] *)
Variable str_path : Fs.path -> string.

(** The output directory [main] settles on. *)
Definition out_dir_of (args : Args) : Fs.path :=
  match arg_out_dir args with
  | Some d => d
  | None => Fs.parent (arg_source args)
              ++ ["chunks"%string; Fs.stem (arg_source args)]
  end.

(** [main(argv)], from the parsed arguments on: the exit code and the line
    that is printed. Every exception of [chunk_text] is caught. *)
Definition main (fuel : nat) (args : Args) : Fs.io (Z * printed) :=
  let source_path := arg_source args in
  ex ← Fs.gets (fun fs => Fs.exists_ fs source_path);
  if negb ex then
    mret (2, Stderr ("error: source file does not exist: "
                     ++ str_path source_path)%string)
  else
    isf ← Fs.gets (fun fs => Fs.is_file fs source_path);
    if negb isf then
      mret (2, Stderr ("error: source path is not a file: "
                       ++ str_path source_path)%string)
    else
      let out_dir := out_dir_of args in
      fun fs =>
        match chunk_text fuel source_path out_dir (arg_max_chars args)
                (arg_overlap_chars args) (arg_encoding args) (arg_force args) fs with
        | (Ok chunks, fs') =>
            (Ok (0, Stdout ("Wrote " ++ Fmt.str (Py.len chunks)
                            ++ " chunks to: " ++ str_path out_dir)%string), fs')
        | (Raise e, fs') => (Ok (1, Stderr ("error: " ++ exn_str e)%string), fs')
        | (Spin, fs') => (Spin, fs')
        end.

End Emitter.

End ChunkText.

(** ** split_code_treesitter.py *)

Module SplitCode.

(** A tree-sitter node, with the attributes the script reads. *)
Inductive Node :=
| MkNode (type : string) (named_children : list Node)
         (start_byte end_byte : Z) (start_point end_point : Z * Z).

Definition type (n : Node) : string :=
  match n with MkNode t _ _ _ _ _ => t end.
Definition named_children (n : Node) : list Node :=
  match n with MkNode _ cs _ _ _ _ => cs end.
Definition start_byte (n : Node) : Z :=
  match n with MkNode _ _ b _ _ _ => b end.
Definition end_byte (n : Node) : Z :=
  match n with MkNode _ _ _ e _ _ => e end.
Definition start_point (n : Node) : Z * Z :=
  match n with MkNode _ _ _ _ p _ => p end.
Definition end_point (n : Node) : Z * Z :=
  match n with MkNode _ _ _ _ _ p => p end.

Fixpoint node_size (n : Node) : nat :=
  match n with
  | MkNode _ cs _ _ _ _ => S (list_sum (List.map node_size cs))
  end.

Definition stack_size (stack : list Node) : nat :=
  list_sum (List.map node_size stack).

Definition EXT_TO_LANG : gmap string string :=
  list_to_map
    [(".py", "python"); (".js", "javascript"); (".jsx", "jsx");
     (".ts", "typescript"); (".tsx", "tsx"); (".go", "go"); (".rs", "rust");
     (".java", "java"); (".c", "c"); (".h", "c"); (".cc", "cpp");
     (".cpp", "cpp"); (".cxx", "cpp"); (".hpp", "cpp"); (".hh", "cpp");
     (".rb", "ruby"); (".php", "php"); (".sh", "bash")]%string.

Definition set_of (l : list string) : gset string := list_to_set l.

Definition INTERESTING_NODE_TYPES : gmap string (gset string) :=
  list_to_map
    [("python", set_of ["function_definition"; "class_definition";
                        "decorated_definition"]);
     ("javascript", set_of ["function_declaration"; "class_declaration"]);
     ("jsx", set_of ["function_declaration"; "class_declaration"]);
     ("typescript", set_of ["function_declaration"; "class_declaration";
                            "interface_declaration"; "enum_declaration";
                            "type_alias_declaration"]);
     ("tsx", set_of ["function_declaration"; "class_declaration";
                     "interface_declaration"; "enum_declaration";
                     "type_alias_declaration"]);
     ("go", set_of ["function_declaration"; "method_declaration";
                    "type_declaration"]);
     ("rust", set_of ["function_item"; "struct_item"; "enum_item";
                      "impl_item"; "trait_item"; "mod_item"]);
     ("java", set_of ["class_declaration"; "interface_declaration";
                      "enum_declaration"; "method_declaration";
                      "constructor_declaration"]);
     ("c", set_of ["function_definition"; "struct_specifier";
                   "enum_specifier"; "union_specifier"]);
     ("cpp", set_of ["function_definition"; "class_specifier";
                     "struct_specifier"; "enum_specifier";
                     "namespace_definition"]);
     ("ruby", set_of ["method"; "class"; "module"]);
     ("php", set_of ["function_definition"; "class_declaration";
                     "interface_declaration"; "trait_declaration"]);
     ("bash", set_of ["function_definition"])]%string.

Definition WRAPPER_NODE_TYPES : gmap string (gset string) :=
  list_to_map
    [("python", set_of ["decorated_definition"]);
     ("javascript", set_of ["export_statement"; "export_default_declaration"]);
     ("jsx", set_of ["export_statement"; "export_default_declaration"]);
     ("typescript", set_of ["export_statement"; "export_default_declaration"]);
     ("tsx", set_of ["export_statement"; "export_default_declaration"])]%string.

Record Chunk := mkChunk {
  chunk_id : string;
  source_file : string;
  language : string;
  node_type : string;
  start_line : Z;
  end_line : Z;
  start_byte_ : Z;
  end_byte_ : Z;
  path : string;
  sha256 : string
}.

(** [s.lower()] on the letters A to Z. *)
Definition lower_char (c : ascii) : ascii :=
  let n := nat_of_ascii c in
  if ((65 <=? n) && (n <=? 90))%nat then ascii_of_nat (n + 32) else c.

Definition lower (s : string) : string :=
  string_of_list_ascii (List.map lower_char (list_ascii_of_string s)).

(** [_detect_language(path, explicit)]; an empty [explicit] is falsy. *)
Definition _detect_language (p : Fs.path) (explicit : option string)
    : option string :=
  match explicit with
  | Some l => if String.eqb l "" then EXT_TO_LANG !! lower (Fs.suffix p)
              else Some l
  | None => EXT_TO_LANG !! lower (Fs.suffix p)
  end.

(** The loop of [_has_interesting_descendant]; the head of [stack] is the
    end of the Python list, which [stack.pop()] takes. *)
Equations? search_stack (interesting : gset string) (stack : list Node)
    : bool by wf (stack_size stack) lt :=
  search_stack interesting [] := false;
  search_stack interesting (n :: rest) :=
    if bool_decide (type n ∈ interesting) then true
    else search_stack interesting
           (List.rev (firstn 8 (named_children n)) ++ rest).
Proof.
  unfold stack_size. rewrite List.map_app, list_sum_app, List.map_rev.
  destruct n as [t cs sb eb sp ep]; simpl.
  assert (Hrev : forall l : list nat, list_sum (List.rev l) = list_sum l).
  { induction l as [|x l IH]; simpl; [reflexivity|].
    rewrite list_sum_app, IH. simpl. lia. }
  rewrite Hrev.
  assert (Hfirst : forall k (l : list Node),
    (list_sum (List.map node_size (firstn k l))
     <= list_sum (List.map node_size l))%nat).
  { induction k as [|k IH]; intros [|x l]; simpl; try lia.
    specialize (IH l). lia. }
  specialize (Hfirst 8%nat cs). lia.
Qed.

(** [_has_interesting_descendant(node, interesting)] *)
Definition _has_interesting_descendant (node : Node)
    (interesting : gset string) : bool :=
  search_stack interesting (List.rev (named_children node)).

(** [_top_level_chunks(tree, language)], [root] being [tree.root_node];
    the loop over the children with the list [nodes] built so far. *)
Fixpoint select_children (interesting wrappers : gset string)
    (children : list Node) (nodes : list Node) : list Node :=
  match children with
  | [] => nodes
  | child :: children' =>
      let t := type child in
      if bool_decide (t ∈ interesting) then
        select_children interesting wrappers children' (nodes ++ [child])
      else if bool_decide (t ∈ wrappers)
              && _has_interesting_descendant child interesting then
        select_children interesting wrappers children' (nodes ++ [child])
      else select_children interesting wrappers children' nodes
  end.

Definition _top_level_chunks (root : Node) (language : string) : list Node :=
  let interesting := default ∅ (INTERESTING_NODE_TYPES !! language) in
  let wrappers := default ∅ (WRAPPER_NODE_TYPES !! language) in
  select_children interesting wrappers (named_children root) [].

(** [_clear_existing_chunks(chunk_dir)] *)
Fixpoint unlink_chunks (ps : list Fs.path) : Fs.io unit :=
  match ps with
  | [] => mret tt
  | p :: ps' =>
      if String.eqb (Fs.name p) "index.json" || Fs.is_chunk_file p
      then Fs.unlink p;; unlink_chunks ps'
      else unlink_chunks ps'
  end.

Definition _clear_existing_chunks (chunk_dir : Fs.path) : Fs.io unit :=
  ex ← Fs.gets (fun fs => Fs.exists_ fs chunk_dir);
  if negb ex then mret tt
  else
    d ← Fs.gets (fun fs => Fs.is_dir fs chunk_dir);
    if negb d then
      Fs.raise (RuntimeError "Output path exists and is not a directory")
    else
      ps ← Fs.iterdir chunk_dir;
      unlink_chunks ps.

(** [p.relative_to(root)] *)
Fixpoint relative_to (p root : Fs.path) : option Fs.path :=
  match root, p with
  | [], _ => Some p
  | r :: root', c :: p' => if String.eqb r c then relative_to p' root' else None
  | _ :: _, [] => None
  end.

(** [p.as_posix()] of a relative path. *)
Definition as_posix (p : Fs.path) : string := String.concat "/" p.

Section Splitter.
Context `{Hashlib} `{Codecs}.

(** [tree_sitter_languages.get_parser]: [None] when the import failed;
    otherwise a language is mapped to its parser, which returns the root
    node of the tree, or to nothing when the call raises. *)
Variable get_parser : option (string -> option (list Byte.byte -> Node)).

(** [list(_iter_files(source_root))], the traversal by [os.walk]. *)
Variable _iter_files : Fs.filesystem -> Fs.path -> list Fs.path.

(** [json.dumps(..., indent=2, sort_keys=True)] for the index of one file
    (source file, language, chunks) and for the aggregate index (source
    root, output directory, language override, chunks). *)
Variable dumps_file_index : string -> string -> list Chunk -> text.
Variable dumps_index : Fs.path -> Fs.path -> option string -> list Chunk -> text.

(** The record built in the body of the emission loop. *)
Definition chunk_record (data : list Byte.byte) (rel_path chunk_dir out_dir : Fs.path)
    (lang : string) (width : Z) (i : Z) (node : Node) : Chunk :=
  let start_b := start_byte node in
  let end_b := end_byte node in
  let chunk_bytes := Py.slice data start_b end_b in
  let chunk_id := (as_posix rel_path ++ "::" ++ Fmt.chunk_name width i)%string in
  let filename := (Fmt.chunk_name width i ++ ".txt")%string in
  let start_line := fst (start_point node) + 1 in
  let end_line := fst (end_point node) + 1 in
  {| chunk_id := chunk_id;
     source_file := as_posix rel_path;
     language := lang;
     node_type := type node;
     start_line := start_line;
     end_line := end_line;
     start_byte_ := start_b;
     end_byte_ := end_b;
     path := as_posix (Fs.child (default [] (relative_to chunk_dir out_dir))
                                filename);
     sha256 := sha256_hexdigest chunk_bytes |}.

(** [for i, node in enumerate(nodes, start=1): ...], with the list
    [file_chunks] built so far. *)
Fixpoint emit_nodes (data : list Byte.byte) (rel_path chunk_dir out_dir : Fs.path)
    (lang : string) (width : Z) (items : list (Z * Node))
    (file_chunks : list Chunk) : Fs.io (list Chunk) :=
  match items with
  | [] => mret file_chunks
  | (i, node) :: items' =>
      let c := chunk_record data rel_path chunk_dir out_dir lang width i node in
      let chunk_bytes := Py.slice data (start_byte node) (end_byte node) in
      let filename := (Fmt.chunk_name width i ++ ".txt")%string in
      Fs.write_bytes (Fs.child chunk_dir filename) chunk_bytes;;
      emit_nodes data rel_path chunk_dir out_dir lang width items'
                 (file_chunks ++ [c])
  end.

(** The overwrite policy of one file, after its chunk directory was made. *)
Definition check_or_clear (chunk_dir : Fs.path) (force : bool) : Fs.io unit :=
  if force then _clear_existing_chunks chunk_dir
  else
    ps ← Fs.iterdir chunk_dir;
    if existsb Fs.is_chunk_file ps then
      Fs.raise (RuntimeError "Refusing to overwrite existing chunk_*.txt files")
    else mret tt.

(** The body of [for src in files:], from the nodes of one file on: it
    returns the chunks of that file. *)
Definition emit_file (data : list Byte.byte) (nodes : list Node)
    (rel_path out_dir : Fs.path) (lang : string) (force : bool)
    : Fs.io (list Chunk) :=
  let chunk_dir :=
    out_dir ++ Fs.parent rel_path ++ [(Fs.name rel_path ++ ".chunks")%string] in
  Fs.mkdir_parents chunk_dir;;
  check_or_clear chunk_dir force;;
  let width := Fmt.id_width (Py.len nodes) in
  file_chunks ← emit_nodes data rel_path chunk_dir out_dir lang width
                  (ChunkText.enumerate_from 1 nodes) [];
  Fs.write_bytes (Fs.child chunk_dir "index.json")
    (text_file_bytes (dumps_file_index (as_posix rel_path) lang file_chunks
                      ++ [newline]));;
  mret file_chunks.

(** The body of [for src in files:]; [all_chunks] is the list built so far
    and a [continue] returns it unchanged. *)
Definition split_file (parser_of : string -> option (list Byte.byte -> Node))
    (root_for_rel out_dir : Fs.path) (language_override : option string)
    (force : bool) (src : Fs.path) (all_chunks : list Chunk)
    : Fs.io (list Chunk) :=
  match _detect_language src language_override with
  | None => mret all_chunks
  | Some lang =>
      if String.eqb lang "" then mret all_chunks
      else
        match parser_of lang with
        | None => mret all_chunks
        | Some parse =>
            data ← Fs.read_bytes src;
            let root := parse data in
            let nodes := _top_level_chunks root lang in
            match nodes with
            | [] => mret all_chunks
            | _ =>
                match relative_to src root_for_rel with
                | None => Fs.raise (ValueError "not in the subpath")
                | Some rel_path =>
                    file_chunks ← emit_file data nodes rel_path out_dir lang force;
                    mret (all_chunks ++ file_chunks)
                end
            end
        end
  end.

Fixpoint split_files (parser_of : string -> option (list Byte.byte -> Node))
    (root_for_rel out_dir : Fs.path) (language_override : option string)
    (force : bool) (files : list Fs.path) (all_chunks : list Chunk)
    : Fs.io (list Chunk) :=
  match files with
  | [] => mret all_chunks
  | src :: files' =>
      all_chunks' ← split_file parser_of root_for_rel out_dir
                      language_override force src all_chunks;
      split_files parser_of root_for_rel out_dir language_override force
                  files' all_chunks'
  end.

(** [split_code(source_root, out_dir, language_override, force)] *)
Definition split_code (source_root out_dir : Fs.path)
    (language_override : option string) (force : bool)
    : Fs.io (list Chunk) :=
  match get_parser with
  | None =>
      Fs.raise (RuntimeError "tree-sitter dependencies are not installed.")
  | Some parser_of =>
      plan ← Fs.gets (fun fs =>
                if Fs.is_file fs source_root
                then ([source_root], Fs.parent source_root)
                else (_iter_files fs source_root, source_root));
      let files : list Fs.path := fst plan in
      let root_for_rel : Fs.path := snd plan in
      Fs.mkdir_parents out_dir;;
      all_chunks ← split_files parser_of root_for_rel out_dir
                     language_override force files [];
      Fs.write_bytes (Fs.child out_dir "index.json")
        (text_file_bytes (dumps_index source_root out_dir language_override
                                      all_chunks ++ [newline]));;
      mret all_chunks
  end.

End Splitter.

Definition SKIP_DIR_NAMES : gset string :=
  set_of [".git"; "node_modules"; "dist"; "build"; ".venv"; "venv";
          "__pycache__"]%string.

(** [d not in SKIP_DIR_NAMES and not d.startswith(".")] *)
Definition keep_dir (d : string) : bool :=
  negb (bool_decide (d ∈ SKIP_DIR_NAMES)) && negb (String.prefix "." d).

(** The test of [_iter_files] on a file: its name does not start with a
    dot and its lower-cased suffix is a key of [EXT_TO_LANG]. *)
Definition wanted_file (p : Fs.path) : bool :=
  negb (String.prefix "." (Fs.name p))
  && bool_decide (is_Some (EXT_TO_LANG !! lower (Fs.suffix p))).

(** The loop of [_iter_files] over [os.walk(root)], top down: the files of
    [dirpath] that pass the test, then the walk of the directories that are
    left in [dirnames]. *)
Fixpoint walk_files (fuel : nat) (fs : Fs.filesystem) (dirpath : Fs.path)
    : list Fs.path :=
  match fuel with
  | O => []
  | S fuel' =>
      let entries := Fs.listdir fs dirpath in
      let dirnames := List.filter (fun p => Fs.is_dir fs p) entries in
      let filenames := List.filter (fun p => negb (Fs.is_dir fs p)) entries in
      let dirnames := List.filter (fun p => keep_dir (Fs.name p)) dirnames in
      List.filter wanted_file filenames
      ++ List.flat_map (walk_files fuel' fs) dirnames
  end.

(** [list(_iter_files(root))]; a walk is never deeper than the number of
    entries of the file system. *)
Definition _iter_files (fs : Fs.filesystem) (root : Fs.path) : list Fs.path :=
  if Fs.is_dir fs root then walk_files (S (size fs)) fs root else [].

(** The arguments of [main], as [argparse] returns them. *)
Record Args := mkArgs {
  arg_source : Fs.path;
  arg_out_dir : Fs.path;
  arg_language : option string;
  arg_force : bool
}.

Section EntryPoint.
Context `{Hashlib} `{Codecs}.
Variable get_parser : option (string -> option (list Byte.byte -> Node)).
Variable dumps_file_index : string -> string -> list Chunk -> text.
Variable dumps_index : Fs.path -> Fs.path -> option string -> list Chunk -> text.

(** [str(path)] *)
Variable str_path : Fs.path -> string.

(** [main(argv)], from the parsed arguments on: the exit code and the line
    that is printed. Every exception of [split_code] is caught. *)
Definition main (args : Args) : Fs.io (Z * printed) :=
  ex ← Fs.gets (fun fs => Fs.exists_ fs (arg_source args));
  if negb ex then
    mret (2, Stderr ("error: source path does not exist: "
                     ++ str_path (arg_source args))%string)
  else
    fun fs =>
      match split_code get_parser _iter_files dumps_file_index dumps_index
              (arg_source args) (arg_out_dir args) (arg_language args)
              (arg_force args) fs with
      | (Ok chunks, fs') =>
          (Ok (0, Stdout ("Wrote " ++ Fmt.str (Py.len chunks)
                          ++ " chunks to: " ++ str_path (arg_out_dir args))%string),
           fs')
      | (Raise e, fs') => (Ok (1, Stderr ("error: " ++ exn_str e)%string), fs')
      | (Spin, fs') => (Spin, fs')
      end.

End EntryPoint.

End SplitCode.

(** * Specification vocabulary and example data *)

(** [nl] is the last newline of [t] in the window [lo, hi). *)
Definition last_newline_in (t : text) (lo hi nl : Z) : Prop :=
  lo <= nl < hi /\ newline_at t nl = true /\
  forall j, nl < j < hi -> newline_at t j = false.

(** [t] has no newline in the window [lo, hi). *)
Definition no_newline_in (t : text) (lo hi : Z) : Prop :=
  forall j, lo <= j < hi -> newline_at t j = false.

(** The three ways [_choose_chunk_end] comes to its result. *)
Inductive chunk_end_case (t : text) (s h : Z) : Z -> Prop :=
| end_of_text : Py.len t <= h -> chunk_end_case t s h (Py.len t)
| end_snapped nl :
    h < Py.len t -> last_newline_in t s h nl ->
    s + Py.int_times_min_ratio (h - s) <= nl ->
    chunk_end_case t s h (nl + 1)
| end_hard :
    h < Py.len t ->
    (forall j, s + Py.int_times_min_ratio (h - s) <= j < h ->
               s <= j -> newline_at t j = false) ->
    chunk_end_case t s h h.

Definition two_lines : text := text_of_string "hello
world, this is".

(** A valid configuration. *)
Definition valid_config (M V : Z) : Prop := 0 < M /\ 0 <= V < M.

(** The end the loop body settles on from [s]. *)
Definition chunk_end (t : text) (M s : Z) : Z :=
  _choose_chunk_end t s (Z.min (s + M) (Py.len t)).

(** The spans the loop emits from the start offset [s] until it leaves. *)
Inductive trace (t : text) (M V : Z) : Z -> list span -> Prop :=
| trace_exit s : Py.len t <= s -> trace t M V s []
| trace_last s :
    s < Py.len t -> Py.len t <= chunk_end t M s ->
    trace t M V s [(s, chunk_end t M s)]
| trace_step s tail :
    s < Py.len t -> chunk_end t M s < Py.len t ->
    trace t M V (Z.max 0 (chunk_end t M s - V)) tail ->
    trace t M V s ((s, chunk_end t M s) :: tail).

(** A start offset the loop comes back to: it never leaves from there. *)
Definition stuck (t : text) (M V s : Z) : Prop :=
  0 <= s < Py.len t /\ chunk_end t M s < Py.len t /\
  Z.max 0 (chunk_end t M s - V) = s.

(** A span is non-empty and within a buffer of [n] characters. *)
Definition span_ok (n : Z) (sp : span) : Prop :=
  0 <= fst sp /\ fst sp < snd sp /\ snd sp <= n.

(** Two consecutive spans: the later one starts strictly later, starts no
    later than the earlier one ends (no gap), the overlap [fst b, snd a) is
    at most [V] wide and lies at the end of [a] and at the start of [b]. *)
Definition linked (V : Z) (a b : span) : Prop :=
  fst a < fst b /\ fst b <= snd a /\ snd a - fst b <= V /\ snd a <= snd b.

Fixpoint chained (R : span -> span -> Prop) (l : list span) : Prop :=
  match l with
  | a :: (b :: _) as l' => R a b /\ chained R l'
  | _ => True
  end.

(** The spans cover every offset of [0, n). *)
Definition covers (n : Z) (l : list span) : Prop :=
  forall x, 0 <= x < n -> Exists (fun sp => fst sp <= x < snd sp) l.

(** What the boundary selector promises about the list it returns. *)
Record good_spans (n V : Z) (l : list span) : Prop := {
  gs_first : exists e rest, l = (0, e) :: rest;
  gs_last : exists s, List.last l (0, 0) = (s, n);
  gs_each : Forall (span_ok n) l;
  gs_chain : chained (linked V) l;
  gs_cover : covers n l
}.

(** Seventeen characters with one newline, at offset 6. *)
Definition newline_after_six : text := text_of_string "aaaaaa
aaaaaaaaaa".

(** Reading a decimal numeral back, leading zeros included. *)
Definition parse_decimal (s : string) : option Z :=
  option_map Z.of_uint (NilEmpty.uint_of_string s).

(** The file name of chunk [i]. *)
Definition chunk_file (width i : Z) : string :=
  (Fmt.chunk_name width i ++ ".txt")%string.

(** The writes of an emission loop, in order. *)
Definition write_all (kvs : list (Fs.path * list Byte.byte))
    (fs : gmap Fs.path Fs.entry) : gmap Fs.path Fs.entry :=
  fold_left (fun fs kv => <[fst kv := Fs.File (snd kv)]> fs) kvs fs.

(** The bytes [chunk_text] writes for the span [sp]. *)
Definition span_bytes `{Codecs} (t : text) (sp : span) : list Byte.byte :=
  text_file_bytes (Py.slice t (fst sp) (snd sp)).

Definition chunk_writes `{Codecs} (out : Fs.path) (t : text) (w : Z)
    (items : list (Z * span)) : list (Fs.path * list Byte.byte) :=
  List.map (fun it => (Fs.child out (chunk_file w (fst it)), span_bytes t (snd it)))
           items.

(** The number of newlines in a piece of text. *)
Definition count_newlines (t : text) : Z :=
  Z.of_nat (length (List.filter is_newline t)).

Definition sorted_nth (a : list Z) : Prop :=
  forall i j, (i <= j < length a)%nat -> nth i a 0 <= nth j a 0.

(** [r] splits [a] into the entries that are at most [x] and the entries
    above [x]: the result [bisect_right] documents. *)
Definition partition_point (a : list Z) (x : Z) (r : nat) : Prop :=
  (r <= length a)%nat /\
  (forall i, (i < r)%nat -> nth i a 0 <= x) /\
  (forall i, (r <= i < length a)%nat -> x < nth i a 0).

(** Stand-ins for the collaborators, for the examples: a one-byte codec on
    a platform whose line separator is the newline, and a digest that only
    depends on the bytes. *)
Definition byte_codecs : Codecs :=
  {| decode := fun _ raw => Some (List.map ascii_of_byte raw);
     encode_utf8 := List.map byte_of_ascii;
     linesep := [newline] |}.

Definition carriage_return : ascii := "013"%char.

(** The same codec on a platform whose line separator is carriage return,
    line feed. *)
Definition crlf_codecs : Codecs :=
  {| decode := fun _ raw => Some (List.map ascii_of_byte raw);
     encode_utf8 := List.map byte_of_ascii;
     linesep := [carriage_return; newline] |}.

Definition length_hashlib : Hashlib :=
  {| sha256_hexdigest := fun data => Fmt.str (Py.len data) |}.

Definition no_index : Fs.path -> Fs.path -> Z -> Z -> list ChunkText.Chunk -> text :=
  fun _ _ _ _ _ => [].

Definition bytes_of_string (s : string) : list Byte.byte :=
  List.map byte_of_ascii (list_ascii_of_string s).

(** The first line of the small example with its newline, as it is hashed,
    and as a text-mode file writes it where the line separator is carriage
    return, line feed. *)
Definition hello_lf : list Byte.byte := bytes_of_string "hello
".

Definition hello_crlf : list Byte.byte :=
  bytes_of_string "hello" ++ List.map byte_of_ascii [carriage_return; newline].

(** [fs'] is [fs] with, at most, some directories added. *)
Definition only_dirs_added (fs fs' : gmap Fs.path Fs.entry) : Prop :=
  forall p, fs' !! p = fs !! p \/ (fs !! p = None /\ fs' !! p = Some Fs.Dir).

Definition source_only : gmap Fs.path Fs.entry :=
  <[ ["in.txt"%string] := Fs.File (bytes_of_string "abc") ]> ∅.

Import SplitCode.

(** The test [_top_level_chunks] applies to a top-level child. *)
Definition selected (interesting wrappers : gset string) (child : Node) : bool :=
  bool_decide (type child ∈ interesting)
  || (bool_decide (type child ∈ wrappers)
      && _has_interesting_descendant child interesting).

(** A declaration three levels below an export statement, and the same
    tree with another node in its place. *)
Definition leaf (t : string) : Node := MkNode t [] 0 0 (0, 0) (0, 0).
Definition inner (t : string) (cs : list Node) : Node := MkNode t cs 0 0 (0, 0) (0, 0).

Definition export_depth_three (t : string) : Node :=
  inner "export_statement" [inner "a" [inner "b" [leaf t]]].

(** A declaration that is the ninth child of an export statement. *)
Definition export_ninth_child (t : string) : Node :=
  inner "export_statement"
    [leaf "c1"; leaf "c2"; leaf "c3"; leaf "c4"; leaf "c5"; leaf "c6";
     leaf "c7"; leaf "c8"; leaf t].

Definition js_interesting : gset string :=
  default ∅ (INTERESTING_NODE_TYPES !! "javascript"%string).

(** [d] is [n] or lies below it along edges to one of the first eight named
    children, at any depth. *)
Inductive reaches8 : Node -> Node -> Prop :=
| reaches8_here n : reaches8 n n
| reaches8_child n c d :
    In c (firstn 8 (named_children n)) -> reaches8 c d -> reaches8 n d.

(** The directory the chunks of [rel_path] go to. *)
Definition chunk_dir_of (out_dir rel_path : Fs.path) : Fs.path :=
  out_dir ++ Fs.parent rel_path ++ [(Fs.name rel_path ++ ".chunks")%string].

Definition node_bytes (data : list Byte.byte) (node : Node) : list Byte.byte :=
  Py.slice data (start_byte node) (end_byte node).

Definition node_writes (chunk_dir : Fs.path) (data : list Byte.byte) (w : Z)
    (items : list (Z * Node)) : list (Fs.path * list Byte.byte) :=
  List.map (fun it => (Fs.child chunk_dir (chunk_file w (fst it)),
                       node_bytes data (snd it))) items.

(** Every record [split_code] returns was built from a top-level node that
    the parser of its language produced. *)
Definition built_from `{Hashlib} (parser_of : string -> option (list Byte.byte -> Node))
    (c : Chunk) : Prop :=
  exists parse lang data node,
    parser_of lang = Some parse /\
    In node (named_children (parse data)) /\
    In node (_top_level_chunks (parse data) lang) /\
    start_line c = fst (start_point node) + 1 /\
    end_line c = fst (end_point node) + 1 /\
    start_byte_ c = start_byte node /\ end_byte_ c = end_byte node /\
    sha256 c = sha256_hexdigest (Py.slice data (start_byte node) (end_byte node)).

(** No path of [fs] is missing from [fs']. *)
Definition keeps_paths (fs fs' : gmap Fs.path Fs.entry) : Prop :=
  forall p, is_Some (fs !! p) -> is_Some (fs' !! p).

Definition clears (p : Fs.path) : bool :=
  String.eqb (Fs.name p) "index.json" || Fs.is_chunk_file p.

Definition rows_ordered (n : Node) : Prop :=
  0 <= fst (start_point n) <= fst (end_point n).

(** What tree-sitter guarantees about the rows of the nodes it returns. *)
Definition parser_rows_ordered
    (parser_of : string -> option (list Byte.byte -> Node)) : Prop :=
  forall lang parse data node,
    parser_of lang = Some parse -> In node (named_children (parse data)) ->
    rows_ordered node.

(** A text of 1000 characters without newline. *)
Definition thousand_a : text := repeat "a"%char 1000.

Definition thousand_fs : gmap Fs.path Fs.entry :=
  <[ ["in.txt"%string] := Fs.File (List.map byte_of_ascii thousand_a) ]> ∅.

Definition thousand_run :=
  @ChunkText.chunk_text length_hashlib byte_codecs no_index 3
     ["in.txt"%string] ["out"%string] 400 50 "utf-8" false thousand_fs.

(** Small inputs of the two pipelines. *)
Definition small_fs : gmap Fs.path Fs.entry :=
  <[ ["in.txt"%string] := Fs.File (bytes_of_string "hello
world
more") ]> ∅.

Definition small_run :=
  @ChunkText.chunk_text length_hashlib byte_codecs no_index 10
     ["in.txt"%string] ["out"%string] 8 2 "utf-8" false small_fs.

Definition py_source : list Byte.byte := bytes_of_string "def f():
  pass
x = 1
".

Definition py_tree : Node :=
  MkNode "module"
    [MkNode "function_definition" [] 0 16 (0, 0) (1, 6);
     MkNode "expression_statement" [] 17 22 (2, 0) (2, 5)]
    0 23 (0, 0) (3, 0).

Definition py_parser : string -> option (list Byte.byte -> Node) :=
  fun lang => if String.eqb lang "python" then Some (fun _ => py_tree) else None.

Definition no_walk : Fs.filesystem -> Fs.path -> list Fs.path := fun _ _ => [].
Definition no_file_index : string -> string -> list Chunk -> text := fun _ _ _ => [].
Definition no_root_index : Fs.path -> Fs.path -> option string -> list Chunk -> text :=
  fun _ _ _ _ => [].

Definition py_fs : gmap Fs.path Fs.entry :=
  <[ ["src"; "a.py"]%string := Fs.File py_source ]> (<[ ["src"%string] := Fs.Dir ]> ∅).

Definition py_run :=
  @split_code length_hashlib byte_codecs (Some py_parser) no_walk no_file_index
     no_root_index ["src"; "a.py"]%string ["out"%string] None false py_fs.

Definition py_emit :=
  @emit_file length_hashlib byte_codecs no_file_index py_source
     (_top_level_chunks py_tree "python") ["a.py"%string] ["out"%string]
     "python" false py_fs.

Definition ok_or_nil {A} (o : outcome (list A)) : list A :=
  match o with Ok l => l | _ => [] end.

(** Stale output of an earlier run. *)
Definition stale_fs : gmap Fs.path Fs.entry :=
  <[ ["out"; "chunk_0002.txt"]%string := Fs.File (bytes_of_string "old two") ]>
  (<[ ["out"; "chunk_0001.txt"]%string := Fs.File (bytes_of_string "old one") ]>
  (<[ ["out"%string] := Fs.Dir ]>
  (<[ ["in.txt"%string] := Fs.File (bytes_of_string "hi") ]> ∅))).

Definition stale_py_fs : gmap Fs.path Fs.entry :=
  <[ ["out"; "a.py.chunks"; "chunk_0002.txt"]%string := Fs.File (bytes_of_string "old two") ]>
  (<[ ["out"; "a.py.chunks"; "chunk_0001.txt"]%string := Fs.File (bytes_of_string "old one") ]>
  (<[ ["out"; "a.py.chunks"]%string := Fs.Dir ]>
  (<[ ["out"%string] := Fs.Dir ]> py_fs))).

(** More vocabulary: chunk sizes, reassembly, output paths, the walk. *)

(** [P] holds of every element but the last. *)
Fixpoint all_but_last {A} (P : A -> Prop) (l : list A) : Prop :=
  match l with
  | a :: (_ :: _) as l' => P a /\ all_but_last P l'
  | _ => True
  end.

(** The text put together again from the chunks: of each chunk, the
    characters already given by the chunk before it are dropped. *)
Fixpoint stitch (t : text) (prev_end : Z) (spans : list span) : text :=
  match spans with
  | [] => []
  | (s, e) :: rest =>
      skipn (Z.to_nat (prev_end - s)) (Py.slice t s e) ++ stitch t e rest
  end.

Definition ten_letters : text := text_of_string "abcdefghij".

(** A strictly increasing list. *)
Definition increasing (a : list Z) : Prop :=
  forall i j, (i < j < length a)%nat -> nth i a 0 < nth j a 0.

(** Every directory on the way from [base] down to [base ++ rest] is
    there. *)
Definition dirs_made (base : Fs.path) (rest : list string)
    (fs : gmap Fs.path Fs.entry) : Prop :=
  forall pre post, rest = pre ++ post -> pre <> [] ->
                   fs !! (base ++ pre) = Some Fs.Dir.

Definition no_dot (cs : list ascii) : Prop := ~ In "."%char cs.

(** A chunk file or the index, directly below [out]. *)
Definition output_path (out p : Fs.path) : Prop :=
  p <> [] /\ Fs.parent p = out /\
  (Fs.is_chunk_file p = true \/ Fs.name p = "index.json"%string).

(** [p] is [out] or a directory above it. *)
Definition on_the_way (out p : Fs.path) : Prop := exists post, out = p ++ post.

(** A directory below [out] that has the name of an output file. *)
Definition blocks_output (fs : gmap Fs.path Fs.entry) (p : Fs.path) : bool :=
  Fs.is_dir fs p && (Fs.is_chunk_file p || String.eqb (Fs.name p) "index.json").

(** The start and end offsets of a record. *)
Definition bounds (c : ChunkText.Chunk) : span :=
  (ChunkText.start_char c, ChunkText.end_char c).

Definition small_source : list Byte.byte := bytes_of_string "hello
world
more".

Definition empty_source_fs : gmap Fs.path Fs.entry :=
  <[ ["in.txt"%string] := Fs.File [] ]> ∅.

Definition plain_path : Fs.path -> string := String.concat "/".

Definition small_args : ChunkText.Args :=
  ChunkText.mkArgs ["in.txt"%string] None 8 2 "utf-8" false.

(** The directories [dirs], one below the other from [base] down, are there
    and the walk goes into each of them. *)
Fixpoint kept_dirs (fs : gmap Fs.path Fs.entry) (base : Fs.path) (dirs : list string)
    : Prop :=
  match dirs with
  | [] => True
  | d :: dirs' =>
      fs !! Fs.child base d = Some Fs.Dir /\ keep_dir d = true /\
      kept_dirs fs (Fs.child base d) dirs'
  end.

Definition walk_fs : gmap Fs.path Fs.entry :=
  <[ ["src"; "pkg"; "b.RS"]%string := Fs.File [] ]>
  (<[ ["src"; "pkg"]%string := Fs.Dir ]>
  (<[ ["src"; "node_modules"; "c.js"]%string := Fs.File [] ]>
  (<[ ["src"; "node_modules"]%string := Fs.Dir ]>
  (<[ ["src"; ".hidden.py"]%string := Fs.File [] ]>
  (<[ ["src"; "notes.txt"]%string := Fs.File [] ]>
  (<[ ["src"; "a.py"]%string := Fs.File [] ]>
  (<[ ["src"%string] := Fs.Dir ]> ∅))))))).

(** A path below [out] that is named [index.json] or like a chunk file. *)
Definition out_named (out p : Fs.path) : Prop :=
  (exists rel, rel <> [] /\ p = out ++ rel) /\ clears p = true.

(** From [fs] to [fs'], an entry changed only where a directory was made
    (nothing was there before) or at a path below [out] that is named
    [index.json] or like a chunk file. *)
Definition confined (out : Fs.path) (fs fs' : gmap Fs.path Fs.entry) : Prop :=
  forall p : Fs.path,
    fs' !! p = fs !! p \/ (fs !! p = None /\ fs' !! p = Some Fs.Dir) \/ out_named out p.

Definition stale_py_emit :=
  @emit_file length_hashlib byte_codecs no_file_index py_source
     (_top_level_chunks py_tree "python") ["a.py"%string] ["out"%string]
     "python" true stale_py_fs.

Definition notes_fs : gmap Fs.path Fs.entry :=
  <[ ["notes.txt"%string] := Fs.File (bytes_of_string "to do") ]> ∅.

Definition notes_args : Args :=
  mkArgs ["notes.txt"%string] ["out"%string] None false.

(** * Proofs *)

Ltac io_unfold :=
  unfold mbind, Fs.io_bind, mret, Fs.io_ret, Fs.bind, Fs.ret, Fs.raise, Fs.lift,
    Fs.gets in *.

(** ** Newline search and the chunk end *)

Lemma last_newline_unique t lo hi a b :
  last_newline_in t lo hi a -> last_newline_in t lo hi b -> a = b.
Proof.
  intros (Ha & Hat & Hamax) (Hb & Hbt & Hbmax).
  destruct (Z.lt_trichotomy a b) as [Hlt | [Heq | Hgt]]; [|assumption|].
  - rewrite (Hamax b) in Hbt by lia. discriminate.
  - rewrite (Hbmax a) in Hat by lia. discriminate.
Qed.

Lemma rfind_scan_spec t lo n :
  let r := rfind_scan t lo n in
  (r = -1 /\ no_newline_in t lo (lo + Z.of_nat n)) \/
  last_newline_in t lo (lo + Z.of_nat n) r.
Proof.
  induction n as [|k IH]; simpl.
  - left. split; [reflexivity|]. intros j Hj. lia.
  - destruct (newline_at t (lo + Z.of_nat k)) eqn:Hk.
    + right. repeat split; try lia. exact Hk.
    + destruct IH as [[Hr Hno] | (Hr & Ht & Hmax)].
      * left. split; [exact Hr|]. intros j Hj.
        destruct (Z.eq_dec j (lo + Z.of_nat k)) as [->|Hne]; [exact Hk|].
        apply Hno. lia.
      * right. repeat split; try lia; [exact Ht|]. intros j Hj.
        destruct (Z.eq_dec j (lo + Z.of_nat k)) as [->|Hne]; [exact Hk|].
        apply Hmax. lia.
Qed.

Lemma rfind_newline_spec t s h :
  0 <= s -> 0 <= h <= Py.len t ->
  let r := rfind_newline t s h in
  (r = -1 /\ no_newline_in t s h) \/ last_newline_in t s h r.
Proof.
  intros Hs Hh. unfold rfind_newline, Py.adjust_index.
  destruct (s <? 0) eqn:E1; [lia|]. destruct (h <? 0) eqn:E2; [lia|].
  rewrite (Z.min_l h) by lia.
  destruct (Z.le_gt_cases s h) as [Hle | Hgt].
  - rewrite (Z.min_l s) by lia.
    pose proof (rfind_scan_spec t s (Z.to_nat (h - s))) as H.
    rewrite Z2Nat.id in H by lia. replace (s + (h - s)) with h in H by lia.
    exact H.
  - replace (Z.to_nat (h - Z.min s (Py.len t))) with O by lia. simpl.
    left. split; [reflexivity|]. intros j Hj. lia.
Qed.

Lemma last_newline_nonneg t lo hi nl :
  0 <= lo -> last_newline_in t lo hi nl -> nl <> -1.
Proof. intros Hlo (H & _). lia. Qed.

Lemma int_times_min_ratio_floor n :
  0 <= n -> Py.int_times_min_ratio n = 6 * n / 10.
Proof.
  intros Hn. unfold Py.int_times_min_ratio.
  rewrite Z.quot_div_nonneg by lia.
  replace (6 * n) with ((n * 3) * 2) by lia. replace 10 with (5 * 2) by lia.
  rewrite Z.div_mul_cancel_r by lia. reflexivity.
Qed.

Lemma int_times_min_ratio_bounds n :
  0 <= n -> 0 <= Py.int_times_min_ratio n <= n.
Proof.
  intros Hn. unfold Py.int_times_min_ratio.
  rewrite Z.quot_div_nonneg by lia.
  split; [apply Z.div_pos; lia|].
  apply Z.div_le_upper_bound; lia.
Qed.

Lemma choose_chunk_end_cases t s h :
  0 <= s -> 0 <= h ->
  chunk_end_case t s h (_choose_chunk_end t s h).
Proof.
  intros Hs Hh. unfold _choose_chunk_end.
  destruct (h >=? Py.len t) eqn:E.
  - apply end_of_text. lia.
  - assert (Hlt : h < Py.len t) by lia.
    destruct (rfind_newline_spec t s h Hs ltac:(lia)) as [[Hr Hno] | Hlast].
    + rewrite Hr. simpl. apply end_hard; [exact Hlt|].
      intros j Hj Hsj. apply Hno. lia.
    + pose proof (last_newline_nonneg _ _ _ _ Hs Hlast) as Hne.
      apply Z.eqb_neq in Hne. rewrite Hne. simpl.
      destruct (rfind_newline t s h >=? _) eqn:E2.
      * apply end_snapped; [exact Hlt | exact Hlast | lia].
      * apply end_hard; [exact Hlt|]. intros j Hj Hsj.
        destruct Hlast as (_ & _ & Hmax). apply Hmax. lia.
Qed.


(** C3. For every text, start offset [0 <= s] and [hard_end = min(s + M,
    len(text))] with [0 <= M]: when [hard_end >= len(text)],
    [_choose_chunk_end] returns [len(text)]; otherwise, with [min_end = s +
    floor((hard_end - s) * 0.6)], when the last newline [nl] of the window
    [s, hard_end) exists and [nl >= min_end] it returns [nl + 1], and when
    there is no newline in the window or the last one is below [min_end] it
    returns [hard_end]. *)
Theorem choose_chunk_end_spec (t : text) (s M : Z) :
  0 <= s -> 0 <= M ->
  let hard_end := Z.min (s + M) (Py.len t) in
  let min_end := s + 6 * (hard_end - s) / 10 in
  (hard_end >= Py.len t -> _choose_chunk_end t s hard_end = Py.len t) /\
  (hard_end < Py.len t ->
     (forall nl, last_newline_in t s hard_end nl -> nl >= min_end ->
                 _choose_chunk_end t s hard_end = nl + 1) /\
     ((no_newline_in t s hard_end \/
       exists nl, last_newline_in t s hard_end nl /\ nl < min_end) ->
      _choose_chunk_end t s hard_end = hard_end)).
Proof.
  intros Hs HM hard_end min_end.
  assert (Hh : 0 <= hard_end) by (unfold hard_end; pose proof (Zle_0_nat (length t)); unfold Py.len; lia).
  assert (Hq : Py.int_times_min_ratio (hard_end - s) = 6 * (hard_end - s) / 10 \/ hard_end < s).
  { destruct (Z.le_gt_cases s hard_end); [left; apply int_times_min_ratio_floor; lia | right; lia]. }
  pose proof (choose_chunk_end_cases t s hard_end Hs Hh) as Hc.
  split.
  - intros Hge. inversion Hc; lia.
  - intros Hlt. split.
    + intros nl Hnl Hmin.
      assert (Hsh : s <= hard_end) by (destruct Hnl as (? & _); lia).
      destruct Hq as [Hq|]; [|lia].
      inversion Hc as [Hx | nl' Hx Hnl' Hmin' Heq | Hx Hno Heq]; try lia.
      * rewrite (last_newline_unique _ _ _ _ _ Hnl Hnl'). reflexivity.
      * destruct Hnl as (Hr & Ht & _). rewrite Hno in Ht; [discriminate| |lia].
        rewrite Hq. fold min_end. lia.
    + intros Hcase.
      inversion Hc as [Hx | nl' Hx Hnl' Hmin' Heq | Hx Hno Heq]; try lia.
      destruct Hcase as [Hnone | (nl & Hnl & Hlow)].
      * destruct Hnl' as (Hr & Ht & _). rewrite Hnone in Ht by lia. discriminate.
      * pose proof (last_newline_unique _ _ _ _ _ Hnl Hnl') as ->.
        assert (Hsh : s <= hard_end) by (destruct Hnl as (? & _); lia).
        destruct Hq as [Hq|]; [|lia]. rewrite Hq in Hmin'. fold min_end in Hmin'. lia.
Qed.

Lemma choose_chunk_end_witness :
  _choose_chunk_end two_lines 0 (Z.min (0 + 8) (Py.len two_lines)) = 5 + 1.
Proof.
  assert (Hb : Z.min (0 + 8) (Py.len two_lines) = 8) by reflexivity.
  refine (proj1 (proj2 (choose_chunk_end_spec two_lines 0 8 _ _) _) 5 _ _).
  - lia.
  - lia.
  - rewrite Hb. reflexivity.
  - rewrite Hb. repeat split; try lia.
    intros j Hj. assert (j = 6 \/ j = 7) as [-> | ->] by lia; reflexivity.
  - rewrite Hb. vm_compute. congruence.
Defined.


(** ** The loop of the boundary selector *)

Section LoopBody.
Variables (t : text) (M V : Z).
Hypothesis Hcfg : valid_config M V.

Lemma len_nonneg : 0 <= Py.len t.
Proof. unfold Py.len. lia. Qed.

Lemma chunk_end_bounds s :
  0 <= s < Py.len t -> s < chunk_end t M s <= Z.min (s + M) (Py.len t).
Proof.
  intros Hs. destruct Hcfg as (HM & HV). unfold chunk_end.
  pose proof (choose_chunk_end_cases t s (Z.min (s + M) (Py.len t))
                ltac:(lia) ltac:(lia)) as Hc.
  inversion Hc as [Hx | nl Hx Hnl Hmin | Hx Hno]; try lia.
  destruct Hnl as (Hr & _).
  pose proof (int_times_min_ratio_bounds (Z.min (s + M) (Py.len t) - s) ltac:(lia)).
  lia.
Qed.

Lemma loop_body_emits s acc :
  0 <= s < Py.len t ->
  loop_body t M V (LoopState s acc) =
    if chunk_end t M s >=? Py.len t then inr (acc ++ [(s, chunk_end t M s)])
    else inl (LoopState (Z.max 0 (chunk_end t M s - V))
                        (acc ++ [(s, chunk_end t M s)])).
Proof.
  intros Hs. pose proof (chunk_end_bounds s Hs) as Hb.
  unfold loop_body, chunk_end in *; simpl.
  destruct (s <? Py.len t) eqn:E; [|lia].
  destruct (_choose_chunk_end t s (Z.min (s + M) (Py.len t)) <=? s) eqn:E2; [lia|].
  reflexivity.
Qed.

Lemma loop_body_exit s acc :
  Py.len t <= s -> loop_body t M V (LoopState s acc) = inr acc.
Proof.
  intros Hs. unfold loop_body; simpl.
  destruct (s <? Py.len t) eqn:E; [lia|]. reflexivity.
Qed.

Lemma while_loop_trace fuel : forall s acc res,
  0 <= s ->
  while_loop fuel t M V (LoopState s acc) = Some res ->
  exists tail, res = acc ++ tail /\ trace t M V s tail.
Proof.
  induction fuel as [|fuel IH]; intros s acc res Hs Hrun; [discriminate|].
  simpl in Hrun.
  destruct (Z.le_gt_cases (Py.len t) s) as [Hout | Hin].
  - rewrite loop_body_exit in Hrun by assumption. inversion Hrun; subst.
    exists []. split; [symmetry; apply app_nil_r | apply trace_exit; assumption].
  - rewrite loop_body_emits in Hrun by lia.
    destruct (chunk_end t M s >=? Py.len t) eqn:E.
    + inversion Hrun; subst. eexists. split; [reflexivity|].
      apply trace_last; lia.
    + apply IH in Hrun; [|lia]. destruct Hrun as (tail & -> & Htr).
      exists ((s, chunk_end t M s) :: tail). split.
      * rewrite <- app_assoc. reflexivity.
      * apply trace_step; [lia | lia | exact Htr].
Qed.

Lemma stuck_no_trace s tail : stuck t M V s -> ~ trace t M V s tail.
Proof.
  intros (Hs & He & Hfix) Htr. induction Htr as [s Hx | s Hx Hy | s tail Hx Hy Htr IH].
  - lia.
  - lia.
  - rewrite Hfix in IH. apply IH; assumption.
Qed.

Lemma stuck_spins s acc fuel :
  stuck t M V s -> while_loop fuel t M V (LoopState s acc) = None.
Proof.
  intros (Hs & He & Hfix). revert acc.
  induction fuel as [|fuel IH]; intros acc; [reflexivity|].
  simpl. rewrite loop_body_emits by assumption.
  destruct (chunk_end t M s >=? Py.len t) eqn:E; [lia|].
  rewrite Hfix. apply IH.
Qed.

(** How the end chosen from [s] relates to the newlines, when the window
    does not reach the end of the text. *)
Lemma chunk_end_inner s :
  0 <= s -> s + M < Py.len t ->
  let q := Py.int_times_min_ratio M in
  (exists nl, last_newline_in t s (s + M) nl /\ s + q <= nl /\
              chunk_end t M s = nl + 1) \/
  (chunk_end t M s = s + M /\
   forall j, s + q <= j < s + M -> newline_at t j = false).
Proof.
  intros Hs Hin q. destruct Hcfg as (HM & HV). unfold chunk_end.
  rewrite Z.min_l by lia.
  pose proof (choose_chunk_end_cases t s (s + M) ltac:(lia) ltac:(lia)) as Hc.
  pose proof (int_times_min_ratio_bounds M ltac:(lia)) as Hq. fold q in Hq.
  assert (HMs : s + M - s = M) by lia.
  inversion Hc as [Hx | nl Hx Hnl Hmin | Hx Hno]; try lia.
  - left. exists nl. rewrite HMs in Hmin. fold q in Hmin.
    repeat split; try apply Hnl; lia.
  - right. split; [lia|]. intros j Hj. rewrite HMs in Hno.
    apply Hno; fold q; lia.
Qed.

Lemma chunk_end_inner_lt s :
  0 <= s -> chunk_end t M s < Py.len t -> s < Py.len t -> s + M < Py.len t.
Proof.
  intros Hs He Hlt. destruct (Z.lt_ge_cases (s + M) (Py.len t)) as [|Hge]; [assumption|].
  exfalso. unfold chunk_end in He. rewrite Z.min_r in He by lia.
  unfold _choose_chunk_end in He.
  destruct (Py.len t >=? Py.len t) eqn:E; lia.
Qed.

(** When the next start does not advance, the loop is stuck there. *)
Lemma no_advance_stuck s :
  0 <= s < Py.len t -> chunk_end t M s < Py.len t ->
  Z.max 0 (chunk_end t M s - V) <= s ->
  stuck t M V (Z.max 0 (chunk_end t M s - V)).
Proof.
  intros Hs He Hback. destruct Hcfg as (HM & HV).
  pose proof (chunk_end_inner_lt s ltac:(lia) He ltac:(lia)) as Hin.
  pose proof (int_times_min_ratio_bounds M ltac:(lia)) as Hq.
  set (s' := Z.max 0 (chunk_end t M s - V)) in *.
  destruct (chunk_end_inner s ltac:(lia) Hin) as [(nl & Hnl & Hmin & Hend) | (Hend & _)];
    [|lia].
  assert (Hs' : 0 <= s') by (unfold s'; lia).
  assert (Hin' : s' + M < Py.len t) by lia.
  destruct Hnl as (Hr & Hnlt & Hmax).
  assert (Hsame : chunk_end t M s' = nl + 1).
  { destruct (chunk_end_inner s' Hs' Hin') as [(nl' & Hnl' & Hmin' & Hend') | (Hend' & Hno)].
    - rewrite Hend'. f_equal.
      apply (last_newline_unique t s' (s' + M)); [exact Hnl'|].
      repeat split; try lia; [exact Hnlt|].
      intros j Hj. apply Hmax. lia.
    - rewrite Hno in Hnlt by lia. discriminate. }
  unfold stuck. rewrite Hsame. rewrite <- Hend. fold s'. lia.
Qed.

Lemma trace_advances s e tail :
  0 <= s -> trace t M V s ((s, e) :: tail) -> tail <> [] ->
  s < Z.max 0 (e - V).
Proof.
  intros Hs Htr Hne. inversion Htr as [| s0 Hx Hy | s0 tail0 Hx Hy Htail]; subst.
  - congruence.
  - destruct (Z.lt_ge_cases s (Z.max 0 (chunk_end t M s - V))) as [|Hback]; [assumption|].
    exfalso. eapply stuck_no_trace; [|exact Htail].
    apply no_advance_stuck; lia.
Qed.

End LoopBody.


Section LoopTrace.
Variables (t : text) (M V : Z).
Hypothesis Hcfg : valid_config M V.

Lemma chunk_end_at_end s :
  Py.len t <= s + M -> chunk_end t M s = Py.len t.
Proof.
  intros H. unfold chunk_end, _choose_chunk_end. rewrite Z.min_r by lia.
  destruct (Py.len t >=? Py.len t) eqn:E; [reflexivity | lia].
Qed.

Lemma chunk_end_next_ge s :
  0 <= s < Py.len t -> chunk_end t M s < Py.len t ->
  s < Z.max 0 (chunk_end t M s - V) ->
  chunk_end t M s <= chunk_end t M (Z.max 0 (chunk_end t M s - V)).
Proof.
  intros Hs He Hadv. destruct Hcfg as (HM & HV).
  pose proof (chunk_end_bounds t M V Hcfg s Hs) as Hb.
  pose proof (chunk_end_inner_lt t M s ltac:(lia) He ltac:(lia)) as Hin.
  set (e := chunk_end t M s) in *. set (s' := Z.max 0 (e - V)) in *.
  assert (Hs' : 0 <= s' < Py.len t) by lia.
  pose proof (chunk_end_bounds t M V Hcfg s' Hs') as Hb'.
  destruct (Z.le_gt_cases (Py.len t) (s' + M)) as [Hfar | Hin'].
  { rewrite chunk_end_at_end by assumption. lia. }
  destruct (chunk_end_inner t M V Hcfg s' ltac:(lia) Hin')
    as [(nl' & (Hr' & Hnlt' & Hmax') & Hmin' & Hend') | (Hend' & _)]; [|lia].
  destruct (chunk_end_inner t M V Hcfg s ltac:(lia) Hin)
    as [(nl & (Hr & Hnlt & Hmax) & Hmin & Hend) | (Hend & Hno)]; fold e in Hend.
  - destruct (Z.eq_dec V 0) as [HV0 | HV0]; [lia|].
    destruct (Z.lt_ge_cases nl' nl) as [Hlt|]; [|lia].
    rewrite Hmax' in Hnlt by lia. discriminate.
  - destruct (Z.lt_ge_cases nl' e) as [Hlt|]; [|lia].
    rewrite Hno in Hnlt' by lia. discriminate.
Qed.

Lemma trace_head s tail :
  trace t M V s tail -> s < Py.len t ->
  exists rest, tail = (s, chunk_end t M s) :: rest.
Proof. intros Htr Hlt. inversion Htr; subst; [lia | eauto | eauto]. Qed.

Lemma trace_each s tail :
  0 <= s -> trace t M V s tail -> Forall (span_ok (Py.len t)) tail.
Proof.
  pose proof Hcfg as (HM & HV).
  intros Hs Htr. induction Htr as [s Hx | s Hx Hy | s tail Hx Hy Htr IH].
  - constructor.
  - pose proof (chunk_end_bounds t M V Hcfg s ltac:(lia)).
    repeat constructor; simpl; lia.
  - pose proof (chunk_end_bounds t M V Hcfg s ltac:(lia)).
    constructor; [repeat split; simpl; lia | apply IH; lia].
Qed.

Lemma trace_last_end s tail :
  0 <= s -> trace t M V s tail -> tail <> [] ->
  exists s', List.last tail (0, 0) = (s', Py.len t).
Proof.
  pose proof Hcfg as (HM & HV).
  intros Hs Htr. induction Htr as [s Hx | s Hx Hy | s tail Hx Hy Htr IH]; intros Hne.
  - congruence.
  - pose proof (chunk_end_bounds t M V Hcfg s ltac:(lia)).
    exists s. simpl. f_equal. lia.
  - pose proof (chunk_end_bounds t M V Hcfg s ltac:(lia)).
    assert (Hs' : Z.max 0 (chunk_end t M s - V) < Py.len t) by lia.
    destruct (trace_head _ _ Htr Hs') as (rest & ->).
    destruct (IH ltac:(lia) ltac:(discriminate)) as (s' & Hl).
    exists s'. exact Hl.
Qed.

Lemma trace_cover s tail :
  0 <= s -> trace t M V s tail ->
  forall x, s <= x < Py.len t -> Exists (fun sp => fst sp <= x < snd sp) tail.
Proof.
  pose proof Hcfg as (HM & HV).
  intros Hs Htr. induction Htr as [s Hx | s Hx Hy | s tail Hx Hy Htr IH]; intros x Hxr.
  - lia.
  - apply Exists_cons_hd. simpl. lia.
  - pose proof (chunk_end_bounds t M V Hcfg s ltac:(lia)).
    destruct (Z.lt_ge_cases x (chunk_end t M s)).
    + apply Exists_cons_hd. simpl. lia.
    + apply Exists_cons_tl. apply IH; lia.
Qed.

Lemma trace_chain s tail :
  0 <= s -> trace t M V s tail -> chained (linked V) tail.
Proof.
  pose proof Hcfg as (HM & HV). intros Hs Htr.
  induction Htr as [s Hx | s Hx Hy | s tail Hx Hy Htr IH]; [exact I | exact I |].
  pose proof (chunk_end_bounds t M V Hcfg s ltac:(lia)) as Hb.
  assert (Hs' : Z.max 0 (chunk_end t M s - V) < Py.len t) by lia.
  destruct (trace_head _ _ Htr Hs') as (rest & Heq).
  pose proof (trace_advances t M V Hcfg s (chunk_end t M s) tail Hs
                (trace_step t M V s tail Hx Hy Htr)) as Hadv.
  rewrite Heq in *. specialize (Hadv ltac:(discriminate)).
  split; [|apply IH; lia].
  repeat split; simpl; try lia.
  apply chunk_end_next_ge; lia.
Qed.

End LoopTrace.

(** Every list the boundary selector returns for a non-empty text under a
    valid configuration starts at 0, ends at the length of the text, covers
    it without gaps, and has strictly increasing starts, overlaps of at most
    [V] characters and non-empty spans within bounds. *)
Theorem iter_chunk_spans_returned (t : text) (M V : Z) (fuel : nat)
    (spans : list span) :
  valid_config M V -> 0 < Py.len t ->
  _iter_chunk_spans fuel t M V = Ok spans ->
  good_spans (Py.len t) V spans.
Proof.
  intros Hcfg Hlen Hrun. unfold _iter_chunk_spans in Hrun.
  destruct Hcfg as (HM & HV).
  destruct (M <=? 0) eqn:E1; [lia|]. destruct (V <? 0) eqn:E2; [lia|].
  destruct (V >=? M) eqn:E3; [lia|].
  destruct (while_loop fuel t M V (LoopState 0 [])) as [res|] eqn:Hw; [|discriminate].
  inversion Hrun; subst res. clear Hrun.
  assert (Hcfg : valid_config M V) by (split; lia).
  apply (while_loop_trace t M V Hcfg) in Hw; [|lia].
  destruct Hw as (tail & -> & Htr). simpl.
  destruct (trace_head t M V 0 tail Htr Hlen) as (rest & Heq).
  constructor.
  - rewrite Heq. eauto.
  - apply (trace_last_end t M V Hcfg 0); [lia | exact Htr | rewrite Heq; discriminate].
  - apply (trace_each t M V Hcfg 0); [lia | exact Htr].
  - apply (trace_chain t M V Hcfg 0); [lia | exact Htr].
  - intros x Hx. apply (trace_cover t M V Hcfg 0 tail); [lia | exact Htr | lia].
Qed.

(** When the overlap is at most [int(0.6 * M)], every round advances the
    start offset and the selector returns within [len(text) + 1] rounds. *)
Lemma while_loop_returns (t : text) (M V : Z) :
  valid_config M V -> V <= Py.int_times_min_ratio M ->
  forall fuel s acc, 0 <= s -> Z.max 0 (Py.len t - s) < Z.of_nat fuel ->
  exists res, while_loop fuel t M V (LoopState s acc) = Some res.
Proof.
  intros Hcfg Hsafe. induction fuel as [|fuel IH]; intros s acc Hs Hfuel; [lia|].
  simpl. destruct (Z.le_gt_cases (Py.len t) s) as [Hout | Hin].
  - rewrite loop_body_exit by assumption. eauto.
  - rewrite (loop_body_emits t M V Hcfg) by lia.
    destruct (chunk_end t M s >=? Py.len t) eqn:E; [eauto|].
    apply IH; [lia|].
    pose proof (chunk_end_inner_lt t M s ltac:(lia) ltac:(lia) ltac:(lia)) as Hlt.
    destruct (chunk_end_inner t M V Hcfg s ltac:(lia) Hlt)
      as [(nl & Hnl & Hmin & Hend) | (Hend & _)]; destruct Hcfg; lia.
Qed.

Theorem iter_chunk_spans_returns (t : text) (M V : Z) :
  valid_config M V -> V <= Py.int_times_min_ratio M ->
  forall fuel, (length t < fuel)%nat ->
  exists spans, _iter_chunk_spans fuel t M V = Ok spans.
Proof.
  intros Hcfg Hsafe fuel Hfuel. unfold _iter_chunk_spans.
  pose proof Hcfg as (HM & HV).
  destruct (M <=? 0) eqn:E1; [lia|]. destruct (V <? 0) eqn:E2; [lia|].
  destruct (V >=? M) eqn:E3; [lia|].
  destruct (while_loop_returns t M V Hcfg Hsafe fuel 0 []) as (res & ->); [lia| |eauto].
  unfold Py.len. lia.
Qed.

Lemma newline_after_six_stuck : stuck newline_after_six 10 9 0.
Proof. unfold stuck. vm_compute. intuition congruence. Qed.

(** C1 (the code breaks the claim). For the 17-character text
    ["aaaaaa\naaaaaaaaaa"], [max_chars = 10] and [overlap_chars = 9] (a valid
    configuration), the loop of [_iter_chunk_spans] is still running after
    any number [n] of rounds, its start offset is 0 again and the spans it
    has emitted are [n] copies of [(0, 7)]: the start offsets do not
    increase and the emitted spans never reach past offset 7, so no list
    covering [0, 17) is returned. *)
Theorem iter_chunk_spans_repeats_first_span (n : nat) :
  iterations n newline_after_six 10 9 (LoopState 0 [])
  = Some (LoopState 0 (repeat (0, 7) n)).
Proof.
  change (@nil span) with (@nil span ++ repeat (0, 7) 0) at 1.
  assert (H : forall n acc,
    iterations n newline_after_six 10 9 (LoopState 0 acc)
    = Some (LoopState 0 (acc ++ repeat (0, 7) n))).
  { clear n. induction n as [|n IH]; intros acc; cbn [iterations repeat].
    - rewrite app_nil_r. reflexivity.
    - rewrite (loop_body_emits newline_after_six 10 9)
        by (unfold valid_config; vm_compute; intuition congruence).
      replace (chunk_end newline_after_six 10 0) with 7 by reflexivity.
      change (7 >=? Py.len newline_after_six) with false.
      change (Z.max 0 (7 - 9)) with 0. cbv iota.
      rewrite IH, <- app_assoc. reflexivity. }
  apply (H n []).
Qed.

(** C2 (the code breaks the claim). For the 17-character text
    ["aaaaaa\naaaaaaaaaa"], [max_chars = 10] and [overlap_chars = 9] (a valid
    configuration), [_iter_chunk_spans] does not terminate: whatever the
    number of rounds allowed, the loop has not been left. *)
Theorem iter_chunk_spans_spins (fuel : nat) :
  _iter_chunk_spans fuel newline_after_six 10 9 = Spin.
Proof.
  unfold _iter_chunk_spans. simpl.
  rewrite (stuck_spins newline_after_six 10 9); [reflexivity| |apply newline_after_six_stuck].
  unfold valid_config. lia.
Qed.


(** ** Texts without newline *)

Lemma is_newline_eq c : is_newline c = true -> c = newline.
Proof. unfold is_newline. apply Ascii.eqb_eq. Qed.

Lemma newline_at_In t i : newline_at t i = true -> In newline t.
Proof.
  unfold newline_at. destruct (nth_error t (Z.to_nat i)) as [c|] eqn:E; [|discriminate].
  intros Hc. apply is_newline_eq in Hc. subst c. eapply nth_error_In; eassumption.
Qed.

Lemma chunk_end_no_newline t M s :
  ~ In newline t -> 0 <= s -> 0 < M ->
  chunk_end t M s = Z.min (s + M) (Py.len t).
Proof.
  intros Hno Hs HM. unfold chunk_end.
  pose proof (len_nonneg t).
  pose proof (choose_chunk_end_cases t s (Z.min (s + M) (Py.len t))
                ltac:(lia) ltac:(lia)) as Hc.
  inversion Hc as [Hx | nl Hx (_ & Hnl & _) Hmin | Hx Hn]; try lia.
  exfalso. apply Hno. eapply newline_at_In; eassumption.
Qed.

Theorem thousand_chars_three_spans (t : text) (fuel : nat) :
  length t = 1000%nat -> ~ In newline t -> (3 <= fuel)%nat ->
  _iter_chunk_spans fuel t 400 50 = Ok [(0, 400); (350, 750); (700, 1000)].
Proof.
  intros Hlen Hno Hfuel.
  assert (HL : Py.len t = 1000) by (unfold Py.len; rewrite Hlen; reflexivity).
  assert (Hcfg : valid_config 400 50) by (unfold valid_config; lia).
  destruct fuel as [|[|[|fuel]]]; try lia.
  unfold _iter_chunk_spans. simpl (400 <=? 0). simpl (50 <? 0). simpl (50 >=? 400).
  cbv iota. cbn [while_loop].
  rewrite (loop_body_emits t 400 50 Hcfg) by lia.
  rewrite chunk_end_no_newline by (assumption || lia). rewrite HL.
  change (Z.min (0 + 400) 1000 >=? 1000) with false. cbv iota.
  change (Z.max 0 (Z.min (0 + 400) 1000 - 50)) with 350.
  rewrite (loop_body_emits t 400 50 Hcfg) by lia.
  rewrite chunk_end_no_newline by (assumption || lia). rewrite HL.
  change (Z.min (350 + 400) 1000 >=? 1000) with false. cbv iota.
  change (Z.max 0 (Z.min (350 + 400) 1000 - 50)) with 700.
  rewrite (loop_body_emits t 400 50 Hcfg) by lia.
  rewrite chunk_end_no_newline by (assumption || lia). rewrite HL.
  reflexivity.
Qed.


(** ** Chunk identifiers *)

Lemma parse_decimal_zeros k s :
  parse_decimal (Fmt.zeros k ++ s) = parse_decimal s.
Proof.
  induction k as [|k IH]; [reflexivity|].
  unfold parse_decimal in *. simpl.
  destruct (NilEmpty.uint_of_string (Fmt.zeros k ++ s)) as [d|] eqn:E;
    destruct (NilEmpty.uint_of_string s) as [d'|] eqn:E'; simpl in *;
    try discriminate; try exact IH.
Qed.

Lemma parse_decimal_str n : 0 <= n -> parse_decimal (Fmt.str n) = Some n.
Proof.
  intros Hn. unfold parse_decimal, Fmt.str.
  destruct n as [|p|p]; [reflexivity| |lia].
  simpl. unfold NilZero.string_of_uint.
  destruct (Pos.to_uint p) eqn:E;
    try (rewrite <- E, NilEmpty.usu; simpl; unfold Z.of_uint;
         rewrite DecimalPos.Unsigned.of_to; reflexivity).
  exfalso. eapply DecimalPos.Unsigned.to_uint_nonnil; eassumption.
Qed.

Lemma format_0d_nonneg width n :
  0 <= n -> parse_decimal (Fmt.format_0d width n) = Some n.
Proof.
  intros Hn. unfold Fmt.format_0d. cbv zeta.
  destruct (n <? 0) eqn:E; [lia|].
  change (String.append EmptyString ?x) with x.
  rewrite parse_decimal_zeros, Z.abs_eq by lia. apply parse_decimal_str; lia.
Qed.

Lemma format_0d_inj width n m :
  0 <= n -> 0 <= m -> Fmt.format_0d width n = Fmt.format_0d width m -> n = m.
Proof.
  intros Hn Hm Heq.
  pose proof (format_0d_nonneg width n Hn) as H1.
  pose proof (format_0d_nonneg width m Hm) as H2.
  rewrite Heq in H1. congruence.
Qed.

Lemma string_app_inv_tail (a b c : string) :
  (a ++ c)%string = (b ++ c)%string -> a = b.
Proof.
  intros H. apply (f_equal list_ascii_of_string) in H.
  assert (Happ : forall x y, list_ascii_of_string (x ++ y)
                 = list_ascii_of_string x ++ list_ascii_of_string y).
  { induction x as [|ch x IH]; intros y; simpl; [reflexivity | f_equal; apply IH]. }
  rewrite !Happ in H. apply app_inv_tail in H.
  rewrite <- (string_of_list_ascii_of_string a), <- (string_of_list_ascii_of_string b).
  f_equal. exact H.
Qed.

Lemma chunk_file_inj width i j :
  0 <= i -> 0 <= j -> chunk_file width i = chunk_file width j -> i = j.
Proof.
  intros Hi Hj H. unfold chunk_file, Fmt.chunk_name in H.
  apply string_app_inv_tail in H. simpl in H. 
  injection H as H. apply (format_0d_inj width); assumption.
Qed.

Lemma chunk_file_not_index width i : chunk_file width i <> "index.json"%string.
Proof. unfold chunk_file, Fmt.chunk_name. simpl. discriminate. Qed.

(** ** Runs of the character pipeline *)

Lemma write_all_notin kvs : forall fs p,
  ~ In p (List.map fst kvs) -> write_all kvs fs !! p = fs !! p.
Proof.
  induction kvs as [|[k v] kvs IH]; intros fs p Hp; [reflexivity|].
  simpl in *. unfold write_all in *. simpl. rewrite IH by tauto.
  apply lookup_insert_ne. intros ->. tauto.
Qed.

Lemma write_all_in kvs : forall fs k v,
  List.NoDup (List.map fst kvs) -> In (k, v) kvs ->
  write_all kvs fs !! k = Some (Fs.File v).
Proof.
  induction kvs as [|[k0 v0] kvs IH]; intros fs k v Hnd Hin; [contradiction|].
  simpl in Hnd. apply NoDup_cons_iff in Hnd as [Hk0 Hnd].
  unfold write_all in *. simpl.
  destruct Hin as [Heq | Hin].
  - inversion Heq; subst. fold (write_all kvs (<[k := Fs.File v]> fs)).
    rewrite write_all_notin by assumption. apply lookup_insert_eq.
  - apply IH; assumption.
Qed.

Lemma stat_child fs p name : Fs.stat fs (Fs.child p name) = fs !! Fs.child p name.
Proof. unfold Fs.stat, Fs.child. destruct p; reflexivity. Qed.

Lemma child_inj p a b : Fs.child p a = Fs.child p b -> a = b.
Proof. unfold Fs.child. intros H. apply app_inv_head in H. congruence. Qed.

Lemma parent_child p name : Fs.parent (Fs.child p name) = p.
Proof. unfold Fs.parent, Fs.child. apply removelast_last. Qed.

Lemma name_child p name : Fs.name (Fs.child p name) = name.
Proof. unfold Fs.name, Fs.child. apply last_last. Qed.

Lemma write_bytes_cases p d fs :
  (Fs.write_bytes p d fs = (Ok tt, <[p := Fs.File d]> fs)) \/
  (exists e, Fs.write_bytes p d fs = (Raise e, fs)).
Proof.
  unfold Fs.write_bytes. destruct p as [|c p]; [right; eauto|].
  destruct (Fs.stat fs (Fs.parent (c :: p))) as [[|]|]; try (right; eauto; fail).
  destruct (Fs.stat fs (c :: p)) as [[|]|]; (left; reflexivity) || (right; eauto).
Qed.

Lemma enumerate_from_ge {A} (l : list A) : forall k i x,
  In (i, x) (ChunkText.enumerate_from k l) -> k <= i.
Proof.
  induction l as [|y l IH]; intros k i x Hin; [contradiction|].
  destruct Hin as [Heq | Hin]; [inversion Heq; lia|].
  apply IH in Hin. lia.
Qed.

Lemma enumerate_from_NoDup {A} (l : list A) : forall k,
  List.NoDup (List.map fst (ChunkText.enumerate_from k l)).
Proof.
  induction l as [|y l IH]; intros k; simpl; constructor; [|apply IH].
  intros Hin. apply in_map_iff in Hin as ([i x] & Heq & Hin). simpl in Heq. subst i.
  apply enumerate_from_ge in Hin. lia.
Qed.

Lemma enumerate_from_snd {A} (l : list A) : forall k,
  List.map snd (ChunkText.enumerate_from k l) = l.
Proof. induction l as [|y l IH]; intros k; simpl; [reflexivity | f_equal; apply IH]. Qed.

Lemma chunk_paths_NoDup {A} (out : Fs.path) (w : Z) (items : list (Z * A)) :
  List.NoDup (List.map fst items) -> (forall i x, In (i, x) items -> 0 <= i) ->
  List.NoDup (List.map (fun it => Fs.child out (chunk_file w (fst it))) items).
Proof.
  induction items as [|[i x] items IH]; intros Hnd Hpos; simpl; constructor.
  - intros Hin. apply in_map_iff in Hin as ([j y] & Heq & Hin). simpl in Heq.
    apply child_inj, chunk_file_inj in Heq; [| eapply Hpos; right; eassumption
                                             | eapply Hpos; left; reflexivity].
    subst j. apply NoDup_cons_iff in Hnd as [Hni _]. apply Hni.
    apply in_map_iff. exists (i, y). split; [reflexivity | assumption].
  - apply IH; [apply NoDup_cons_iff in Hnd; tauto | intros; eapply Hpos; right; eassumption].
Qed.

Section EmitterRun.
Context `{Hashlib} `{Codecs}.
Variable dumps_index : Fs.path -> Fs.path -> Z -> Z -> list ChunkText.Chunk -> text.

Lemma chunk_record_path t nl w i sp :
  ChunkText.path (ChunkText.chunk_record t nl w i sp) = chunk_file w i.
Proof. destruct sp. reflexivity. Qed.

Lemma emit_chunks_ok out t nl w items : forall acc fs chunks fs',
  ChunkText.emit_chunks out t nl w items acc fs = (Ok chunks, fs') ->
  chunks = acc ++ List.map (fun it => ChunkText.chunk_record t nl w (fst it) (snd it)) items /\
  fs' = write_all (chunk_writes out t w items) fs.
Proof.
  induction items as [|[i sp] items IH]; intros acc fs chunks fs' Hrun; simpl in Hrun.
  - io_unfold. inversion Hrun; subst. rewrite app_nil_r. split; reflexivity.
  - io_unfold. unfold ChunkText.write_text in Hrun.
    rewrite chunk_record_path in Hrun.
    destruct (write_bytes_cases (Fs.child out (chunk_file w i))
                (text_file_bytes (Py.slice t (fst sp) (snd sp))) fs) as [Hw | (e & Hw)];
      rewrite Hw in Hrun; [|discriminate].
    apply IH in Hrun as (-> & ->). split.
    + rewrite <- app_assoc. reflexivity.
    + reflexivity.
Qed.

(** No output file is touched unless the loop writes it. *)
Lemma emit_chunks_frame out t nl w items : forall acc fs r fs' p,
  ChunkText.emit_chunks out t nl w items acc fs = (r, fs') ->
  ~ In p (List.map fst (chunk_writes out t w items)) ->
  fs' !! p = fs !! p.
Proof.
  induction items as [|[i sp] items IH]; intros acc fs r fs' p Hrun Hp; simpl in Hrun.
  - io_unfold. inversion Hrun; subst. reflexivity.
  - io_unfold. unfold ChunkText.write_text in Hrun.
    rewrite chunk_record_path in Hrun. simpl in Hp.
    destruct (write_bytes_cases (Fs.child out (chunk_file w i))
                (text_file_bytes (Py.slice t (fst sp) (snd sp))) fs) as [Hw | (e & Hw)];
      rewrite Hw in Hrun.
    + apply (IH _ _ _ _ p) in Hrun; [|tauto]. rewrite Hrun.
      apply lookup_insert_ne. intros Heq. apply Hp. left. exact Heq.
    + inversion Hrun; subst. reflexivity.
Qed.

Lemma would_overwrite_state out fs :
  snd (ChunkText._would_overwrite_existing_chunks out fs) = fs.
Proof.
  unfold ChunkText._would_overwrite_existing_chunks. io_unfold.
  destruct (negb (Fs.exists_ fs out)); [reflexivity|].
  destruct (negb (Fs.is_dir fs out)); [reflexivity|].
  unfold Fs.iterdir. destruct (Fs.stat fs out) as [[|]|]; reflexivity.
Qed.

(** What a successful run of [chunk_text] went through. *)
Lemma chunk_text_ok fuel src out M V enc force fs chunks fs' :
  ChunkText.chunk_text dumps_index fuel src out M V enc force fs = (Ok chunks, fs') ->
  exists raw t fs1 spans,
    Fs.stat fs src = Some (Fs.File raw) /\ decode enc raw = Some t /\
    Fs.mkdir_parents out fs = (Ok tt, fs1) /\
    _iter_chunk_spans fuel t M V = Ok spans /\
    let w := Fmt.id_width (Py.len spans) in
    let nl := ChunkText._compute_newline_positions t in
    let items := ChunkText.enumerate_from 1 spans in
    chunks = List.map (fun it => ChunkText.chunk_record t nl w (fst it) (snd it)) items /\
    fs' = <[Fs.child out "index.json" :=
              Fs.File (text_file_bytes
                (dumps_index src out M V chunks ++ [newline]))]>
            (write_all (chunk_writes out t w items) fs1).
Proof.
  unfold ChunkText.chunk_text. io_unfold. unfold Fs.read_bytes.
  destruct (Fs.stat fs src) as [[raw|]|] eqn:Hsrc; try discriminate.
  destruct (decode enc raw) as [t|] eqn:Hdec; try discriminate.
  unfold ChunkText._safe_mkdir.
  destruct (Fs.mkdir_parents out fs) as [[[]|e|] fs1] eqn:Hmk; try discriminate.
  pose proof (would_overwrite_state out fs1) as Hst.
  destruct (ChunkText._would_overwrite_existing_chunks out fs1) as [[clash|e|] fs2];
    simpl in Hst; subst fs2; try discriminate.
  destruct (clash && negb force); [discriminate|].
  destruct (_iter_chunk_spans fuel t M V) as [spans|e|] eqn:Hsp; try discriminate.
  destruct (ChunkText.emit_chunks out t _ _ _ [] fs1) as [[cs|e|] fs2] eqn:Hem;
    try discriminate.
  apply emit_chunks_ok in Hem as (Hcs & Hfs2). simpl in Hcs. subst cs fs2.
  unfold ChunkText.write_text.
  match goal with |- context [Fs.write_bytes ?p ?d ?f] =>
    destruct (write_bytes_cases p d f) as [Hw | (e & Hw)]; rewrite Hw end;
    [|discriminate].
  intros Hrun. inversion Hrun; subst.
  exists raw, t, fs1, spans. cbv zeta. repeat split; assumption || reflexivity.
Qed.

End EmitterRun.


(** ** Line numbers *)

Lemma bisect_loop_spec a x : sorted_nth a ->
  forall fuel lo hi,
  (lo <= hi <= length a)%nat -> (hi - lo <= fuel)%nat ->
  (forall i, (i < lo)%nat -> nth i a 0 <= x) ->
  (forall i, (hi <= i < length a)%nat -> x < nth i a 0) ->
  partition_point a x (ChunkText.bisect_loop fuel a x lo hi).
Proof.
  intros Hsort. induction fuel as [|fuel IH]; intros lo hi Hb Hfuel Hlo Hhi;
    cbn [ChunkText.bisect_loop].
  - assert (lo = hi) by lia. subst hi. repeat split; [lia | exact Hlo | exact Hhi].
  - destruct (lo <? hi)%nat eqn:E.
    + apply Nat.ltb_lt in E.
      assert (Hmid : (lo <= (lo + hi) / 2 < hi)%nat).
      { split; [apply Nat.div_le_lower_bound; lia
               | apply Nat.Div0.div_lt_upper_bound; lia]. }
      destruct (x <? nth ((lo + hi) / 2) a 0) eqn:Ex.
      * apply IH; [lia | lia | exact Hlo |].
        intros i Hi. specialize (Hsort ((lo + hi) / 2)%nat i ltac:(lia)). lia.
      * apply IH; [lia | lia | | exact Hhi].
        intros i Hi. specialize (Hsort i ((lo + hi) / 2)%nat ltac:(lia)). lia.
    + apply Nat.ltb_ge in E. assert (lo = hi) by lia. subst hi.
      repeat split; [lia | exact Hlo | exact Hhi].
Qed.

Lemma bisect_right_spec a x : sorted_nth a ->
  exists r, ChunkText.bisect_right a x = Z.of_nat r /\ partition_point a x r.
Proof.
  intros Hsort. eexists. split; [reflexivity|].
  apply bisect_loop_spec; try assumption; try lia.
Qed.

Lemma partition_point_mono a x y r1 r2 :
  x <= y -> partition_point a x r1 -> partition_point a y r2 -> (r1 <= r2)%nat.
Proof.
  intros Hxy (Hr1 & Hlo1 & Hhi1) (Hr2 & Hlo2 & Hhi2).
  destruct (Nat.le_gt_cases r1 r2) as [|Hgt]; [assumption|].
  specialize (Hlo1 r2 ltac:(lia)). specialize (Hhi2 r2 ltac:(lia)). lia.
Qed.

Lemma partition_point_count a x r :
  partition_point a x r ->
  length (List.filter (fun e => e <=? x) a) = r.
Proof.
  revert r. induction a as [|e a IH]; intros r (Hr & Hlo & Hhi); simpl in *.
  - lia.
  - destruct r as [|r].
    + specialize (Hhi 0%nat ltac:(lia)) as He. simpl in He.
      destruct (e <=? x) eqn:E; [lia|].
      apply IH. repeat split; [lia | intros; lia |].
      intros i Hi. apply (Hhi (S i)). lia.
    + specialize (Hlo 0%nat ltac:(lia)) as He. simpl in He.
      destruct (e <=? x) eqn:E; [|lia]. simpl. f_equal.
      apply IH. repeat split; [lia | |].
      * intros i Hi. apply (Hlo (S i)). lia.
      * intros i Hi. apply (Hhi (S i)). lia.
Qed.

Lemma newline_positions_from_spec t : forall i,
  Forall (fun p => i <= p) (ChunkText.newline_positions_from i t) /\
  sorted_nth (ChunkText.newline_positions_from i t).
Proof.
  induction t as [|c t IH]; intros i; simpl.
  - split; [constructor|]. intros a b Hab. simpl in Hab. lia.
  - destruct (IH (i + 1)) as (Hge & Hsort).
    assert (Hge' : Forall (fun p => i <= p) (ChunkText.newline_positions_from (i + 1) t)).
    { eapply List.Forall_impl; [|exact Hge]. simpl. intros; lia. }
    destruct (is_newline c); [|split; assumption].
    split; [constructor; [lia | assumption]|].
    intros a b Hab. simpl in Hab. destruct a as [|a], b as [|b]; simpl; try lia.
    + rewrite List.Forall_forall in Hge'. apply Hge'. apply nth_In. lia.
    + apply Hsort. lia.
Qed.

Lemma newline_positions_sorted t :
  sorted_nth (ChunkText._compute_newline_positions t).
Proof. apply newline_positions_from_spec. Qed.

Lemma filter_le_none (x : Z) (l : list Z) :
  Forall (fun p => x < p) l -> List.filter (fun p => p <=? x) l = [].
Proof.
  induction l as [|p l IH]; intros Hl; [reflexivity|].
  inversion Hl; subst. simpl. destruct (p <=? x) eqn:E; [lia|]. apply IH; assumption.
Qed.

(** The positions below [i + k] are the newlines among the first [k]
    characters. *)
Lemma newline_positions_count t : forall i (k : nat) x,
  x = i + Z.of_nat k - 1 ->
  Z.of_nat (length (List.filter (fun p => p <=? x)
                      (ChunkText.newline_positions_from i t)))
  = count_newlines (firstn k t).
Proof.
  unfold count_newlines.
  induction t as [|c t IH]; intros i k x Hx.
  - destruct k; reflexivity.
  - destruct (newline_positions_from_spec t (i + 1)) as (Hge & _).
    destruct k as [|k].
    + assert (Hnone : List.filter (fun p => p <=? x)
                        (ChunkText.newline_positions_from (i + 1) t) = []).
      { apply filter_le_none. eapply List.Forall_impl; [|exact Hge].
        simpl. intros; lia. }
      cbn [ChunkText.newline_positions_from firstn List.filter length].
      destruct (is_newline c); cbn [List.filter].
      * destruct (i <=? x) eqn:E; [lia|]. rewrite Hnone. reflexivity.
      * rewrite Hnone. reflexivity.
    + specialize (IH (i + 1) k x ltac:(lia)).
      cbn [ChunkText.newline_positions_from firstn List.filter].
      destruct (is_newline c); cbn [List.filter length].
      * destruct (i <=? x) eqn:E; [|lia]. cbn [length]. lia.
      * exact IH.
Qed.

Lemma prefix_firstn {A} (l : list A) (k : Z) :
  0 <= k -> Py.prefix l k = firstn (Z.to_nat k) l.
Proof.
  intros Hk. unfold Py.prefix, Py.slice, Py.adjust_index, Py.len.
  change (0 <? 0) with false. cbv iota.
  destruct (k <? 0) eqn:E; [lia|].
  rewrite (Z.min_l 0) by lia. rewrite Z.sub_0_r.
  change (skipn (Z.to_nat 0) l) with l.
  destruct (Z.le_gt_cases k (Z.of_nat (length l))).
  - rewrite Z.min_l by lia. reflexivity.
  - rewrite Z.min_r by lia. rewrite Nat2Z.id.
    rewrite firstn_all. symmetry. apply firstn_all2. lia.
Qed.

(** [_line_number_at] is one more than the number of newlines before
    [pos]. *)
Lemma line_number_at_count t pos :
  0 <= pos ->
  ChunkText._line_number_at (ChunkText._compute_newline_positions t) pos
  = 1 + count_newlines (Py.prefix t pos).
Proof.
  intros Hpos. unfold ChunkText._line_number_at.
  destruct (pos <? 0) eqn:E; [lia|].
  destruct (bisect_right_spec (ChunkText._compute_newline_positions t) (pos - 1)
              (newline_positions_sorted t)) as (r & -> & Hr).
  apply partition_point_count in Hr.
  rewrite prefix_firstn by assumption.
  rewrite <- (newline_positions_count t 0 (Z.to_nat pos) (pos - 1)) by lia.
  unfold ChunkText._compute_newline_positions in *.
  rewrite Hr. lia.
Qed.

Lemma line_number_at_mono newlines p q :
  sorted_nth newlines -> p <= q ->
  1 <= ChunkText._line_number_at newlines p <= ChunkText._line_number_at newlines q.
Proof.
  intros Hsort Hpq. unfold ChunkText._line_number_at.
  set (p' := if p <? 0 then 0 else p). set (q' := if q <? 0 then 0 else q).
  assert (Hpq' : p' - 1 <= q' - 1).
  { unfold p', q'. destruct (p <? 0) eqn:E1, (q <? 0) eqn:E2; lia. }
  destruct (bisect_right_spec newlines (p' - 1) Hsort) as (r1 & -> & Hr1).
  destruct (bisect_right_spec newlines (q' - 1) Hsort) as (r2 & -> & Hr2).
  pose proof (partition_point_mono _ _ _ _ _ Hpq' Hr1 Hr2). lia.
Qed.


(** ** The records of the character pipeline *)

Lemma while_loop_more_fuel t M V fuel : forall st r k,
  while_loop fuel t M V st = Some r -> while_loop (fuel + k) t M V st = Some r.
Proof.
  induction fuel as [|fuel IH]; intros st r k Hrun; [discriminate|].
  simpl in *. destruct (loop_body t M V st) as [st'|res]; [apply IH|]; assumption.
Qed.

Lemma iter_chunk_spans_more_fuel t M V fuel spans k :
  _iter_chunk_spans fuel t M V = Ok spans ->
  _iter_chunk_spans (fuel + k) t M V = Ok spans.
Proof.
  unfold _iter_chunk_spans.
  destruct (M <=? 0); [discriminate|]. destruct (V <? 0); [discriminate|].
  destruct (V >=? M); [discriminate|].
  destruct (while_loop fuel t M V (LoopState 0 [])) as [r|] eqn:E; [|discriminate].
  intros Hr. inversion Hr; subst. rewrite (while_loop_more_fuel _ _ _ _ _ _ k E).
  reflexivity.
Qed.

Lemma iter_chunk_spans_ok_config t M V fuel spans :
  _iter_chunk_spans fuel t M V = Ok spans -> valid_config M V.
Proof.
  unfold _iter_chunk_spans, valid_config.
  destruct (M <=? 0) eqn:E1; [discriminate|]. destruct (V <? 0) eqn:E2; [discriminate|].
  destruct (V >=? M) eqn:E3; [discriminate|]. lia.
Qed.

Lemma iter_chunk_spans_each t M V fuel spans :
  _iter_chunk_spans fuel t M V = Ok spans -> Forall (span_ok (Py.len t)) spans.
Proof.
  intros Hrun. pose proof (iter_chunk_spans_ok_config _ _ _ _ _ Hrun) as Hcfg.
  unfold _iter_chunk_spans in Hrun.
  destruct (M <=? 0); [discriminate|]. destruct (V <? 0); [discriminate|].
  destruct (V >=? M); [discriminate|].
  destruct (while_loop fuel t M V (LoopState 0 [])) as [r|] eqn:E; [|discriminate].
  inversion Hrun; subst.
  apply (while_loop_trace t M V Hcfg) in E as (tail & -> & Htr); [|lia].
  apply (trace_each t M V Hcfg 0); [lia | exact Htr].
Qed.

Section EmitterResults.
Context `{Hashlib} `{Codecs}.
Variable dumps_index : Fs.path -> Fs.path -> Z -> Z -> list ChunkText.Chunk -> text.

Lemma chunk_writes_keys out t w items :
  List.map fst (chunk_writes out t w items)
  = List.map (fun it => Fs.child out (chunk_file w (fst it))) items.
Proof. unfold chunk_writes. rewrite List.map_map. reflexivity. Qed.

(** The line range of every chunk of a successful run. *)
Lemma chunk_text_lines fuel src out M V enc force fs chunks fs' :
  ChunkText.chunk_text dumps_index fuel src out M V enc force fs = (Ok chunks, fs') ->
  exists raw t,
    Fs.stat fs src = Some (Fs.File raw) /\ decode enc raw = Some t /\
    Forall (fun c =>
      let newlines := ChunkText._compute_newline_positions t in
      let last_pos := Z.max (ChunkText.start_char c) (ChunkText.end_char c - 1) in
      1 <= ChunkText.start_line c <= ChunkText.end_line c /\
      ChunkText.start_line c
        = 1 + count_newlines (Py.prefix t (ChunkText.start_char c)) /\
      ChunkText.end_line c = ChunkText._line_number_at newlines last_pos /\
      ChunkText.start_char c <= last_pos) chunks.
Proof.
  intros Hrun. apply chunk_text_ok in Hrun
    as (raw & t & fs1 & spans & Hsrc & Hdec & Hmk & Hsp & Hchunks & Hfs).
  exists raw, t. split; [exact Hsrc|]. split; [exact Hdec|].
  cbv zeta in Hchunks. rewrite Hchunks.
  pose proof (iter_chunk_spans_each _ _ _ _ _ Hsp) as Hok.
  apply List.Forall_forall. intros c Hc. apply in_map_iff in Hc as ([i [s e]] & <- & Hin).
  assert (Hsp_in : In (s, e) spans).
  { rewrite <- (enumerate_from_snd spans 1). apply in_map_iff. exists (i, (s, e)). auto. }
  rewrite List.Forall_forall in Hok. destruct (Hok _ Hsp_in) as (Hs & Hse & He).
  simpl in Hs, Hse, He. cbn.
  pose proof (line_number_at_mono (ChunkText._compute_newline_positions t)
                s (Z.max s (e - 1)) (newline_positions_sorted t) ltac:(lia)).
  repeat split; try lia.
  apply line_number_at_count. exact Hs.
Qed.

(** The identifiers and spans of the 1000-character example. *)
Lemma chunk_text_thousand fuel src out enc force fs chunks fs' raw t :
  Fs.stat fs src = Some (Fs.File raw) -> decode enc raw = Some t ->
  length t = 1000%nat -> ~ In newline t ->
  ChunkText.chunk_text dumps_index fuel src out 400 50 enc force fs = (Ok chunks, fs') ->
  List.map (fun c => (ChunkText.chunk_id c, ChunkText.start_char c, ChunkText.end_char c))
           chunks
  = [("chunk_0001"%string, 0, 400); ("chunk_0002"%string, 350, 750);
     ("chunk_0003"%string, 700, 1000)].
Proof.
  intros Hsrc Hdec Hlen Hno Hrun. apply chunk_text_ok in Hrun
    as (raw' & t' & fs1 & spans & Hsrc' & Hdec' & Hmk & Hsp & Hchunks & Hfs).
  rewrite Hsrc in Hsrc'. inversion Hsrc'; subst raw'.
  rewrite Hdec in Hdec'. inversion Hdec'; subst t'.
  apply (iter_chunk_spans_more_fuel _ _ _ _ _ 3) in Hsp.
  rewrite (thousand_chars_three_spans t (fuel + 3) Hlen Hno ltac:(lia)) in Hsp.
  inversion Hsp; subst spans. cbv zeta in Hchunks. rewrite Hchunks. reflexivity.
Qed.

End EmitterResults.


(** ** Invalid configurations *)

Lemma only_dirs_added_refl fs : only_dirs_added fs fs.
Proof. intros p. left. reflexivity. Qed.

Lemma mkdir_from_only_dirs rest : forall base fs r fs',
  Fs.mkdir_from base rest fs = (r, fs') -> only_dirs_added fs fs'.
Proof.
  induction rest as [|c rest IH]; intros base fs r fs' Hrun; simpl in Hrun.
  - inversion Hrun; subst. apply only_dirs_added_refl.
  - destruct (fs !! Fs.child base c) as [[data|]|] eqn:E.
    + inversion Hrun; subst. apply only_dirs_added_refl.
    + eapply IH; eassumption.
    + apply IH in Hrun. intros p. destruct (Hrun p) as [Heq | (Hnone & Hdir)].
      * destruct (decide (Fs.child base c = p)) as [<- | Hne].
        -- right. rewrite lookup_insert_eq in Heq. auto.
        -- left. rewrite lookup_insert_ne in Heq by assumption. exact Heq.
      * right. split; [|exact Hdir].
        destruct (decide (Fs.child base c = p)) as [<- | Hne]; [exact E|].
        rewrite lookup_insert_ne in Hnone by assumption. exact Hnone.
Qed.

Lemma mkdir_from_no_spin rest : forall base fs fs',
  Fs.mkdir_from base rest fs <> (Spin, fs').
Proof.
  induction rest as [|c rest IH]; intros base fs fs'; simpl; [discriminate|].
  destruct (fs !! Fs.child base c) as [[data|]|]; [discriminate | apply IH | apply IH].
Qed.

Lemma iter_chunk_spans_invalid fuel t M V :
  M <= 0 \/ V >= M -> exists msg, _iter_chunk_spans fuel t M V = Raise (ValueError msg).
Proof.
  intros Hbad. unfold _iter_chunk_spans.
  destruct (M <=? 0) eqn:E1; [eauto|]. destruct (V <? 0) eqn:E2; [eauto|].
  destruct (V >=? M) eqn:E3; [eauto | lia].
Qed.

Section EmitterConfig.
Context `{Hashlib} `{Codecs}.
Variable dumps_index : Fs.path -> Fs.path -> Z -> Z -> list ChunkText.Chunk -> text.

Lemma would_overwrite_total out fs :
  exists clash, ChunkText._would_overwrite_existing_chunks out fs = (Ok clash, fs).
Proof.
  unfold ChunkText._would_overwrite_existing_chunks. io_unfold.
  unfold Fs.exists_, Fs.is_dir, Fs.iterdir.
  destruct (Fs.stat fs out) as [[|]|] eqn:E;
    repeat (progress (simpl; rewrite ?E)); eexists; reflexivity.
Qed.

(** C5 (amended). For every configuration with [max_chars <= 0] or
    [overlap_chars >= max_chars], [chunk_text] raises; no chunk file and no
    index is written: the file system it leaves differs from the one it
    found at most by directories that were added (the output directory and
    its missing parents, which are made before the configuration is
    looked at); and when the source can be read and decoded, the output
    directory can be made and either [force] is set or no earlier chunk
    file is found there, the exception is the [ValueError] of the
    configuration check and the state is the one left by the [mkdir]. *)
Theorem chunk_text_invalid_config fuel src out M V enc force fs :
  M <= 0 \/ V >= M ->
  let run := ChunkText.chunk_text dumps_index fuel src out M V enc force fs in
  (exists e, fst run = Raise e) /\
  only_dirs_added fs (snd run) /\
  (forall raw t fs1,
     Fs.stat fs src = Some (Fs.File raw) -> decode enc raw = Some t ->
     ChunkText._safe_mkdir out fs = (Ok tt, fs1) ->
     force = true \/
       fst (ChunkText._would_overwrite_existing_chunks out fs1) = Ok false ->
     (exists msg, fst run = Raise (ValueError msg)) /\ snd run = fs1).
Proof.
  intros Hbad run. subst run. unfold ChunkText.chunk_text. io_unfold.
  unfold Fs.read_bytes.
  destruct (Fs.stat fs src) as [[raw|]|] eqn:Hsrc;
    try (simpl; split; [eauto|]; split; [apply only_dirs_added_refl|];
         intros; discriminate).
  destruct (decode enc raw) as [t|] eqn:Hdec;
    try (simpl; split; [eauto|]; split; [apply only_dirs_added_refl|];
         intros raw' t' fs1' Hr Hd; inversion Hr; subst; congruence).
  unfold ChunkText._safe_mkdir, Fs.mkdir_parents.
  destruct (Fs.mkdir_from [] out fs) as [r fs1] eqn:Hmk.
  pose proof (mkdir_from_only_dirs _ _ _ _ _ Hmk) as Hdirs.
  destruct r as [[]|e|];
    try (simpl; split; [eauto|]; split; [exact Hdirs|]; intros; discriminate);
    try (exfalso; exact (mkdir_from_no_spin _ _ _ _ Hmk)).
  destruct (would_overwrite_total out fs1) as (clash & Hwo). rewrite Hwo.
  destruct (iter_chunk_spans_invalid fuel t M V Hbad) as (msg & Hsp). rewrite Hsp.
  destruct (clash && negb force) eqn:Hc; simpl.
  - split; [eauto|]. split; [exact Hdirs|].
    intros raw' t' fs1' _ _ Heq [Hf | Hfalse]; inversion Heq; subst.
    + rewrite andb_false_r in Hc. discriminate.
    + rewrite Hwo in Hfalse. simpl in Hfalse. inversion Hfalse; subst. discriminate.
  - split; [eauto|]. split; [exact Hdirs|].
    intros raw' t' fs1' _ _ Heq _. inversion Heq; subst. eauto.
Qed.

End EmitterConfig.

Lemma chunk_text_invalid_config_witness :
  exists e, fst (@ChunkText.chunk_text length_hashlib byte_codecs no_index 5
                   ["in.txt"%string] ["out"%string] 0 0 "utf-8" false source_only)
            = Raise e.
Proof.
  apply (@chunk_text_invalid_config length_hashlib byte_codecs no_index 5
           ["in.txt"%string] ["out"%string] 0 0 "utf-8" false source_only).
  left. lia.
Defined.

(** C5, as stated, fails: with [max_chars = 0] and an output directory that
    does not exist, [chunk_text] raises the [ValueError] only after it has
    created the output directory. *)
Lemma chunk_text_validates_after_mkdir :
  let run := @ChunkText.chunk_text length_hashlib byte_codecs no_index 5
               ["in.txt"%string] ["out"%string] 0 0 "utf-8" false source_only in
  fst run = Raise (ValueError "--max-chars must be > 0") /\
  source_only !! ["out"%string] = None /\
  snd run !! ["out"%string] = Some Fs.Dir.
Proof. vm_compute. repeat split. Qed.


(** ** The node selector *)

Lemma select_children_filter interesting wrappers children : forall nodes,
  select_children interesting wrappers children nodes
  = nodes ++ List.filter (selected interesting wrappers) children.
Proof.
  induction children as [|c cs IH]; intros nodes; simpl.
  - rewrite app_nil_r. reflexivity.
  - unfold selected at 1.
    destruct (bool_decide (type c ∈ interesting)); simpl.
    + rewrite IH, <- app_assoc. reflexivity.
    + destruct (bool_decide (type c ∈ wrappers) && _has_interesting_descendant c interesting).
      * rewrite IH, <- app_assoc. reflexivity.
      * apply IH.
Qed.

Section Selector.
Context `{Hashlib} `{Codecs}.

(** C7. [_top_level_chunks] returns, in source order, exactly the top-level
    named children whose type is in the interesting set of the language, or
    is in its wrapper set while [_has_interesting_descendant] finds an
    interesting descendant; the other children are skipped. A selected
    wrapper is returned itself, so the record built from it carries the
    byte span (and the type) of the wrapper node. *)
Theorem top_level_chunks_selects (root : Node) (lang : string) :
  let interesting := default ∅ (INTERESTING_NODE_TYPES !! lang) in
  let wrappers := default ∅ (WRAPPER_NODE_TYPES !! lang) in
  _top_level_chunks root lang
    = List.filter (selected interesting wrappers) (named_children root) /\
  (forall child,
     In child (_top_level_chunks root lang) <->
     In child (named_children root) /\
     (type child ∈ interesting \/
      (type child ∈ wrappers /\
       _has_interesting_descendant child interesting = true))) /\
  (forall data rel_path chunk_dir out_dir width i node,
     let c := chunk_record data rel_path chunk_dir out_dir lang width i node in
     start_byte_ c = start_byte node /\ end_byte_ c = end_byte node /\
     node_type c = type node).
Proof.
  intros interesting wrappers.
  assert (Heq : _top_level_chunks root lang
                = List.filter (selected interesting wrappers) (named_children root)).
  { unfold _top_level_chunks. fold interesting wrappers.
    rewrite select_children_filter. reflexivity. }
  split; [exact Heq|]. split.
  - intros child. rewrite Heq, filter_In. unfold selected.
    rewrite orb_true_iff, andb_true_iff, !bool_decide_eq_true. reflexivity.
  - intros. repeat split; reflexivity.
Qed.

End Selector.

(** C8 (the code breaks the claim). [_has_interesting_descendant] is not
    limited to two levels, nor to eight children at the first level: an
    export statement whose only declaration lies three levels below it is
    found (and selected by [_top_level_chunks]), the same tree with another
    node type at that depth is not, and a declaration that is the ninth
    child of the wrapper is found too. *)
Theorem descendant_search_is_not_bounded :
  _has_interesting_descendant (export_depth_three "function_declaration")
                              js_interesting = true /\
  _has_interesting_descendant (export_depth_three "comment") js_interesting = false /\
  _has_interesting_descendant (export_ninth_child "function_declaration")
                              js_interesting = true /\
  _top_level_chunks (inner "program" [export_depth_three "function_declaration"])
                    "javascript"
    = [export_depth_three "function_declaration"].
Proof. vm_compute. repeat split. Qed.


(** What the search loop finds: some node of the stack reaches, at any
    depth, a node of an interesting type. *)
Lemma search_stack_spec (interesting : gset string) (stack : list Node) :
  search_stack interesting stack = true <->
  exists n d, In n stack /\ reaches8 n d /\ type d ∈ interesting.
Proof.
  funelim (search_stack interesting stack).
  - split; [discriminate|]. intros (n & d & [] & _).
  - destruct (bool_decide (type n ∈ interesting)) eqn:E.
    + split; [|reflexivity]. intros _. apply bool_decide_eq_true in E.
      exists n, n. split; [left; reflexivity|]. split; [constructor | exact E].
    + apply bool_decide_eq_false in E. rewrite H. split.
      * intros (m & d & Hin & Hreach & Hd). apply in_app_or in Hin as [Hin | Hin].
        -- apply in_rev in Hin. exists n, d. split; [left; reflexivity|].
           split; [eapply reaches8_child; eassumption | exact Hd].
        -- exists m, d. split; [right; exact Hin|]. split; assumption.
      * intros (m & d & [<- | Hin] & Hreach & Hd).
        -- inversion Hreach as [| ? c ? Hc Hcd]; subst; [contradiction|].
           exists c, d. split; [|split; assumption].
           apply in_or_app. left. apply in_rev. rewrite rev_involutive. exact Hc.
        -- exists m, d. split; [apply in_or_app; right; exact Hin|]. split; assumption.
Qed.

(** X21. [_has_interesting_descendant] returns [True] exactly when an
    interesting type is found at a named child of the node or at a node
    reached from one by going, any number of times, to one of the first
    eight named children. *)
Theorem has_interesting_descendant_spec (node : Node) (interesting : gset string) :
  _has_interesting_descendant node interesting = true <->
  exists c d, In c (named_children node) /\ reaches8 c d /\ type d ∈ interesting.
Proof.
  unfold _has_interesting_descendant. rewrite search_stack_spec. split.
  - intros (c & d & Hin & Hr). apply in_rev in Hin. eauto.
  - intros (c & d & Hin & Hr). exists c, d. split; [|exact Hr].
    apply in_rev. rewrite rev_involutive. exact Hin.
Qed.


(** ** Runs of the syntax-aware pipeline *)

Lemma relative_to_app (root rest : Fs.path) :
  relative_to (root ++ rest) root = Some rest.
Proof.
  induction root as [|r root IH]; simpl; [destruct rest; reflexivity|].
  rewrite String.eqb_refl. exact IH.
Qed.

Section SplitterRun.
Context `{Hashlib} `{Codecs}.
Variable get_parser : option (string -> option (list Byte.byte -> Node)).
Variable _iter_files : Fs.filesystem -> Fs.path -> list Fs.path.
Variable dumps_file_index : string -> string -> list Chunk -> text.
Variable dumps_index : Fs.path -> Fs.path -> option string -> list Chunk -> text.

Lemma emit_nodes_ok data rel cd out lang w items : forall acc fs chunks fs',
  emit_nodes data rel cd out lang w items acc fs = (Ok chunks, fs') ->
  chunks = acc ++ List.map (fun it => chunk_record data rel cd out lang w (fst it) (snd it))
                           items /\
  fs' = write_all (node_writes cd data w items) fs.
Proof.
  induction items as [|[i node] items IH]; intros acc fs chunks fs' Hrun; simpl in Hrun.
  - io_unfold. inversion Hrun; subst. rewrite app_nil_r. split; reflexivity.
  - io_unfold.
    destruct (write_bytes_cases (Fs.child cd (Fmt.chunk_name w i ++ ".txt"))
                (Py.slice data (start_byte node) (end_byte node)) fs) as [Hw | (e & Hw)];
      rewrite Hw in Hrun; [|discriminate].
    apply IH in Hrun as (-> & ->). split.
    + rewrite <- app_assoc. reflexivity.
    + reflexivity.
Qed.

Lemma node_writes_keys cd data w items :
  List.map fst (node_writes cd data w items)
  = List.map (fun it => Fs.child cd (chunk_file w (fst it))) items.
Proof. unfold node_writes. rewrite List.map_map. reflexivity. Qed.

(** What a successful emission of one file returns and leaves on disk. *)
Lemma emit_file_ok data nodes rel out lang force fs chunks fs' :
  emit_file dumps_file_index data nodes rel out lang force fs = (Ok chunks, fs') ->
  let cd := chunk_dir_of out rel in
  let w := Fmt.id_width (Py.len nodes) in
  let items := ChunkText.enumerate_from 1 nodes in
  chunks = List.map (fun it => chunk_record data rel cd out lang w (fst it) (snd it)) items /\
  forall i node, In (i, node) items ->
    Fs.stat fs' (Fs.child cd (chunk_file w i)) = Some (Fs.File (node_bytes data node)).
Proof.
  unfold emit_file. fold (chunk_dir_of out rel). io_unfold.
  destruct (Fs.mkdir_parents (chunk_dir_of out rel) fs) as [[[]|e|] fs1]; try discriminate.
  destruct (check_or_clear (chunk_dir_of out rel) force fs1) as [[[]|e|] fs2];
    try discriminate.
  destruct (emit_nodes data rel (chunk_dir_of out rel) out lang _ _ [] fs2)
    as [[cs|e|] fs3] eqn:Hem; try discriminate.
  apply emit_nodes_ok in Hem as (Hcs & Hfs3). simpl in Hcs. subst cs fs3.
  match goal with |- context [Fs.write_bytes ?p ?d ?f] =>
    destruct (write_bytes_cases p d f) as [Hw | (e & Hw)]; rewrite Hw end;
    [|discriminate].
  intros Hrun. inversion Hrun; subst. cbv zeta. split; [reflexivity|].
  intros i node Hin. rewrite stat_child.
  rewrite lookup_insert_ne
    by (intros Heq; apply child_inj in Heq; symmetry in Heq;
        exact (chunk_file_not_index _ _ Heq)).
  apply write_all_in.
  - rewrite node_writes_keys. apply chunk_paths_NoDup.
    + apply enumerate_from_NoDup.
    + intros j x Hj. apply enumerate_from_ge in Hj. lia.
  - unfold node_writes. apply in_map_iff. exists (i, node). split; [reflexivity | exact Hin].
Qed.

Lemma emit_file_hashes data nodes rel out lang force fs chunks fs' :
  emit_file dumps_file_index data nodes rel out lang force fs = (Ok chunks, fs') ->
  Forall (fun c => exists comps bytes,
            path c = as_posix comps /\
            Fs.stat fs' (out ++ comps) = Some (Fs.File bytes) /\
            sha256 c = sha256_hexdigest bytes) chunks.
Proof.
  intros Hrun. apply emit_file_ok in Hrun as (-> & Hfiles).
  apply List.Forall_forall. intros c Hc. apply in_map_iff in Hc as ([i node] & <- & Hin).
  exists (Fs.child (Fs.parent rel ++ [(Fs.name rel ++ ".chunks")%string]) (chunk_file (Fmt.id_width (Py.len nodes)) i)),
         (node_bytes data node).
  simpl fst; simpl snd. split; [|split].
  - unfold chunk_record, chunk_dir_of. simpl path. rewrite relative_to_app. reflexivity.
  - rewrite <- (Hfiles i node Hin). unfold chunk_dir_of, Fs.child.
    rewrite <- !app_assoc. reflexivity.
  - reflexivity.
Qed.

Lemma top_level_chunks_children root lang node :
  In node (_top_level_chunks root lang) -> In node (named_children root).
Proof.
  intros Hin. unfold _top_level_chunks in Hin.
  rewrite select_children_filter in Hin. simpl in Hin.
  apply filter_In in Hin. tauto.
Qed.

Lemma split_file_built parser_of root out over force src all fs chunks fs' :
  Forall (built_from parser_of) all ->
  split_file dumps_file_index parser_of root out over force src all fs = (Ok chunks, fs') ->
  Forall (built_from parser_of) chunks.
Proof.
  intros Hall. unfold split_file.
  destruct (_detect_language src over) as [lang|]; io_unfold;
    [|intros Hr; inversion Hr; subst; exact Hall].
  destruct (String.eqb lang ""); [intros Hr; inversion Hr; subst; exact Hall|].
  destruct (parser_of lang) as [parse|] eqn:Hp;
    [|intros Hr; inversion Hr; subst; exact Hall].
  unfold Fs.read_bytes.
  destruct (Fs.stat fs src) as [[data|]|]; try discriminate.
  destruct (_top_level_chunks (parse data) lang) as [|n ns] eqn:Hnodes;
    [intros Hr; inversion Hr; subst; exact Hall|].
  destruct (relative_to src root) as [rel|]; [|discriminate].
  destruct (emit_file dumps_file_index data (n :: ns) rel out lang force fs)
    as [[cs|e|] fs1] eqn:Hem; try discriminate.
  intros Hr. inversion Hr; subst.
  apply Forall_app. split; [exact Hall|].
  apply emit_file_ok in Hem as (-> & _).
  apply List.Forall_forall. intros c Hc. apply in_map_iff in Hc as ([i node] & <- & Hin).
  assert (Hnode : In node (n :: ns)).
  { rewrite <- (enumerate_from_snd (n :: ns) 1). apply in_map_iff.
    exists (i, node). auto. }
  rewrite <- Hnodes in Hnode.
  exists parse, lang, data, node. simpl fst; simpl snd.
  repeat split; try assumption; try reflexivity.
  eapply top_level_chunks_children; eassumption.
Qed.

Lemma split_files_built parser_of root out over force files : forall all fs chunks fs',
  Forall (built_from parser_of) all ->
  split_files dumps_file_index parser_of root out over force files all fs = (Ok chunks, fs') ->
  Forall (built_from parser_of) chunks.
Proof.
  induction files as [|src files IH]; intros all fs chunks fs' Hall Hrun; simpl in Hrun.
  - io_unfold. inversion Hrun; subst. exact Hall.
  - io_unfold.
    destruct (split_file dumps_file_index parser_of root out over force src all fs)
      as [[all'|e|] fs1] eqn:Hf; try discriminate.
    eapply IH; [|exact Hrun]. eapply split_file_built; eassumption.
Qed.

Lemma split_code_built src out over force fs chunks fs' :
  split_code get_parser _iter_files dumps_file_index dumps_index src out over force fs
    = (Ok chunks, fs') ->
  exists parser_of, get_parser = Some parser_of /\
                    Forall (built_from parser_of) chunks.
Proof.
  unfold split_code. destruct get_parser as [parser_of|]; [|discriminate].
  io_unfold. intros Hrun. exists parser_of. split; [reflexivity|].
  destruct (Fs.mkdir_parents out fs) as [[[]|e|] fs1]; try discriminate.
  match type of Hrun with context [split_files ?a ?b ?c ?d ?e ?f ?g ?h ?i] =>
    destruct (split_files a b c d e f g h i) as [[cs|e'|] fs2] eqn:Hs end;
    try discriminate.
  apply split_files_built in Hs; [|constructor].
  match type of Hrun with context [Fs.write_bytes ?p ?d ?f] =>
    destruct (write_bytes_cases p d f) as [Hw | (e' & Hw)]; rewrite Hw in Hrun end;
    [|discriminate].
  inversion Hrun; subst. exact Hs.
Qed.

End SplitterRun.


(** ** The overwrite policy *)

Lemma keeps_paths_refl fs : keeps_paths fs fs.
Proof. intros p Hp. exact Hp. Qed.

Lemma keeps_paths_trans fs1 fs2 fs3 :
  keeps_paths fs1 fs2 -> keeps_paths fs2 fs3 -> keeps_paths fs1 fs3.
Proof. intros H12 H23 p Hp. apply H23, H12, Hp. Qed.

Lemma keeps_paths_insert fs p e : keeps_paths fs (<[p := e]> fs).
Proof.
  intros q Hq. destruct (decide (p = q)) as [<- | Hne].
  - rewrite lookup_insert_eq. eauto.
  - rewrite lookup_insert_ne by assumption. exact Hq.
Qed.

Lemma only_dirs_added_keeps fs fs' : only_dirs_added fs fs' -> keeps_paths fs fs'.
Proof.
  intros Hd p Hp. destruct (Hd p) as [-> | (Hnone & _)]; [exact Hp|].
  rewrite Hnone in Hp. destruct Hp; discriminate.
Qed.

Lemma write_bytes_keeps p d fs : keeps_paths fs (snd (Fs.write_bytes p d fs)).
Proof.
  destruct (write_bytes_cases p d fs) as [-> | (e & ->)]; simpl.
  - apply keeps_paths_insert.
  - apply keeps_paths_refl.
Qed.

Section EmitterKeeps.
Context `{Hashlib} `{Codecs}.
Variable dumps_index : Fs.path -> Fs.path -> Z -> Z -> list ChunkText.Chunk -> text.

Lemma emit_chunks_keeps out t nl w items : forall acc fs,
  keeps_paths fs (snd (ChunkText.emit_chunks out t nl w items acc fs)).
Proof.
  induction items as [|[i sp] items IH]; intros acc fs; simpl.
  - apply keeps_paths_refl.
  - io_unfold. unfold ChunkText.write_text.
    match goal with |- context [Fs.write_bytes ?p ?d ?f] =>
      destruct (write_bytes_cases p d f) as [Hw | (e & Hw)]; rewrite Hw end.
    + eapply keeps_paths_trans; [apply keeps_paths_insert | apply IH].
    + apply keeps_paths_refl.
Qed.

(** X10. [chunk_text] never removes anything: whatever the arguments and
    however the run ends, every path that was there is still there. *)
Theorem chunk_text_keeps_paths fuel src out M V enc force fs :
  keeps_paths fs
    (snd (ChunkText.chunk_text dumps_index fuel src out M V enc force fs)).
Proof.
  unfold ChunkText.chunk_text. io_unfold. unfold Fs.read_bytes.
  destruct (Fs.stat fs src) as [[raw|]|]; try apply keeps_paths_refl.
  destruct (decode enc raw) as [t|]; try apply keeps_paths_refl.
  unfold ChunkText._safe_mkdir, Fs.mkdir_parents.
  destruct (Fs.mkdir_from [] out fs) as [r fs1] eqn:Hmk.
  pose proof (only_dirs_added_keeps _ _ (mkdir_from_only_dirs _ _ _ _ _ Hmk)) as Hk.
  destruct r as [[]|e|]; try exact Hk.
  destruct (would_overwrite_total out fs1) as (clash & ->).
  destruct (clash && negb force); [exact Hk|].
  destruct (_iter_chunk_spans fuel t M V) as [spans|e|]; try exact Hk.
  match goal with |- context [ChunkText.emit_chunks ?a ?b ?c ?d ?e ?f ?g] =>
    pose proof (emit_chunks_keeps a b c d e f g) as Hem;
    destruct (ChunkText.emit_chunks a b c d e f g) as [[cs|e'|] fs2] end;
    simpl in Hem; try (eapply keeps_paths_trans; eassumption).
  unfold ChunkText.write_text.
  match goal with |- context [Fs.write_bytes ?p ?d ?f] =>
    pose proof (write_bytes_keeps p d f) as Hw;
    destruct (Fs.write_bytes p d f) as [[[]|e'|] fs3] end; simpl in *;
    eapply keeps_paths_trans; [exact Hk | eapply keeps_paths_trans; eassumption
                              | exact Hk | eapply keeps_paths_trans; eassumption
                              | exact Hk | eapply keeps_paths_trans; eassumption].
Qed.

(** Without [force], earlier chunk files make [chunk_text] refuse before it
    writes anything. *)
Theorem chunk_text_refuses_overwrite fuel src out M V enc fs raw t fs1 :
  Fs.stat fs src = Some (Fs.File raw) -> decode enc raw = Some t ->
  ChunkText._safe_mkdir out fs = (Ok tt, fs1) ->
  fst (ChunkText._would_overwrite_existing_chunks out fs1) = Ok true ->
  ChunkText.chunk_text dumps_index fuel src out M V enc false fs
  = (Raise (RuntimeError "Refusing to overwrite existing chunk_*.txt files"), fs1).
Proof.
  intros Hsrc Hdec Hmk Hclash. unfold ChunkText.chunk_text. io_unfold.
  unfold Fs.read_bytes. rewrite Hsrc, Hdec, Hmk.
  destruct (would_overwrite_total out fs1) as (clash & Hwo). rewrite Hwo in *.
  simpl in Hclash. inversion Hclash; subst. reflexivity.
Qed.

End EmitterKeeps.

(** Without [force], earlier chunk files in the chunk directory make
    [split_code] refuse before it writes anything there. *)
Theorem check_or_clear_refuses chunk_dir fs :
  Fs.stat fs chunk_dir = Some Fs.Dir ->
  existsb Fs.is_chunk_file (Fs.listdir fs chunk_dir) = true ->
  check_or_clear chunk_dir false fs
  = (Raise (RuntimeError "Refusing to overwrite existing chunk_*.txt files"), fs).
Proof.
  intros Hdir Hany. unfold check_or_clear. io_unfold. unfold Fs.iterdir.
  rewrite Hdir, Hany. reflexivity.
Qed.

Lemma listdir_In fs dir p e :
  fs !! p = Some e -> p <> [] -> Fs.parent p = dir -> In p (Fs.listdir fs dir).
Proof.
  intros Hp Hne Hpar. unfold Fs.listdir. apply filter_In. split.
  - apply in_map_iff. exists (p, e). split; [reflexivity|].
    apply list_elem_of_In, elem_of_map_to_list. exact Hp.
  - apply bool_decide_eq_true. split; assumption.
Qed.

Lemma unlink_chunks_ok ps : forall fs fs',
  unlink_chunks ps fs = (Ok tt, fs') ->
  (forall p, In p ps -> clears p = true -> fs' !! p = None) /\
  (forall p, fs' !! p = None \/ fs' !! p = fs !! p).
Proof.
  induction ps as [|q ps IH]; intros fs fs' Hrun; simpl in Hrun.
  - io_unfold. inversion Hrun; subst. split; [contradiction | auto].
  - fold (clears q) in Hrun. destruct (clears q) eqn:Hq.
    + io_unfold. unfold Fs.unlink in Hrun.
      destruct (Fs.stat fs q) as [[data|]|]; try discriminate.
      apply IH in Hrun as (Hgone & Hframe). split.
      * intros p [-> | Hin] Hc; [|apply Hgone; assumption].
        destruct (Hframe p) as [Hn | Heq]; [exact Hn|].
        rewrite Heq. apply lookup_delete_eq.
      * intros p. destruct (Hframe p) as [Hn | Heq]; [left; exact Hn|].
        destruct (decide (q = p)) as [<- | Hne].
        -- left. rewrite Heq. apply lookup_delete_eq.
        -- right. rewrite Heq. apply lookup_delete_ne. exact Hne.
    + apply IH in Hrun as (Hgone & Hframe). split; [|exact Hframe].
      intros p [-> | Hin] Hc; [congruence | apply Hgone; assumption].
Qed.

(** After a successful [_clear_existing_chunks] of a directory, it holds no
    chunk file and no index. *)
Theorem clear_existing_chunks_removes chunk_dir fs fs' (p : Fs.path) :
  Fs.stat fs chunk_dir = Some Fs.Dir ->
  _clear_existing_chunks chunk_dir fs = (Ok tt, fs') ->
  p <> [] -> Fs.parent p = chunk_dir -> clears p = true ->
  fs' !! p = None.
Proof.
  unfold _clear_existing_chunks. io_unfold. unfold Fs.exists_, Fs.is_dir, Fs.iterdir.
  intros Hst Hrun Hne Hpar Hc.
  repeat (progress (simpl in Hrun; rewrite ?Hst in Hrun)).
  apply unlink_chunks_ok in Hrun as (Hgone & Hframe).
  destruct (fs !! p) as [e|] eqn:Hp.
  - apply Hgone; [|exact Hc]. eapply listdir_In; eassumption.
  - destruct (Hframe p) as [Hn | Heq]; [exact Hn|].
    etransitivity; [exact Heq | exact Hp].
Qed.

Lemma mkdir_from_is_dir rest : forall base fs fs',
  Fs.stat fs base = Some Fs.Dir ->
  Fs.mkdir_from base rest fs = (Ok tt, fs') ->
  Fs.stat fs' (base ++ rest) = Some Fs.Dir.
Proof.
  induction rest as [|c rest IH]; intros base fs fs' Hbase Hrun; simpl in Hrun.
  - inversion Hrun; subst. rewrite app_nil_r. exact Hbase.
  - replace (base ++ c :: rest) with (Fs.child base c ++ rest)
      by (unfold Fs.child; rewrite <- app_assoc; reflexivity).
    destruct (fs !! Fs.child base c) as [[data|]|] eqn:E.
    + discriminate.
    + eapply IH; [|exact Hrun]. rewrite stat_child. exact E.
    + eapply IH; [|exact Hrun]. rewrite stat_child. apply lookup_insert_eq.
Qed.

Lemma mkdir_parents_is_dir p fs fs' :
  Fs.mkdir_parents p fs = (Ok tt, fs') -> Fs.stat fs' p = Some Fs.Dir.
Proof. intros Hrun. apply (mkdir_from_is_dir p [] fs fs'); [reflexivity | exact Hrun]. Qed.

Section SplitterForce.
Context `{Hashlib} `{Codecs}.
Variable dumps_file_index : string -> string -> list Chunk -> text.

(** X24. With [force], after a successful emission of the chunks of one
    file, every chunk file in its chunk directory is one the emission
    wrote, holding the bytes of its node: the earlier ones were removed
    first. *)
Theorem emit_file_force_replaces data nodes rel out lang fs chunks fs'
    (p : Fs.path) :
  emit_file dumps_file_index data nodes rel out lang true fs = (Ok chunks, fs') ->
  p <> [] -> Fs.parent p = chunk_dir_of out rel -> Fs.is_chunk_file p = true ->
  is_Some (fs' !! p) ->
  exists i node,
    In (i, node) (ChunkText.enumerate_from 1 nodes) /\
    p = Fs.child (chunk_dir_of out rel) (chunk_file (Fmt.id_width (Py.len nodes)) i) /\
    fs' !! p = Some (Fs.File (node_bytes data node)).
Proof.
  unfold emit_file. fold (chunk_dir_of out rel). io_unfold.
  destruct (Fs.mkdir_parents (chunk_dir_of out rel) fs) as [[[]|e|] fs1] eqn:Hmk;
    try discriminate.
  apply mkdir_parents_is_dir in Hmk.
  unfold check_or_clear.
  destruct (_clear_existing_chunks (chunk_dir_of out rel) fs1) as [[[]|e|] fs2] eqn:Hcl;
    try discriminate.
  destruct (emit_nodes data rel (chunk_dir_of out rel) out lang _ _ [] fs2)
    as [[cs|e|] fs3] eqn:Hem; try discriminate.
  apply emit_nodes_ok in Hem as (Hcs & Hfs3). simpl in Hcs. subst cs fs3.
  match goal with |- context [Fs.write_bytes ?q ?d ?f] =>
    destruct (write_bytes_cases q d f) as [Hw | (e & Hw)]; rewrite Hw end;
    [|discriminate].
  intros Hrun Hne Hpar Hchunk Hsome. inversion Hrun; subst chunks fs'. clear Hrun.
  assert (Hnot_index : Fs.child (chunk_dir_of out rel) "index.json" <> p).
  { intros <-. unfold Fs.is_chunk_file in Hchunk. rewrite name_child in Hchunk.
    discriminate. }
  rewrite lookup_insert_ne in Hsome by exact Hnot_index.
  rewrite lookup_insert_ne by exact Hnot_index.
  set (w := Fmt.id_width (Py.len nodes)) in *.
  set (items := ChunkText.enumerate_from 1 nodes) in *.
  destruct (List.in_dec (List.list_eq_dec String.string_dec) p
              (List.map fst (node_writes (chunk_dir_of out rel) data w items)))
    as [Hin | Hnotin].
  - apply in_map_iff in Hin as ([k v] & Hk & Hin). simpl in Hk. subst k.
    pose proof Hin as Hin'. unfold node_writes in Hin'.
    apply in_map_iff in Hin' as ([i node] & Heq & Hitem). inversion Heq; subst.
    exists i, node. simpl fst. split; [exact Hitem|]. split; [reflexivity|].
    apply write_all_in; [|exact Hin].
    rewrite node_writes_keys. apply chunk_paths_NoDup.
    + apply enumerate_from_NoDup.
    + intros j x Hj. apply enumerate_from_ge in Hj. lia.
  - exfalso. rewrite write_all_notin in Hsome by exact Hnotin.
    rewrite (clear_existing_chunks_removes _ _ _ p Hmk Hcl Hne Hpar) in Hsome.
    + destruct Hsome; discriminate.
    + unfold clears. rewrite Hchunk. apply orb_true_r.
Qed.

End SplitterForce.


(** ** Earlier chunk files under force *)

(** C6 (the code breaks the claim). With [force] set and an output
    directory that holds chunk_0001.txt and chunk_0002.txt of an earlier
    run, [chunk_text] on a text that yields one chunk rewrites
    chunk_0001.txt and leaves the old chunk_0002.txt in place: earlier
    chunk files are not removed. The sibling [split_code] does remove them
    ([_clear_existing_chunks]): after its emission of one file with [force]
    set, the old chunk_0002.txt is gone. *)
Theorem chunk_text_force_keeps_stale_chunks :
  let run := @ChunkText.chunk_text length_hashlib byte_codecs no_index 5
               ["in.txt"%string] ["out"%string] 10 0 "utf-8" true stale_fs in
  let sibling := @emit_file length_hashlib byte_codecs no_file_index py_source
               (_top_level_chunks py_tree "python") ["a.py"%string] ["out"%string]
               "python" true stale_py_fs in
  List.map ChunkText.chunk_id (ok_or_nil (fst run)) = ["chunk_0001"%string] /\
  snd run !! ["out"; "chunk_0001.txt"]%string = Some (Fs.File (bytes_of_string "hi")) /\
  snd run !! ["out"; "chunk_0002.txt"]%string
    = Some (Fs.File (bytes_of_string "old two")) /\
  List.map chunk_id (ok_or_nil (fst sibling)) = ["a.py::chunk_0001"%string] /\
  snd sibling !! ["out"; "a.py.chunks"; "chunk_0002.txt"]%string = None.
Proof. vm_compute. repeat split. Qed.


(** ** The emitted records *)

Lemma run_ok_pair {A S} (run : outcome A * S) (a : A) :
  fst run = Ok a -> run = (Ok a, snd run).
Proof. destruct run as [r s]. simpl. intros ->. reflexivity. Qed.

(** C4. For every text of exactly 1000 characters without a newline,
    [_iter_chunk_spans] with [max_chars = 400] and [overlap_chars = 50]
    returns exactly the spans (0,400), (350,750), (700,1000) (three rounds
    are enough), and every successful run of [chunk_text] on such a text
    gives them the identifiers chunk_0001, chunk_0002, chunk_0003. *)
Theorem thousand_chars_example :
  (forall (t : text) (fuel : nat),
     length t = 1000%nat -> ~ In newline t -> (3 <= fuel)%nat ->
     _iter_chunk_spans fuel t 400 50 = Ok [(0, 400); (350, 750); (700, 1000)]) /\
  (forall (H : Hashlib) (C : Codecs) dumps_index fuel src out enc force fs chunks raw t,
     Fs.stat fs src = Some (Fs.File raw) -> decode enc raw = Some t ->
     length t = 1000%nat -> ~ In newline t ->
     fst (ChunkText.chunk_text dumps_index fuel src out 400 50 enc force fs)
       = Ok chunks ->
     List.map (fun c => (ChunkText.chunk_id c, ChunkText.start_char c,
                         ChunkText.end_char c)) chunks
     = [("chunk_0001"%string, 0, 400); ("chunk_0002"%string, 350, 750);
        ("chunk_0003"%string, 700, 1000)]).
Proof.
  split.
  - apply thousand_chars_three_spans.
  - intros H C dumps_index fuel src out enc force fs chunks raw t Hsrc Hdec Hlen Hno Hrun.
    eapply chunk_text_thousand; try eassumption.
    apply run_ok_pair. exact Hrun.
Qed.

Lemma thousand_a_no_newline : ~ In newline thousand_a.
Proof. intros Hin. apply repeat_spec in Hin. discriminate. Qed.

Lemma thousand_chars_example_witness :
  _iter_chunk_spans 3 thousand_a 400 50 = Ok [(0, 400); (350, 750); (700, 1000)] /\
  List.map (fun c => (ChunkText.chunk_id c, ChunkText.start_char c, ChunkText.end_char c))
           (ok_or_nil (fst thousand_run))
  = [("chunk_0001"%string, 0, 400); ("chunk_0002"%string, 350, 750);
     ("chunk_0003"%string, 700, 1000)].
Proof.
  split.
  - apply (proj1 thousand_chars_example thousand_a 3%nat);
      [reflexivity | exact thousand_a_no_newline | lia].
  - apply (proj2 thousand_chars_example length_hashlib byte_codecs no_index 3%nat
             ["in.txt"%string] ["out"%string] "utf-8"%string false thousand_fs
             (ok_or_nil (fst thousand_run))
             (List.map byte_of_ascii thousand_a) thousand_a);
      [vm_compute; reflexivity | vm_compute; reflexivity | reflexivity
       | exact thousand_a_no_newline | vm_compute; reflexivity].
Defined.

(** C9 (the code breaks the claim). [chunk_text] takes the digest of the
    UTF-8 bytes of the chunk's text and then writes the text with
    [write_text], which opens the file in text mode and replaces every
    newline by [os.linesep]. Where the line separator is carriage return,
    line feed, the text ["hello\nworld\nmore"] with [max_chars = 8] and
    [overlap_chars = 2] gives a first chunk ["hello\n"]: its record holds
    the digest of those six bytes, whatever the digest function, while
    chunk_0001.txt holds seven bytes, ["hello\r\n"]; the bytes persisted
    are not the bytes hashed (and a digest that tells their lengths apart
    tells them apart). The sibling [split_code] writes with [write_bytes]
    the very bytes it hashed: after every successful emission of the
    chunks of one file, on every platform, the file of each chunk holds
    bytes whose digest is the [sha256] of its record. *)
Theorem chunk_text_hashes_before_newline_translation :
  (forall H : Hashlib,
     let run := @ChunkText.chunk_text H crlf_codecs no_index 10
                  ["in.txt"%string] ["out"%string] 8 2 "utf-8" false small_fs in
     List.map (fun c => (ChunkText.path c, ChunkText.sha256 c))
              (firstn 1 (ok_or_nil (fst run)))
     = [("chunk_0001.txt"%string, @sha256_hexdigest H hello_lf)] /\
     snd run !! (["out"; "chunk_0001.txt"]%string : Fs.path)
     = Some (Fs.File hello_crlf)) /\
  hello_lf <> hello_crlf /\
  @sha256_hexdigest length_hashlib hello_lf
  <> @sha256_hexdigest length_hashlib hello_crlf /\
  (forall (H : Hashlib) (C : Codecs) dumps_file_index data nodes rel_path out lang
          force fs chunks,
     let run := @SplitCode.emit_file H C dumps_file_index data nodes rel_path out
                  lang force fs in
     fst run = Ok chunks ->
     Forall (fun c => exists comps bytes,
               SplitCode.path c = SplitCode.as_posix comps /\
               Fs.stat (snd run) (out ++ comps) = Some (Fs.File bytes) /\
               SplitCode.sha256 c = sha256_hexdigest bytes) chunks).
Proof.
  split; [|split; [|split]].
  - intros H. vm_compute. split; reflexivity.
  - vm_compute. discriminate.
  - vm_compute. discriminate.
  - intros H C dfi data nodes rel out lang force fs chunks run Hrun.
    eapply emit_file_hashes. apply run_ok_pair. exact Hrun.
Qed.

(** C10. Every chunk of a successful run of [chunk_text] has
    [1 <= start_line <= end_line], its [start_line] is one more than the
    number of newlines before [start_char], and its [end_line] is the line
    of offset [max(start_char, end_char - 1)], which is not before
    [start_char]. Every chunk of a successful run of [split_code] has the
    rows of the start and end points of its node, each plus one, as
    [start_line] and [end_line]; they satisfy [1 <= start_line <= end_line]
    when the parser returns nodes whose rows are ordered. *)
Theorem chunk_line_range_ordered `{Hashlib} `{Codecs} :
  (forall dumps_index fuel src out M V enc force fs chunks,
     fst (ChunkText.chunk_text dumps_index fuel src out M V enc force fs)
       = Ok chunks ->
     exists raw t,
       Fs.stat fs src = Some (Fs.File raw) /\ decode enc raw = Some t /\
       Forall (fun c =>
         let newlines := ChunkText._compute_newline_positions t in
         let last_pos := Z.max (ChunkText.start_char c) (ChunkText.end_char c - 1) in
         1 <= ChunkText.start_line c <= ChunkText.end_line c /\
         ChunkText.start_line c
           = 1 + count_newlines (Py.prefix t (ChunkText.start_char c)) /\
         ChunkText.end_line c = ChunkText._line_number_at newlines last_pos /\
         ChunkText.start_char c <= last_pos) chunks) /\
  (forall get_parser _iter_files dumps_file_index dumps_index
          src out language_override force fs chunks,
     fst (SplitCode.split_code get_parser _iter_files dumps_file_index dumps_index
            src out language_override force fs) = Ok chunks ->
     exists parser_of,
       get_parser = Some parser_of /\
       Forall (fun c => exists parse lang data node,
                 parser_of lang = Some parse /\
                 In node (SplitCode.named_children (parse data)) /\
                 SplitCode.start_line c = fst (SplitCode.start_point node) + 1 /\
                 SplitCode.end_line c = fst (SplitCode.end_point node) + 1) chunks /\
       (parser_rows_ordered parser_of ->
        Forall (fun c => 1 <= SplitCode.start_line c <= SplitCode.end_line c) chunks)).
Proof.
  split.
  - intros dumps_index fuel src out M V enc force fs chunks Hrun.
    eapply chunk_text_lines. apply run_ok_pair. exact Hrun.
  - intros get_parser _iter_files dfi di src out over force fs chunks Hrun.
    apply run_ok_pair, split_code_built in Hrun as (parser_of & Hp & Hall).
    exists parser_of. split; [exact Hp|]. split.
    + eapply List.Forall_impl; [|exact Hall].
      intros c (parse & lang & data & node & Hpl & Hin & _ & Hs & He & _).
      exists parse, lang, data, node. auto.
    + intros Hrows. eapply List.Forall_impl; [|exact Hall].
      intros c (parse & lang & data & node & Hpl & Hin & _ & Hs & He & _).
      specialize (Hrows lang parse data node Hpl Hin). unfold rows_ordered in Hrows. lia.
Qed.

Lemma py_parser_rows_ordered : parser_rows_ordered py_parser.
Proof.
  intros lang parse data node Hp Hin. unfold py_parser in Hp.
  destruct (String.eqb lang "python"); [|discriminate].
  inversion Hp; subst parse. simpl in Hin.
  destruct Hin as [<- | [<- | []]]; unfold rows_ordered; simpl; lia.
Qed.

Lemma chunk_line_range_ordered_witness :
  Forall (fun c => 1 <= ChunkText.start_line c <= ChunkText.end_line c)
         (ok_or_nil (fst small_run)) /\
  Forall (fun c => 1 <= SplitCode.start_line c <= SplitCode.end_line c)
         (ok_or_nil (fst py_run)).
Proof.
  split.
  - destruct (proj1 (@chunk_line_range_ordered length_hashlib byte_codecs)
                no_index 10%nat ["in.txt"%string] ["out"%string] 8 2 "utf-8"%string
                false small_fs (ok_or_nil (fst small_run)))
      as (raw & t & _ & _ & Hall); [vm_compute; reflexivity|].
    eapply List.Forall_impl; [|exact Hall]. cbv zeta. intros c Hc. apply Hc.
  - destruct (proj2 (@chunk_line_range_ordered length_hashlib byte_codecs)
                (Some py_parser) no_walk no_file_index no_root_index
                ["src"; "a.py"]%string ["out"%string] None false py_fs
                (ok_or_nil (fst py_run)))
      as (parser_of & Hp & _ & Hall); [vm_compute; reflexivity|].
    inversion Hp; subst parser_of. apply Hall. exact py_parser_rows_ordered.
Defined.


(** ** Further properties of the two scripts *)

(** ** More on the boundary selector *)

Lemma trace_ends_increase (t : text) (M V : Z) (Hcfg : valid_config M V) s tail :
  0 <= s -> trace t M V s tail -> chained (fun a b => snd a < snd b) tail.
Proof.
  pose proof Hcfg as (HM & HV). intros Hs Htr.
  induction Htr as [s Hx | s Hx Hy | s tail Hx Hy Htr IH]; [exact I | exact I |].
  pose proof (chunk_end_bounds t M V Hcfg s ltac:(lia)) as Hb.
  assert (Hs' : Z.max 0 (chunk_end t M s - V) < Py.len t) by lia.
  destruct (trace_head t M V _ _ Htr Hs') as (rest & Heq).
  pose proof (trace_chain t M V Hcfg s _ Hs (trace_step t M V s tail Hx Hy Htr)) as Hch.
  rewrite Heq in *. destruct Hch as ((_ & _ & _ & Hle) & _). simpl in Hle.
  split; [|apply IH; lia]. simpl.
  destruct (Z.eq_dec (chunk_end t M s)
              (chunk_end t M (Z.max 0 (chunk_end t M s - V)))) as [Hsame | Hdiff]; [|lia].
  exfalso. eapply stuck_no_trace; [|exact Htr].
  unfold stuck. rewrite <- Hsame. lia.
Qed.

(** X1. Every list [_iter_chunk_spans] returns for a non-empty text under
    a valid configuration starts at offset 0, ends at the length of the
    text, has non-empty spans within the text, strictly increasing starts
    and strictly increasing ends, overlaps of at most [overlap_chars]
    characters between neighbours, and leaves no offset of the text
    uncovered. *)
Theorem iter_chunk_spans_covers (t : text) (M V : Z) (fuel : nat)
    (spans : list span) :
  valid_config M V -> 0 < Py.len t ->
  _iter_chunk_spans fuel t M V = Ok spans ->
  good_spans (Py.len t) V spans /\
  chained (fun a b => fst a < fst b /\ snd a < snd b) spans.
Proof.
  intros Hcfg Hlen Hrun.
  pose proof (iter_chunk_spans_returned t M V fuel spans Hcfg Hlen Hrun) as Hgood.
  split; [exact Hgood|].
  assert (Hends : chained (fun a b => snd a < snd b) spans).
  { unfold _iter_chunk_spans in Hrun.
    destruct (M <=? 0); [discriminate|]. destruct (V <? 0); [discriminate|].
    destruct (V >=? M); [discriminate|].
    destruct (while_loop fuel t M V (LoopState 0 [])) as [r|] eqn:E; [|discriminate].
    inversion Hrun; subst.
    apply (while_loop_trace t M V Hcfg) in E as (tail & -> & Htr); [|lia].
    apply (trace_ends_increase t M V Hcfg 0); [lia | exact Htr]. }
  destruct Hgood as [_ _ _ Hch _]. clear Hrun.
  induction spans as [|a [|b rest] IH]; try exact I.
  destruct Hch as ((Hst & _) & Hch). destruct Hends as (Hen & Hends).
  split; [split; assumption | apply IH; assumption].
Qed.

Lemma iter_chunk_spans_covers_witness :
  good_spans (Py.len ten_letters) 1 [(0, 4); (3, 7); (6, 10)] /\
  chained (fun a b => fst a < fst b /\ snd a < snd b) [(0, 4); (3, 7); (6, 10)].
Proof.
  apply (iter_chunk_spans_covers ten_letters 4 1 10 [(0, 4); (3, 7); (6, 10)]).
  - unfold valid_config. lia.
  - reflexivity.
  - reflexivity.
Defined.

(** X2. Under a valid configuration whose overlap is at most
    [int(0.6 * max_chars)], [_iter_chunk_spans] returns: every round moves
    the start offset forward, and [len(text) + 1] rounds are enough. *)
Theorem iter_chunk_spans_terminates (t : text) (M V : Z) (fuel : nat) :
  valid_config M V -> V <= Py.int_times_min_ratio M -> (length t < fuel)%nat ->
  exists spans, _iter_chunk_spans fuel t M V = Ok spans.
Proof.
  intros Hcfg Hsafe Hfuel. exact (iter_chunk_spans_returns t M V Hcfg Hsafe fuel Hfuel).
Qed.

Lemma iter_chunk_spans_terminates_witness :
  exists spans, _iter_chunk_spans 18 newline_after_six 10 6 = Ok spans.
Proof.
  apply (iter_chunk_spans_terminates newline_after_six 10 6 18).
  - unfold valid_config. lia.
  - vm_compute. discriminate.
  - vm_compute. lia.
Defined.

Section Sizes.
Variables (t : text) (M V : Z).
Hypothesis Hcfg : valid_config M V.

Lemma trace_sizes s tail :
  0 <= s -> trace t M V s tail ->
  Forall (fun sp => snd sp - fst sp <= M) tail /\
  all_but_last (fun sp =>
      Py.int_times_min_ratio M < snd sp - fst sp /\
      (snd sp - fst sp = M \/ newline_at t (snd sp - 1) = true)) tail.
Proof.
  pose proof Hcfg as (HM & HV).
  intros Hs Htr. induction Htr as [s Hx | s Hx Hy | s tail Hx Hy Htr IH].
  - split; [constructor | exact I].
  - pose proof (chunk_end_bounds t M V Hcfg s ltac:(lia)).
    split; [|exact I]. repeat constructor. simpl. lia.
  - pose proof (chunk_end_bounds t M V Hcfg s ltac:(lia)) as Hb.
    destruct (IH ltac:(lia)) as (IH1 & IH2).
    split; [constructor; [simpl; lia | exact IH1]|].
    assert (Hnext : Z.max 0 (chunk_end t M s - V) < Py.len t) by lia.
    destruct (trace_head t M V _ _ Htr Hnext) as (rest & Heq). rewrite Heq in *.
    split; [|exact IH2]. simpl fst; simpl snd.
    pose proof (chunk_end_inner_lt t M s ltac:(lia) Hy ltac:(lia)) as Hin.
    pose proof (int_times_min_ratio_bounds M ltac:(lia)) as Hq.
    assert (Hq' : Py.int_times_min_ratio M < M).
    { unfold Py.int_times_min_ratio. rewrite Z.quot_div_nonneg by lia.
      apply Z.div_lt_upper_bound; lia. }
    destruct (chunk_end_inner t M V Hcfg s ltac:(lia) Hin)
      as [(nl & (Hr & Hnl & _) & Hmin & Hend) | (Hend & _)].
    + rewrite Hend. split; [lia|]. right.
      replace (nl + 1 - 1) with nl by lia. exact Hnl.
    + rewrite Hend. split; [lia|]. left. lia.
Qed.

End Sizes.

(** X3. In every list [_iter_chunk_spans] returns, no span is longer than
    [max_chars], and every span but the last is longer than
    [int(0.6 * max_chars)] and either has exactly [max_chars] characters
    or ends right after a newline. *)
Theorem iter_chunk_spans_sizes (t : text) (M V : Z) (fuel : nat) (spans : list span) :
  _iter_chunk_spans fuel t M V = Ok spans ->
  Forall (fun sp => snd sp - fst sp <= M) spans /\
  all_but_last (fun sp =>
      Py.int_times_min_ratio M < snd sp - fst sp /\
      (snd sp - fst sp = M \/ newline_at t (snd sp - 1) = true)) spans.
Proof.
  intros Hrun. pose proof (iter_chunk_spans_ok_config _ _ _ _ _ Hrun) as Hcfg.
  unfold _iter_chunk_spans in Hrun.
  destruct (M <=? 0); [discriminate|]. destruct (V <? 0); [discriminate|].
  destruct (V >=? M); [discriminate|].
  destruct (while_loop fuel t M V (LoopState 0 [])) as [r|] eqn:E; [|discriminate].
  inversion Hrun; subst.
  apply (while_loop_trace t M V Hcfg) in E as (tail & -> & Htr); [|lia].
  apply (trace_sizes t M V Hcfg 0); [lia | exact Htr].
Qed.

Lemma iter_chunk_spans_sizes_witness :
  Forall (fun sp => snd sp - fst sp <= 8) [(0, 6); (4, 12); (10, 16)] /\
  all_but_last (fun sp =>
      Py.int_times_min_ratio 8 < snd sp - fst sp /\
      (snd sp - fst sp = 8 \/
       newline_at (text_of_string "hello
world
more") (snd sp - 1) = true)) [(0, 6); (4, 12); (10, 16)].
Proof.
  apply (iter_chunk_spans_sizes (text_of_string "hello
world
more") 8 2 10).
  reflexivity.
Defined.

(** X4. [_iter_chunk_spans] raises a [ValueError] exactly when
    [max_chars <= 0], [overlap_chars < 0] or [overlap_chars >= max_chars],
    whatever the text is, and it raises nothing else. *)
Theorem iter_chunk_spans_value_error (t : text) (M V : Z) (fuel : nat) :
  ((exists msg, _iter_chunk_spans fuel t M V = Raise (ValueError msg)) <->
   (M <= 0 \/ V < 0 \/ V >= M)) /\
  (forall e, _iter_chunk_spans fuel t M V = Raise e -> exists msg, e = ValueError msg).
Proof.
  unfold _iter_chunk_spans.
  destruct (M <=? 0) eqn:E1; [split; [split; [lia | eauto] | intros e [= <-]; eauto]|].
  destruct (V <? 0) eqn:E2; [split; [split; [lia | eauto] | intros e [= <-]; eauto]|].
  destruct (V >=? M) eqn:E3; [split; [split; [lia | eauto] | intros e [= <-]; eauto]|].
  destruct (while_loop fuel t M V (LoopState 0 [])); split;
    try (split; [intros (msg & Hm); discriminate | lia]);
    intros e He; discriminate.
Qed.

(** ** Texts without newline, and the way back from the chunks *)

Section NoNewline.
Variables (t : text) (M V : Z).
Hypothesis Hcfg : valid_config M V.
Hypothesis Hno : ~ In newline t.

Lemma while_loop_returns_no_newline :
  forall fuel s acc, 0 <= s -> Z.max 0 (Py.len t - s) < Z.of_nat fuel ->
  exists res, while_loop fuel t M V (LoopState s acc) = Some res.
Proof.
  pose proof Hcfg as (HM & HV).
  induction fuel as [|fuel IH]; intros s acc Hs Hfuel; [lia|].
  simpl. destruct (Z.le_gt_cases (Py.len t) s) as [Hout | Hin].
  - rewrite loop_body_exit by assumption. eauto.
  - rewrite (loop_body_emits t M V Hcfg) by lia.
    rewrite chunk_end_no_newline by (assumption || lia).
    destruct (Z.min (s + M) (Py.len t) >=? Py.len t) eqn:E; [eauto|].
    apply IH; lia.
Qed.

Lemma trace_no_newline s tail :
  0 <= s -> trace t M V s tail ->
  all_but_last (fun sp => snd sp - fst sp = M) tail /\
  chained (fun a b => fst b = fst a + (M - V)) tail.
Proof.
  pose proof Hcfg as (HM & HV).
  intros Hs Htr. induction Htr as [s Hx | s Hx Hy | s tail Hx Hy Htr IH].
  - split; exact I.
  - split; exact I.
  - pose proof (chunk_end_no_newline t M s Hno Hs HM) as He.
    destruct (IH ltac:(lia)) as (IH1 & IH2).
    assert (Hnext : Z.max 0 (chunk_end t M s - V) < Py.len t).
    { pose proof (chunk_end_bounds t M V Hcfg s ltac:(lia)). lia. }
    destruct (trace_head t M V _ _ Htr Hnext) as (rest & Heq). rewrite Heq in *.
    split; (split; [simpl; lia | assumption]).
Qed.

End NoNewline.

(** X5. A text without a newline is cut into a regular grid, whatever the
    valid overlap: [_iter_chunk_spans] returns within [len(text) + 1]
    rounds, every span but the last has exactly [max_chars] characters,
    and each start is [max_chars - overlap_chars] after the one before. *)
Theorem iter_chunk_spans_no_newline (t : text) (M V : Z) (fuel : nat) :
  valid_config M V -> ~ In newline t -> (length t < fuel)%nat ->
  exists spans,
    _iter_chunk_spans fuel t M V = Ok spans /\
    all_but_last (fun sp => snd sp - fst sp = M) spans /\
    chained (fun a b => fst b = fst a + (M - V)) spans.
Proof.
  intros Hcfg Hno Hfuel. pose proof Hcfg as (HM & HV).
  unfold _iter_chunk_spans.
  destruct (M <=? 0) eqn:E1; [lia|]. destruct (V <? 0) eqn:E2; [lia|].
  destruct (V >=? M) eqn:E3; [lia|].
  destruct (while_loop_returns_no_newline t M V Hcfg Hno fuel 0 []) as (res & Hres);
    [lia | unfold Py.len; lia|].
  rewrite Hres. exists res. split; [reflexivity|].
  apply (while_loop_trace t M V Hcfg) in Hres as (tail & -> & Htr); [|lia].
  apply (trace_no_newline t M V Hcfg Hno 0); [lia | exact Htr].
Qed.

Lemma iter_chunk_spans_no_newline_witness :
  exists spans,
    _iter_chunk_spans 11 ten_letters 4 3 = Ok spans /\
    all_but_last (fun sp => snd sp - fst sp = 4) spans /\
    chained (fun a b => fst b = fst a + (4 - 3)) spans.
Proof.
  apply (iter_chunk_spans_no_newline ten_letters 4 3 11).
  - unfold valid_config. lia.
  - vm_compute. intuition discriminate.
  - vm_compute. lia.
Defined.

(** *** Slices *)

Lemma slice_inner {A} (l : list A) (a b : Z) :
  0 <= a <= b -> b <= Py.len l ->
  Py.slice l a b = firstn (Z.to_nat (b - a)) (skipn (Z.to_nat a) l).
Proof.
  intros Hab Hb. unfold Py.slice, Py.adjust_index.
  destruct (a <? 0) eqn:E1; [lia|]. destruct (b <? 0) eqn:E2; [lia|].
  rewrite !Z.min_l by lia. reflexivity.
Qed.

Lemma skipn_slice {A} (l : list A) (s p e : Z) :
  0 <= s <= p -> p <= e -> e <= Py.len l ->
  skipn (Z.to_nat (p - s)) (Py.slice l s e) = Py.slice l p e.
Proof.
  intros Hsp Hpe He. rewrite !slice_inner by lia.
  rewrite skipn_firstn_comm, skipn_skipn.
  f_equal; [lia|]. f_equal. lia.
Qed.

Lemma firstn_plus {A} (n m : nat) (l : list A) :
  firstn (n + m) l = firstn n l ++ firstn m (skipn n l).
Proof.
  revert l. induction n as [|n IH]; intros l; [reflexivity|].
  destruct l as [|x l]; simpl; [destruct m; reflexivity|].
  f_equal. apply IH.
Qed.

Lemma slice_app {A} (l : list A) (a b c : Z) :
  0 <= a <= b -> b <= c -> c <= Py.len l ->
  Py.slice l a b ++ Py.slice l b c = Py.slice l a c.
Proof.
  intros Hab Hbc Hc. rewrite !slice_inner by lia.
  replace (Z.to_nat b) with (Z.to_nat (b - a) + Z.to_nat a)%nat by lia.
  set (l' := skipn (Z.to_nat a) l).
  replace (Z.to_nat (c - a)) with (Z.to_nat (b - a) + Z.to_nat (c - b))%nat by lia.
  rewrite firstn_plus. f_equal. unfold l'. rewrite skipn_skipn. reflexivity.
Qed.

Lemma slice_all {A} (l : list A) : Py.slice l 0 (Py.len l) = l.
Proof.
  rewrite slice_inner by (unfold Py.len; lia).
  simpl. rewrite Z.sub_0_r. unfold Py.len. rewrite Nat2Z.id. apply firstn_all.
Qed.

Lemma stitch_chain (t : text) (V : Z) (spans : list span) : forall prev,
  Forall (span_ok (Py.len t)) spans -> chained (linked V) spans ->
  (forall s e rest, spans = (s, e) :: rest -> s <= prev <= e) ->
  (exists s, List.last spans (0, 0) = (s, Py.len t)) ->
  spans <> [] -> 0 <= prev ->
  stitch t prev spans = Py.slice t prev (Py.len t).
Proof.
  induction spans as [|[s e] rest IH]; intros prev Hok Hch Hhd Hlast Hne Hprev;
    [congruence|].
  inversion Hok as [|? ? (Hs & Hse & He) Hok']; subst. simpl in Hs, Hse, He.
  destruct (Hhd s e rest eq_refl) as (Hsp & Hpe).
  cbn [stitch]. rewrite skipn_slice by lia.
  destruct rest as [|[s2 e2] rest'].
  - destruct Hlast as (s' & Hl). simpl in Hl. inversion Hl; subst.
    simpl. apply app_nil_r.
  - destruct Hch as ((Hlt & Hgap & Hov & Hee) & Hch'). simpl in Hlt, Hgap, Hov, Hee.
    assert (He2 : e2 <= Py.len t).
    { inversion Hok' as [|? ? (_ & _ & He2) _]; subst. exact He2. }
    rewrite (IH e Hok' Hch').
    + apply slice_app; lia.
    + intros s0 e0 rest0 Heq. inversion Heq; subst. lia.
    + exact Hlast.
    + discriminate.
    + lia.
Qed.

(** X6. The chunks give the text back: putting the slices of the returned
    spans one after the other, each without the characters the span before
    it already gave, yields the text itself. *)
Theorem iter_chunk_spans_stitch (t : text) (M V : Z) (fuel : nat) (spans : list span) :
  _iter_chunk_spans fuel t M V = Ok spans -> stitch t 0 spans = t.
Proof.
  intros Hrun. pose proof (iter_chunk_spans_ok_config _ _ _ _ _ Hrun) as Hcfg.
  destruct (Z.eq_dec (Py.len t) 0) as [Hempty | Hnonempty].
  - assert (t = []) by (destruct t; [reflexivity | unfold Py.len in Hempty; simpl in Hempty; lia]).
    subst t. pose proof (iter_chunk_spans_each _ _ _ _ _ Hrun) as Hok.
    destruct spans as [|[s e] rest]; [reflexivity|].
    inversion Hok as [|? ? (Hs & Hse & He) _]; subst. unfold Py.len in He. simpl in *. lia.
  - assert (Hlen : 0 < Py.len t) by (unfold Py.len in *; lia).
    destruct (iter_chunk_spans_returned t M V fuel spans Hcfg Hlen Hrun)
      as [(e & rest & Hfirst) Hlast Hok Hch _].
    rewrite (stitch_chain t V spans 0 Hok Hch); try assumption; try lia.
    + apply slice_all.
    + intros s0 e0 rest0 Heq. rewrite Hfirst in Heq. inversion Heq; subst.
      rewrite List.Forall_forall in Hok.
      destruct (Hok (0, e0) ltac:(left; reflexivity)) as (_ & Hse & _). simpl in Hse. lia.
    + rewrite Hfirst. discriminate.
Qed.

Lemma iter_chunk_spans_stitch_witness :
  stitch (text_of_string "hello
world
more") 0 [(0, 6); (4, 12); (10, 16)] = text_of_string "hello
world
more".
Proof.
  apply (iter_chunk_spans_stitch _ 8 2 10). reflexivity.
Defined.

(** ** Newline positions and line numbers *)

Lemma newline_positions_from_In t : forall i p,
  In p (ChunkText.newline_positions_from i t) <->
  i <= p /\ newline_at t (p - i) = true.
Proof.
  induction t as [|c t IH]; intros i p; simpl.
  - split; [contradiction|]. intros (_ & H). unfold newline_at in H.
    destruct (Z.to_nat (p - i)); discriminate.
  - assert (Htail : In p (ChunkText.newline_positions_from (i + 1) t) <->
                    i + 1 <= p /\ newline_at (c :: t) (p - i) = true).
    { rewrite IH. split; intros (Hp & Hn); (split; [lia|]).
      - unfold newline_at in *. replace (Z.to_nat (p - i)) with (S (Z.to_nat (p - (i + 1)))) by lia.
        exact Hn.
      - unfold newline_at in *. replace (Z.to_nat (p - i)) with (S (Z.to_nat (p - (i + 1)))) in Hn by lia.
        exact Hn. }
    destruct (is_newline c) eqn:Ec.
    + simpl. rewrite Htail. split.
      * intros [<- | (Hp & Hn)].
        -- split; [lia|]. replace (i - i) with 0 by lia. exact Ec.
        -- split; [lia | exact Hn].
      * intros (Hp & Hn). destruct (Z.eq_dec i p) as [-> | Hne]; [left; reflexivity|].
        right. split; [lia | exact Hn].
    + rewrite Htail. split.
      * intros (Hp & Hn). split; [lia | exact Hn].
      * intros (Hp & Hn). split; [|exact Hn].
        destruct (Z.eq_dec i p) as [-> | Hne]; [|lia].
        replace (p - p) with 0 in Hn by lia. unfold newline_at in Hn. simpl in Hn.
        congruence.
Qed.

Lemma newline_positions_from_increasing t : forall i,
  increasing (ChunkText.newline_positions_from i t).
Proof.
  induction t as [|c t IH]; intros i; simpl.
  - intros a b Hab. simpl in Hab. lia.
  - destruct (is_newline c); [|apply IH].
    intros a b Hab. simpl in Hab. destruct b as [|b]; [lia|].
    destruct a as [|a]; simpl.
    + assert (Hin : In (nth b (ChunkText.newline_positions_from (i + 1) t) 0)
                       (ChunkText.newline_positions_from (i + 1) t))
        by (apply nth_In; lia).
      apply newline_positions_from_In in Hin. lia.
    + apply IH. lia.
Qed.

(** X7. [_compute_newline_positions] returns the offsets of the newlines
    of the text, each once, in strictly increasing order: an offset is in
    the list exactly when the character there is a newline, and the list
    is as long as the text has newlines. *)
Theorem compute_newline_positions_spec (t : text) :
  increasing (ChunkText._compute_newline_positions t) /\
  (forall p, In p (ChunkText._compute_newline_positions t) <->
             0 <= p /\ newline_at t p = true) /\
  Py.len (ChunkText._compute_newline_positions t) = count_newlines t.
Proof.
  unfold ChunkText._compute_newline_positions. split; [|split].
  - apply newline_positions_from_increasing.
  - intros p. rewrite newline_positions_from_In. rewrite Z.sub_0_r. reflexivity.
  - unfold count_newlines, Py.len. f_equal.
    generalize 0. induction t as [|c t IH]; intros i; simpl; [reflexivity|].
    destruct (is_newline c); simpl; rewrite IH; reflexivity.
Qed.

Lemma count_newlines_firstn_le (t : text) (k : nat) :
  count_newlines (firstn k t) <= count_newlines t.
Proof.
  unfold count_newlines. apply inj_le. revert k.
  induction t as [|c t IH]; intros [|k]; simpl; try lia.
  specialize (IH k). destruct (is_newline c); simpl; lia.
Qed.

(** X8. With the newline positions of a text, [_line_number_at] returns
    one more than the number of newlines before the offset (a negative
    offset counts as 0): the result lies between 1 and one more than the
    number of newlines of the text, and it does not decrease when the
    offset grows. *)
Theorem line_number_at_spec (t : text) (pos : Z) :
  let newlines := ChunkText._compute_newline_positions t in
  ChunkText._line_number_at newlines pos
    = 1 + count_newlines (Py.prefix t (Z.max 0 pos)) /\
  1 <= ChunkText._line_number_at newlines pos <= 1 + count_newlines t /\
  (forall pos', pos <= pos' ->
     ChunkText._line_number_at newlines pos <= ChunkText._line_number_at newlines pos').
Proof.
  intros newlines.
  assert (Hclamp : ChunkText._line_number_at newlines pos
                   = ChunkText._line_number_at newlines (Z.max 0 pos)).
  { unfold ChunkText._line_number_at.
    destruct (pos <? 0) eqn:E1; destruct (Z.max 0 pos <? 0) eqn:E2; try lia.
    - rewrite Z.max_l by lia. reflexivity.
    - rewrite Z.max_r by lia. reflexivity. }
  assert (Heq : ChunkText._line_number_at newlines pos
                = 1 + count_newlines (Py.prefix t (Z.max 0 pos))).
  { rewrite Hclamp. apply line_number_at_count. lia. }
  split; [exact Heq|]. split.
  - pose proof (line_number_at_mono newlines pos pos (newline_positions_sorted t) ltac:(lia)).
    split; [lia|]. rewrite Heq, prefix_firstn by lia.
    pose proof (count_newlines_firstn_le t (Z.to_nat (Z.max 0 pos))). lia.
  - intros pos' Hle.
    apply (line_number_at_mono newlines pos pos' (newline_positions_sorted t) Hle).
Qed.

(** ** Names and directories *)

Lemma rfind_dot_app a : forall b i found,
  Fs.rfind_dot (a ++ b) i found
  = Fs.rfind_dot b (i + Py.len a) (Fs.rfind_dot a i found).
Proof.
  induction a as [|c a IH]; intros b i found; simpl.
  - unfold Py.len. simpl. rewrite Z.add_0_r. reflexivity.
  - rewrite IH. unfold Py.len. simpl length. f_equal. lia.
Qed.

Lemma rfind_dot_no_dot a : forall i found,
  no_dot a -> Fs.rfind_dot a i found = found.
Proof.
  induction a as [|c a IH]; intros i found Hno; simpl; [reflexivity|].
  rewrite IH by (intros Hin; apply Hno; right; exact Hin).
  destruct (Ascii.eqb c ".") eqn:E; [|reflexivity].
  apply Ascii.eqb_eq in E. subst c. exfalso. apply Hno. left. reflexivity.
Qed.

Lemma list_ascii_app (x y : string) :
  list_ascii_of_string (x ++ y)
  = list_ascii_of_string x ++ list_ascii_of_string y.
Proof. induction x as [|c x IH]; simpl; [reflexivity | f_equal; exact IH]. Qed.

Lemma string_of_uint_no_dot (d : uint) :
  no_dot (list_ascii_of_string (NilEmpty.string_of_uint d)).
Proof.
  unfold no_dot. induction d; simpl; try tauto; (intros [H | H]; [discriminate | tauto]).
Qed.

Lemma str_no_dot (n : Z) : no_dot (list_ascii_of_string (Fmt.str n)).
Proof.
  unfold Fmt.str, NilZero.string_of_int.
  destruct (Z.to_int n) as [d | d]; unfold NilZero.string_of_uint.
  - destruct d; try apply (string_of_uint_no_dot).
    unfold no_dot. simpl. intros [H | []]. discriminate.
  - assert (Hd : no_dot (list_ascii_of_string
                   match d with Nil => "0"%string | _ => NilEmpty.string_of_uint d end)).
    { destruct d; try apply (string_of_uint_no_dot).
      unfold no_dot. simpl. intros [H | []]. discriminate. }
    unfold no_dot in *. simpl. intros [H | H]; [discriminate | tauto].
Qed.

Lemma zeros_no_dot k : no_dot (list_ascii_of_string (Fmt.zeros k)).
Proof.
  unfold no_dot. induction k as [|k IH]; simpl; [tauto|].
  intros [H | H]; [discriminate | tauto].
Qed.

Lemma format_0d_no_dot w n : no_dot (list_ascii_of_string (Fmt.format_0d w n)).
Proof.
  unfold Fmt.format_0d, no_dot. cbv zeta. rewrite !list_ascii_app, !in_app_iff.
  intros [H | [H | H]].
  - destruct (n <? 0); simpl in H; [destruct H as [H | []]; discriminate | exact H].
  - exact (zeros_no_dot _ H).
  - exact (str_no_dot _ H).
Qed.

(** The names [chunk_text] and [split_code] give their chunk files are the
    names their overwrite checks look for. *)
Lemma chunk_file_is_chunk_file (dir : Fs.path) (w i : Z) :
  Fs.is_chunk_file (Fs.child dir (chunk_file w i)) = true.
Proof.
  unfold Fs.is_chunk_file, Fs.suffix. rewrite name_child.
  unfold chunk_file, Fmt.chunk_name.
  apply andb_true_intro. split.
  { simpl. match goal with |- String.prefix EmptyString ?s = true => destruct s; reflexivity end. }
  rewrite list_ascii_app.
  set (stem := list_ascii_of_string ("chunk_" ++ Fmt.format_0d w i)).
  assert (Hstem : no_dot stem).
  { unfold stem. rewrite list_ascii_app. unfold no_dot. rewrite in_app_iff.
    intros [H | H]; [|exact (format_0d_no_dot _ _ H)].
    simpl in H. repeat (destruct H as [H | H]; [discriminate|]). exact H. }
  rewrite rfind_dot_app, (rfind_dot_no_dot stem) by exact Hstem.
  change (list_ascii_of_string ".txt") with ["."; "t"; "x"; "t"]%char.
  cbn [Fs.rfind_dot Ascii.eqb Bool.eqb].
  assert (Hlen : Py.len (stem ++ ["."; "t"; "x"; "t"]%char) = Py.len stem + 4).
  { unfold Py.len. rewrite length_app. simpl. lia. }
  assert (Hpos : 6 <= Py.len stem).
  { unfold stem. rewrite list_ascii_app. unfold Py.len. rewrite length_app. simpl. lia. }
  rewrite Z.add_0_l.
  destruct ((0 <? Py.len stem) && (Py.len stem <? Py.len (stem ++ ["."; "t"; "x"; "t"]%char) - 1)) eqn:E; [|lia].
  rewrite slice_inner by lia.
  rewrite Hlen. replace (Py.len stem + 4 - Py.len stem) with 4 by lia.
  unfold Py.len. rewrite Nat2Z.id, skipn_app, skipn_all, Nat.sub_diag.
  reflexivity.
Qed.

Lemma listdir_In_iff fs dir (p : Fs.path) :
  In p (Fs.listdir fs dir) <->
  (exists e, fs !! p = Some e) /\ p <> [] /\ Fs.parent p = dir.
Proof.
  split.
  - intros Hin. unfold Fs.listdir in Hin. apply filter_In in Hin as (Hin & Hd).
    apply bool_decide_eq_true in Hd as (Hne & Hpar).
    apply in_map_iff in Hin as ([q e] & Heq & Hin). simpl in Heq. subst q.
    apply list_elem_of_In, elem_of_map_to_list in Hin. eauto.
  - intros ((e & He) & Hne & Hpar). eapply listdir_In; eassumption.
Qed.

Lemma dirs_made_insert base rest fs (k : Fs.path) e :
  (forall pre post, rest = pre ++ post -> k <> base ++ pre) ->
  dirs_made base rest fs -> dirs_made base rest (<[k := e]> fs).
Proof.
  intros Hk Hm pre post Heq Hne. rewrite lookup_insert_ne; [eapply Hm; eassumption|].
  eapply Hk. eassumption.
Qed.

Lemma mkdir_from_made rest : forall base fs fs',
  Fs.mkdir_from base rest fs = (Ok tt, fs') -> dirs_made base rest fs'.
Proof.
  induction rest as [|c rest IH]; intros base fs fs' Hrun; simpl in Hrun.
  - intros pre post Heq Hne. destruct pre; [congruence | discriminate].
  - assert (Hstep : forall fs1, fs1 !! Fs.child base c = Some Fs.Dir ->
              Fs.mkdir_from (Fs.child base c) rest fs1 = (Ok tt, fs') ->
              dirs_made base (c :: rest) fs').
    { intros fs1 Hc Hrec pre post Heq Hne.
      destruct pre as [|c' pre]; [congruence|]. inversion Heq; subst c' rest.
      destruct pre as [|c2 pre].
      - destruct (mkdir_from_only_dirs _ _ _ _ _ Hrec (Fs.child base c))
          as [Hsame | (Hnone & _)]; [|congruence].
        etransitivity; [exact Hsame | exact Hc].
      - replace (base ++ c :: c2 :: pre) with (Fs.child base c ++ c2 :: pre)
          by (unfold Fs.child; rewrite <- app_assoc; reflexivity).
        eapply (IH _ _ _ Hrec); [reflexivity | discriminate]. }
    destruct (fs !! Fs.child base c) as [[data|]|] eqn:E; [discriminate | |].
    + eapply Hstep; eassumption.
    + eapply Hstep; [|exact Hrun]. apply lookup_insert_eq.
Qed.

Lemma mkdir_from_made_noop rest : forall base fs,
  dirs_made base rest fs -> Fs.mkdir_from base rest fs = (Ok tt, fs).
Proof.
  induction rest as [|c rest IH]; intros base fs Hm; simpl; [reflexivity|].
  assert (Hc0 : [c] <> []) by discriminate.
  assert (Hc : fs !! Fs.child base c = Some Fs.Dir) by exact (Hm [c] rest eq_refl Hc0).
  rewrite Hc.
  apply IH. intros pre post Heq Hne. unfold Fs.child. rewrite <- app_assoc.
  apply (Hm (c :: pre) post); [simpl; congruence | discriminate].
Qed.

(** [mkdir] leaves alone whatever is not on the way to its target. *)
Lemma mkdir_from_frame rest : forall base fs r fs' (p : Fs.path),
  Fs.mkdir_from base rest fs = (r, fs') ->
  (forall pre post, rest = pre ++ post -> p <> base ++ pre) ->
  fs' !! p = fs !! p.
Proof.
  induction rest as [|c rest IH]; intros base fs r fs' p Hrun Hp; simpl in Hrun.
  - inversion Hrun; subst. reflexivity.
  - assert (Hrec : forall pre post, rest = pre ++ post -> p <> Fs.child base c ++ pre).
    { intros pre post Heq. unfold Fs.child. rewrite <- app_assoc.
      apply (Hp (c :: pre) post). simpl. congruence. }
    destruct (fs !! Fs.child base c) as [[data|]|] eqn:E.
    + inversion Hrun; subst. reflexivity.
    + eapply IH; eassumption.
    + rewrite (IH _ _ _ _ p Hrun Hrec). apply lookup_insert_ne.
      intros Heq. apply (Hp [c] rest eq_refl). symmetry. exact Heq.
Qed.

(** ** What [chunk_text] writes, and where *)

Lemma child_not_nil (p : Fs.path) name : Fs.child p name <> [].
Proof. unfold Fs.child. destruct p; discriminate. Qed.

Lemma child_parent_name (p : Fs.path) : p <> [] -> p = Fs.child (Fs.parent p) (Fs.name p).
Proof. intros Hp. unfold Fs.child, Fs.parent, Fs.name. apply app_removelast_last. exact Hp. Qed.

Lemma child_not_self (p : Fs.path) name : Fs.child p name <> p.
Proof.
  unfold Fs.child. intros Heq. apply (f_equal (@length _)) in Heq.
  rewrite length_app in Heq. simpl in Heq. lia.
Qed.

Lemma output_chunk_file out w i : output_path out (Fs.child out (chunk_file w i)).
Proof.
  split; [apply child_not_nil|]. split; [apply parent_child|].
  left. apply chunk_file_is_chunk_file.
Qed.

Lemma output_index out : output_path out (Fs.child out "index.json").
Proof.
  split; [apply child_not_nil|]. split; [apply parent_child|].
  right. apply name_child.
Qed.

Lemma stat_insert_child fs (out : Fs.path) name e :
  Fs.stat (<[Fs.child out name := e]> fs) out = Fs.stat fs out.
Proof.
  unfold Fs.stat. destruct out as [|c out]; [reflexivity|].
  apply lookup_insert_ne. apply child_not_self.
Qed.

Lemma write_bytes_child fs (out : Fs.path) name d :
  Fs.stat fs out = Some Fs.Dir -> fs !! Fs.child out name <> Some Fs.Dir ->
  Fs.write_bytes (Fs.child out name) d fs
  = (Ok tt, <[Fs.child out name := Fs.File d]> fs).
Proof.
  intros Hout Hp. unfold Fs.write_bytes.
  rewrite parent_child, Hout, stat_child.
  destruct (fs !! Fs.child out name) as [[data|]|] eqn:E2;
    [| exfalso; apply Hp; reflexivity |];
    (destruct (Fs.child out name) as [|c q] eqn:E;
     [exfalso; eapply child_not_nil; exact E | reflexivity]).
Qed.

Lemma mkdir_from_changes rest : forall base fs r fs' (p : Fs.path),
  Fs.mkdir_from base rest fs = (r, fs') ->
  fs' !! p = fs !! p \/
  (fs !! p = None /\ fs' !! p = Some Fs.Dir /\
   exists pre post, rest = pre ++ post /\ p = base ++ pre).
Proof.
  induction rest as [|c rest IH]; intros base fs r fs' p Hrun; simpl in Hrun.
  - inversion Hrun; subst. left. reflexivity.
  - assert (Hpre : forall pre post, rest = pre ++ post -> p = Fs.child base c ++ pre ->
              exists pre' post', c :: rest = pre' ++ post' /\ p = base ++ pre').
    { intros pre post Hrest Hp. exists (c :: pre), post. split; [simpl; congruence|].
      rewrite Hp. unfold Fs.child. rewrite <- app_assoc. reflexivity. }
    destruct (fs !! Fs.child base c) as [[data|]|] eqn:E.
    + inversion Hrun; subst. left. reflexivity.
    + destruct (IH _ _ _ _ p Hrun) as [Heq | (Hnone & Hdir & pre & post & Hrest & Hp)];
        [left; exact Heq | right].
      repeat split; try assumption. eapply Hpre; eassumption.
    + destruct (IH _ _ _ _ p Hrun) as [Heq | (Hnone & Hdir & pre & post & Hrest & Hp)].
      * destruct (decide (Fs.child base c = p)) as [Hp | Hne].
        -- right. subst p. rewrite lookup_insert_eq in Heq.
           repeat split; try assumption.
           exists [c], rest. split; reflexivity.
        -- left. rewrite lookup_insert_ne in Heq by exact Hne. exact Heq.
      * right. destruct (decide (Fs.child base c = p)) as [Hp' | Hne].
        -- rewrite <- Hp' in Hnone. rewrite lookup_insert_eq in Hnone. discriminate.
        -- rewrite lookup_insert_ne in Hnone by exact Hne.
           repeat split; try assumption. eapply Hpre; eassumption.
Qed.

Lemma write_all_id kvs : forall fs,
  (forall k v, In (k, v) kvs -> fs !! k = Some (Fs.File v)) ->
  write_all kvs fs = fs.
Proof.
  induction kvs as [|[k v] kvs IH]; intros fs Hin; [reflexivity|].
  unfold write_all in *. simpl.
  rewrite insert_id by (apply Hin; left; reflexivity).
  apply IH. intros k' v' H'. apply Hin. right. exact H'.
Qed.

Lemma write_all_stat_out kvs (out : Fs.path) : forall fs,
  (forall k, In k (List.map fst kvs) -> exists name, k = Fs.child out name) ->
  Fs.stat (write_all kvs fs) out = Fs.stat fs out.
Proof.
  unfold Fs.stat. destruct out as [|c out]; [reflexivity|]. intros fs Hk.
  apply write_all_notin. intros Hin. apply Hk in Hin as (name & Heq).
  symmetry in Heq. exact (child_not_self _ _ Heq).
Qed.

Lemma dirs_made_child_insert (out : Fs.path) name e fs :
  dirs_made [] out fs -> dirs_made [] out (<[Fs.child out name := e]> fs).
Proof.
  apply dirs_made_insert. intros pre post Heq Hk. simpl in Hk.
  unfold Fs.child in Hk. subst pre. apply (f_equal (@length _)) in Heq.
  rewrite !length_app in Heq. simpl in Heq. lia.
Qed.

Lemma dirs_made_write_all kvs (out : Fs.path) : forall fs,
  (forall k, In k (List.map fst kvs) -> exists name, k = Fs.child out name) ->
  dirs_made [] out fs -> dirs_made [] out (write_all kvs fs).
Proof.
  induction kvs as [|[k v] kvs IH]; intros fs Hk Hm; [exact Hm|].
  unfold write_all in *. simpl. apply IH.
  - intros k' Hin. apply Hk. right. exact Hin.
  - destruct (Hk k) as (name & ->); [left; reflexivity|].
    apply dirs_made_child_insert. exact Hm.
Qed.

Lemma dirs_made_stat (out : Fs.path) fs :
  dirs_made [] out fs -> Fs.stat fs out = Some Fs.Dir.
Proof.
  intros Hm. unfold Fs.stat. destruct out as [|c out]; [reflexivity|].
  apply (Hm (c :: out) []); [rewrite app_nil_r; reflexivity | discriminate].
Qed.

Section EmitterWrites.
Context `{Hashlib} `{Codecs}.
Variable dumps_index : Fs.path -> Fs.path -> Z -> Z -> list ChunkText.Chunk -> text.

Lemma chunk_writes_child out t w items k :
  In k (List.map fst (chunk_writes out t w items)) -> exists name, k = Fs.child out name.
Proof.
  rewrite chunk_writes_keys. intros Hin. apply in_map_iff in Hin as (it & <- & _). eauto.
Qed.

Lemma chunk_writes_output out t w items k :
  In k (List.map fst (chunk_writes out t w items)) -> output_path out k.
Proof.
  rewrite chunk_writes_keys. intros Hin. apply in_map_iff in Hin as (it & <- & _).
  apply output_chunk_file.
Qed.

Lemma emit_chunks_changes out t nl w items acc fs (p : Fs.path) :
  snd (ChunkText.emit_chunks out t nl w items acc fs) !! p = fs !! p \/ output_path out p.
Proof.
  destruct (List.in_dec (List.list_eq_dec String.string_dec) p
              (List.map fst (chunk_writes out t w items))) as [Hin | Hnin].
  - right. eapply chunk_writes_output. exact Hin.
  - left. destruct (ChunkText.emit_chunks out t nl w items acc fs) as [r fs'] eqn:E.
    eapply emit_chunks_frame; eassumption.
Qed.

Lemma write_index_changes out s fs (p : Fs.path) :
  snd (ChunkText.write_text (Fs.child out "index.json") s fs) !! p = fs !! p
  \/ output_path out p.
Proof.
  unfold ChunkText.write_text.
  destruct (write_bytes_cases (Fs.child out "index.json") (text_file_bytes s) fs)
    as [-> | (e & ->)]; simpl; [|left; reflexivity].
  destruct (decide (Fs.child out "index.json" = p)) as [<- | Hne].
  - right. apply output_index.
  - left. apply lookup_insert_ne. exact Hne.
Qed.

(** The state [chunk_text] leaves is the one [mkdir] left, but for the
    output files. *)
Lemma chunk_text_state fuel src out M V enc force fs :
  exists r fs1,
    (fs1 = fs \/ Fs.mkdir_from [] out fs = (r, fs1)) /\
    forall p : Fs.path,
      snd (ChunkText.chunk_text dumps_index fuel src out M V enc force fs) !! p
      = fs1 !! p \/ output_path out p.
Proof.
  unfold ChunkText.chunk_text. io_unfold. unfold Fs.read_bytes.
  destruct (Fs.stat fs src) as [[raw|]|];
    try (exists (Ok tt), fs; split; [left; reflexivity | intros p; left; reflexivity]).
  destruct (decode enc raw) as [t|];
    try (exists (Ok tt), fs; split; [left; reflexivity | intros p; left; reflexivity]).
  unfold ChunkText._safe_mkdir, Fs.mkdir_parents.
  destruct (Fs.mkdir_from [] out fs) as [r fs1] eqn:Hmk.
  exists r, fs1. split; [right; reflexivity|]. intros p.
  destruct r as [[]|e|]; try (left; reflexivity).
  destruct (would_overwrite_total out fs1) as (clash & ->).
  destruct (clash && negb force); [left; reflexivity|].
  destruct (_iter_chunk_spans fuel t M V) as [spans|e|]; try (left; reflexivity).
  match goal with |- context [ChunkText.emit_chunks ?a ?b ?c ?d ?e ?f ?g] =>
    pose proof (emit_chunks_changes a b c d e f g p) as Hem;
    destruct (ChunkText.emit_chunks a b c d e f g) as [[cs|e'|] fs2] end;
    simpl in Hem; try exact Hem.
  destruct Hem as [Hem | Hout]; [|right; exact Hout].
  match goal with |- context [ChunkText.write_text ?q ?s ?f] =>
    pose proof (write_index_changes out s f p) as Hw;
    destruct (ChunkText.write_text q s f) as [[[]|e'|] fs3] end; simpl in *;
    (destruct Hw as [Hw | Hout]; [left; congruence | right; exact Hout]).
Qed.

(** X11. Whatever the arguments and however the run ends, a path whose entry
    [chunk_text] changed is either a directory that it made on the way to
    the output directory (nothing was there before), or a file directly in
    the output directory that is named [index.json] or like a chunk file. *)
Theorem chunk_text_changes_only_output fuel src out M V enc force fs (p : Fs.path) :
  snd (ChunkText.chunk_text dumps_index fuel src out M V enc force fs) !! p <> fs !! p ->
  (on_the_way out p /\ fs !! p = None /\
   snd (ChunkText.chunk_text dumps_index fuel src out M V enc force fs) !! p
   = Some Fs.Dir)
  \/ output_path out p.
Proof.
  intros Hch.
  destruct (chunk_text_state fuel src out M V enc force fs) as (r & fs1 & Hfs1 & Hst).
  destruct (Hst p) as [Heq | Hout]; [|right; exact Hout].
  destruct Hfs1 as [-> | Hmk]; [contradiction|].
  destruct (mkdir_from_changes _ _ _ _ _ p Hmk)
    as [Hsame | (Hnone & Hdir & pre & post & Hrest & Hp)]; [congruence|].
  left. split; [exists post; subst p; exact Hrest|].
  split; [exact Hnone | congruence].
Qed.

End EmitterWrites.

(** ** Runs of [chunk_text] that succeed *)

Section EmitterForward.
Context `{Hashlib} `{Codecs}.
Variable dumps_index : Fs.path -> Fs.path -> Z -> Z -> list ChunkText.Chunk -> text.

Lemma emit_chunks_run out t nl w items : forall acc fs,
  Fs.stat fs out = Some Fs.Dir ->
  (forall it, In it items -> fs !! Fs.child out (chunk_file w (fst it)) <> Some Fs.Dir) ->
  ChunkText.emit_chunks out t nl w items acc fs
  = (Ok (acc ++ List.map (fun it => ChunkText.chunk_record t nl w (fst it) (snd it)) items),
     write_all (chunk_writes out t w items) fs).
Proof.
  induction items as [|[i sp] items IH]; intros acc fs Hout Hfree; simpl.
  - io_unfold. rewrite app_nil_r. reflexivity.
  - io_unfold. unfold ChunkText.write_text. rewrite chunk_record_path.
    rewrite write_bytes_child; [| exact Hout | exact (Hfree (i, sp) (or_introl eq_refl))].
    rewrite IH.
    + rewrite <- app_assoc. reflexivity.
    + rewrite stat_insert_child. exact Hout.
    + intros it Hit Hdir.
      destruct (decide (Fs.child out (chunk_file w i) = Fs.child out (chunk_file w (fst it))))
        as [Heq | Hne].
      * rewrite <- Heq, lookup_insert_eq in Hdir. discriminate.
      * rewrite lookup_insert_ne in Hdir by exact Hne.
        exact (Hfree it (or_intror Hit) Hdir).
Qed.

(** The run of [chunk_text] when nothing is in its way. *)
Lemma chunk_text_run fuel src out M V enc force fs raw t fs1 spans :
  Fs.stat fs src = Some (Fs.File raw) -> decode enc raw = Some t ->
  Fs.mkdir_parents out fs = (Ok tt, fs1) ->
  force = true \/ fst (ChunkText._would_overwrite_existing_chunks out fs1) = Ok false ->
  _iter_chunk_spans fuel t M V = Ok spans ->
  (forall it, In it (ChunkText.enumerate_from 1 spans) ->
     fs1 !! Fs.child out (chunk_file (Fmt.id_width (Py.len spans)) (fst it))
     <> Some Fs.Dir) ->
  fs1 !! Fs.child out "index.json" <> Some Fs.Dir ->
  let w := Fmt.id_width (Py.len spans) in
  let nl := ChunkText._compute_newline_positions t in
  let items := ChunkText.enumerate_from 1 spans in
  let chunks := List.map (fun it => ChunkText.chunk_record t nl w (fst it) (snd it)) items in
  ChunkText.chunk_text dumps_index fuel src out M V enc force fs
  = (Ok chunks,
     <[Fs.child out "index.json" :=
         Fs.File (text_file_bytes (dumps_index src out M V chunks ++ [newline]))]>
       (write_all (chunk_writes out t w items) fs1)).
Proof.
  intros Hsrc Hdec Hmk Hclash Hsp Hfree Hidx. cbv zeta.
  unfold ChunkText.chunk_text. io_unfold. unfold Fs.read_bytes, ChunkText._safe_mkdir.
  rewrite Hsrc, Hdec, Hmk.
  destruct (would_overwrite_total out fs1) as (clash & Hwo). rewrite Hwo in *.
  assert (Hgo : clash && negb force = false).
  { destruct Hclash as [-> | Hc]; [apply andb_false_r|].
    simpl in Hc. inversion Hc; subst. reflexivity. }
  rewrite Hgo, Hsp.
  pose proof (mkdir_parents_is_dir _ _ _ Hmk) as Hout.
  rewrite (emit_chunks_run out t _ _ _ [] fs1 Hout) by exact Hfree.
  simpl app. unfold ChunkText.write_text.
  rewrite write_bytes_child; [reflexivity | |].
  - rewrite write_all_stat_out; [exact Hout|]. apply chunk_writes_child.
  - rewrite write_all_notin; [exact Hidx|].
    rewrite chunk_writes_keys. intros Hin. apply in_map_iff in Hin as (it & Heq & _).
    apply child_inj in Heq. exact (chunk_file_not_index _ _ Heq).
Qed.

Lemma chunk_text_ok_fst fuel src out M V enc force fs chunks :
  fst (ChunkText.chunk_text dumps_index fuel src out M V enc force fs) = Ok chunks ->
  ChunkText.chunk_text dumps_index fuel src out M V enc force fs
  = (Ok chunks, snd (ChunkText.chunk_text dumps_index fuel src out M V enc force fs)).
Proof. intros Hrun. apply run_ok_pair. exact Hrun. Qed.

(** The state after a successful run: the directories down to [out] are
    there, and every chunk file and the index hold what was written. *)
Lemma chunk_text_after fuel src out M V enc force fs chunks fs' :
  ChunkText.chunk_text dumps_index fuel src out M V enc force fs = (Ok chunks, fs') ->
  exists raw t spans,
    Fs.stat fs src = Some (Fs.File raw) /\ decode enc raw = Some t /\
    _iter_chunk_spans fuel t M V = Ok spans /\
    let w := Fmt.id_width (Py.len spans) in
    let nl := ChunkText._compute_newline_positions t in
    let items := ChunkText.enumerate_from 1 spans in
    chunks = List.map (fun it => ChunkText.chunk_record t nl w (fst it) (snd it)) items /\
    dirs_made [] out fs' /\
    (forall it, In it items ->
       fs' !! Fs.child out (chunk_file w (fst it)) = Some (Fs.File (span_bytes t (snd it)))) /\
    fs' !! Fs.child out "index.json"
      = Some (Fs.File (text_file_bytes (dumps_index src out M V chunks ++ [newline]))) /\
    (forall p : Fs.path, ~ output_path out p -> fs !! p <> None -> fs' !! p = fs !! p).
Proof.
  intros Hrun. pose proof Hrun as Hrun'. apply chunk_text_ok in Hrun
    as (raw & t & fs1 & spans & Hsrc & Hdec & Hmk & Hsp & Hchunks & Hfs).
  cbv zeta in Hchunks, Hfs. exists raw, t, spans. cbv zeta.
  repeat (split; [assumption|]).
  split; [|split; [|split]].
  - rewrite Hfs. apply dirs_made_child_insert, dirs_made_write_all.
    + apply chunk_writes_child.
    + eapply mkdir_from_made. exact Hmk.
  - intros [i sp] Hin. rewrite Hfs. simpl fst; simpl snd.
    rewrite lookup_insert_ne
      by (intros Heq; apply child_inj in Heq; symmetry in Heq;
          exact (chunk_file_not_index _ _ Heq)).
    apply write_all_in.
    + rewrite chunk_writes_keys. apply chunk_paths_NoDup.
      * apply enumerate_from_NoDup.
      * intros j x Hj. apply enumerate_from_ge in Hj. lia.
    + unfold chunk_writes. apply in_map_iff. exists (i, sp). split; [reflexivity | exact Hin].
  - rewrite Hfs. apply lookup_insert_eq.
  - intros p Hnot Hthere. rewrite Hfs.
    rewrite lookup_insert_ne by (intros <-; apply Hnot, output_index).
    rewrite write_all_notin by (intros Hin; eapply Hnot, chunk_writes_output; exact Hin).
    destruct (mkdir_from_only_dirs _ _ _ _ _ Hmk p) as [Heq | (Hnone & _)];
      [exact Heq | contradiction].
Qed.

(** X12. A second run into the same output directory without [force] is
    refused, whatever its source and parameters are, once a first run has
    written at least one chunk there; the refusal changes nothing. *)
Theorem chunk_text_rerun_refuses fuel src out M V enc force fs chunks
    fuel2 src2 M2 V2 enc2 raw2 t2 :
  fst (ChunkText.chunk_text dumps_index fuel src out M V enc force fs) = Ok chunks ->
  chunks <> [] ->
  Fs.stat (snd (ChunkText.chunk_text dumps_index fuel src out M V enc force fs)) src2
    = Some (Fs.File raw2) ->
  decode enc2 raw2 = Some t2 ->
  ChunkText.chunk_text dumps_index fuel2 src2 out M2 V2 enc2 false
    (snd (ChunkText.chunk_text dumps_index fuel src out M V enc force fs))
  = (Raise (RuntimeError "Refusing to overwrite existing chunk_*.txt files"),
     snd (ChunkText.chunk_text dumps_index fuel src out M V enc force fs)).
Proof.
  intros Hrun Hne Hsrc2 Hdec2. apply chunk_text_ok_fst in Hrun.
  set (fs' := snd (ChunkText.chunk_text dumps_index fuel src out M V enc force fs)) in *.
  apply chunk_text_after in Hrun
    as (raw & t & spans & Hsrc & Hdec & Hsp & Hchunks & Hmade & Hfiles & Hidx & Hkeep).
  cbv zeta in Hchunks, Hfiles.
  eapply chunk_text_refuses_overwrite; [exact Hsrc2 | exact Hdec2 | |].
  - apply mkdir_from_made_noop. exact Hmade.
  - unfold ChunkText._would_overwrite_existing_chunks. io_unfold.
    unfold Fs.exists_, Fs.is_dir, Fs.iterdir.
    pose proof (dirs_made_stat _ _ Hmade) as Hst.
    repeat (progress (simpl; rewrite ?Hst)). f_equal.
    destruct (ChunkText.enumerate_from 1 spans) as [|[i sp] items] eqn:E;
      [subst chunks; contradiction|].
    apply existsb_exists.
    exists (Fs.child out (chunk_file (Fmt.id_width (Py.len spans)) i)).
    split; [|apply chunk_file_is_chunk_file].
    eapply listdir_In;
      [exact (Hfiles (i, sp) (or_introl eq_refl)) | apply child_not_nil | apply parent_child].
Qed.

(** X13. A run with [force] that repeats a successful run — same source,
    same parameters, same output directory — returns the same records and
    leaves the file system as it found it, provided the source is not
    itself a file of the output directory. *)
Theorem chunk_text_force_rerun_same fuel src out M V enc force fs chunks :
  fst (ChunkText.chunk_text dumps_index fuel src out M V enc force fs) = Ok chunks ->
  Fs.parent src <> out ->
  ChunkText.chunk_text dumps_index fuel src out M V enc true
    (snd (ChunkText.chunk_text dumps_index fuel src out M V enc force fs))
  = (Ok chunks, snd (ChunkText.chunk_text dumps_index fuel src out M V enc force fs)).
Proof.
  intros Hrun Hpar. apply chunk_text_ok_fst in Hrun.
  set (fs' := snd (ChunkText.chunk_text dumps_index fuel src out M V enc force fs)) in *.
  apply chunk_text_after in Hrun
    as (raw & t & spans & Hsrc & Hdec & Hsp & Hchunks & Hmade & Hfiles & Hidx & Hkeep).
  cbv zeta in Hchunks, Hfiles.
  assert (Hsrc' : Fs.stat fs' src = Some (Fs.File raw)).
  { unfold Fs.stat in *. destruct src as [|c src]; [discriminate|].
    rewrite Hkeep; [exact Hsrc | | rewrite Hsrc; discriminate].
    intros (_ & Hp & _). exact (Hpar Hp). }
  rewrite (chunk_text_run fuel src out M V enc true fs' raw t fs' spans Hsrc' Hdec).
  - cbv zeta. rewrite <- Hchunks. f_equal.
    rewrite write_all_id.
    + apply insert_id. exact Hidx.
    + intros k v Hin. unfold chunk_writes in Hin.
      apply in_map_iff in Hin as (it & Heq & Hin). inversion Heq; subst.
      apply Hfiles. exact Hin.
  - apply mkdir_from_made_noop. exact Hmade.
  - left. reflexivity.
  - exact Hsp.
  - intros it Hin Hdir. rewrite (Hfiles it Hin) in Hdir. discriminate.
  - rewrite Hidx. discriminate.
Qed.

End EmitterForward.

Lemma chunk_name_inj width i j :
  0 <= i -> 0 <= j -> Fmt.chunk_name width i = Fmt.chunk_name width j -> i = j.
Proof.
  intros Hi Hj Heq. apply (chunk_file_inj width); [exact Hi | exact Hj|].
  unfold chunk_file. rewrite Heq. reflexivity.
Qed.

Lemma enumerate_from_length {A} (l : list A) : forall k,
  length (ChunkText.enumerate_from k l) = length l.
Proof. induction l as [|x l IH]; intros k; simpl; [reflexivity | f_equal; apply IH]. Qed.

Lemma enumerate_from_relabel {A B C} (F : Z -> A -> B) (G : Z -> C) (h : B -> C)
    (l : list A) : forall k,
  (forall i x, h (F i x) = G i) ->
  List.map h (List.map (fun it => F (fst it) (snd it)) (ChunkText.enumerate_from k l))
  = List.map (fun it => G (fst it))
      (ChunkText.enumerate_from k
         (List.map (fun it => F (fst it) (snd it)) (ChunkText.enumerate_from k l))).
Proof.
  intros k Hh. rewrite List.map_map.
  assert (Hgen : forall (l : list A) k k',
            List.map (fun it => h (F (fst it) (snd it))) (ChunkText.enumerate_from k l)
            = List.map (fun it => G (fst it))
                (ChunkText.enumerate_from k
                   (List.map (fun it => F (fst it) (snd it))
                      (ChunkText.enumerate_from k' l)))).
  { clear l k. induction l as [|x l IH]; intros k k'; simpl; [reflexivity|].
    rewrite Hh. f_equal. apply IH. }
  apply Hgen.
Qed.

Lemma translate_newlines_posix `{Codecs} (s : text) :
  linesep = [newline] -> translate_newlines s = s.
Proof.
  intros Hsep. unfold translate_newlines. rewrite Hsep.
  induction s as [|c s IH]; simpl; [reflexivity|]. rewrite IH.
  destruct (is_newline c) eqn:E; [|reflexivity].
  apply is_newline_eq in E. subst c. reflexivity.
Qed.

Section EmitterRecords.
Context `{Hashlib} `{Codecs}.
Variable dumps_index : Fs.path -> Fs.path -> Z -> Z -> list ChunkText.Chunk -> text.

(** X14. The records of a successful run are numbered from 1 in the order
    of the spans: record [i] has the identifier [chunk_] followed by [i]
    zero-padded to [max(4, len(str(n)))] digits, for [n] records, and its
    file is named by the identifier followed by [.txt]; no two records
    share an identifier or a file. *)
Theorem chunk_text_ids fuel src out M V enc force fs chunks :
  fst (ChunkText.chunk_text dumps_index fuel src out M V enc force fs) = Ok chunks ->
  List.map (fun c => (ChunkText.chunk_id c, ChunkText.path c)) chunks
  = List.map (fun it => (Fmt.chunk_name (Fmt.id_width (Py.len chunks)) (fst it),
                         (Fmt.chunk_name (Fmt.id_width (Py.len chunks)) (fst it)
                            ++ ".txt")%string))
      (ChunkText.enumerate_from 1 chunks) /\
  List.NoDup (List.map ChunkText.chunk_id chunks) /\
  List.NoDup (List.map ChunkText.path chunks).
Proof.
  intros Hrun. apply chunk_text_ok_fst in Hrun.
  apply chunk_text_after in Hrun
    as (raw & t & spans & Hsrc & Hdec & Hsp & Hchunks & _).
  cbv zeta in Hchunks.
  assert (Hlen : Py.len chunks = Py.len spans).
  { rewrite Hchunks. unfold Py.len. rewrite length_map, enumerate_from_length. reflexivity. }
  rewrite Hlen.
  assert (Hmap : List.map (fun c => (ChunkText.chunk_id c, ChunkText.path c)) chunks
    = List.map (fun it => (Fmt.chunk_name (Fmt.id_width (Py.len spans)) (fst it),
                           (Fmt.chunk_name (Fmt.id_width (Py.len spans)) (fst it)
                              ++ ".txt")%string))
        (ChunkText.enumerate_from 1 chunks)).
  { rewrite Hchunks.
    apply (enumerate_from_relabel
             (fun i sp => ChunkText.chunk_record t
                            (ChunkText._compute_newline_positions t)
                            (Fmt.id_width (Py.len spans)) i sp)
             (fun i => (Fmt.chunk_name (Fmt.id_width (Py.len spans)) i,
                        (Fmt.chunk_name (Fmt.id_width (Py.len spans)) i ++ ".txt")%string))).
    intros i [s e]. reflexivity. }
  split; [exact Hmap|].
  assert (Hge : forall i c, In (i, c) (ChunkText.enumerate_from 1 chunks) -> 0 <= i).
  { intros i c Hin. apply enumerate_from_ge in Hin. lia. }
  pose proof (enumerate_from_NoDup chunks 1) as Hnd.
  revert Hmap Hnd Hge. generalize (ChunkText.enumerate_from 1 chunks) as items.
  generalize (Fmt.id_width (Py.len spans)) as w. intros w items Hmap Hnd Hge.
  assert (Hid : List.map ChunkText.chunk_id chunks
                = List.map (fun it => Fmt.chunk_name w (fst it)) items).
  { apply (f_equal (List.map fst)) in Hmap. rewrite !List.map_map in Hmap. exact Hmap. }
  assert (Hpath : List.map ChunkText.path chunks
                  = List.map (fun it => chunk_file w (fst it)) items).
  { apply (f_equal (List.map snd)) in Hmap. rewrite !List.map_map in Hmap. exact Hmap. }
  rewrite Hid, Hpath. clear Hmap Hid Hpath.
  induction items as [|[i c] items IH]; simpl; [split; constructor|].
  apply NoDup_cons_iff in Hnd as [Hni Hnd].
  destruct IH as [IH1 IH2]; [exact Hnd | intros; eapply Hge; right; eassumption|].
  assert (Hi : 0 <= i) by (eapply Hge; left; reflexivity).
  split; constructor; try assumption.
  - intros Hin. apply in_map_iff in Hin as ([j c'] & Heq & Hin). simpl in Heq.
    apply chunk_name_inj in Heq; [| eapply Hge; right; eassumption | exact Hi].
    subst j. apply Hni. apply in_map_iff. exists (i, c'). split; [reflexivity | exact Hin].
  - intros Hin. apply in_map_iff in Hin as ([j c'] & Heq & Hin). simpl in Heq.
    apply chunk_file_inj in Heq; [| eapply Hge; right; eassumption | exact Hi].
    subst j. apply Hni. apply in_map_iff. exists (i, c'). split; [reflexivity | exact Hin].
Qed.

(** X15. After a successful run the offsets of the records are the spans
    [_iter_chunk_spans] returned for the decoded source; each chunk file
    holds what [write_text] makes of the slice of the text between its
    record's offsets, the UTF-8 bytes of the slice with every newline
    replaced by [os.linesep], while the [sha256] of the record is the
    digest of the UTF-8 bytes of the slice itself; [index.json] holds the
    serialised index followed by a newline, written the same way. Where
    [os.linesep] is the newline, the bytes of every chunk file are the
    bytes whose digest is in its record. *)
Theorem chunk_text_files fuel src out M V enc force fs chunks :
  fst (ChunkText.chunk_text dumps_index fuel src out M V enc force fs) = Ok chunks ->
  exists raw t,
    Fs.stat fs src = Some (Fs.File raw) /\ decode enc raw = Some t /\
    _iter_chunk_spans fuel t M V = Ok (List.map bounds chunks) /\
    Forall (fun c =>
              Fs.stat (snd (ChunkText.chunk_text dumps_index fuel src out M V enc force fs))
                (Fs.child out (ChunkText.path c))
              = Some (Fs.File (encode_utf8 (translate_newlines
                   (Py.slice t (ChunkText.start_char c) (ChunkText.end_char c))))) /\
              ChunkText.sha256 c
              = sha256_hexdigest (encode_utf8
                   (Py.slice t (ChunkText.start_char c) (ChunkText.end_char c))))
           chunks /\
    Fs.stat (snd (ChunkText.chunk_text dumps_index fuel src out M V enc force fs))
      (Fs.child out "index.json")
    = Some (Fs.File (encode_utf8 (translate_newlines
         (dumps_index src out M V chunks ++ [newline])))) /\
    (linesep = [newline] ->
     Forall (fun c => exists data,
               Fs.stat (snd (ChunkText.chunk_text dumps_index fuel src out M V enc
                               force fs))
                 (Fs.child out (ChunkText.path c)) = Some (Fs.File data) /\
               ChunkText.sha256 c = sha256_hexdigest data) chunks).
Proof.
  intros Hrun. apply chunk_text_ok_fst in Hrun.
  set (fs' := snd (ChunkText.chunk_text dumps_index fuel src out M V enc force fs)) in *.
  apply chunk_text_after in Hrun
    as (raw & t & spans & Hsrc & Hdec & Hsp & Hchunks & Hmade & Hfiles & Hidx & Hkeep).
  cbv zeta in Hchunks, Hfiles. exists raw, t.
  split; [exact Hsrc|]. split; [exact Hdec|].
  assert (Hall : Forall (fun c =>
              Fs.stat fs' (Fs.child out (ChunkText.path c))
              = Some (Fs.File (encode_utf8 (translate_newlines
                   (Py.slice t (ChunkText.start_char c) (ChunkText.end_char c))))) /\
              ChunkText.sha256 c
              = sha256_hexdigest (encode_utf8
                   (Py.slice t (ChunkText.start_char c) (ChunkText.end_char c))))
           chunks).
  { rewrite Hchunks. apply List.Forall_forall. intros c Hc.
    apply in_map_iff in Hc as ([i [s e]] & <- & Hin).
    rewrite stat_child, chunk_record_path. split; [exact (Hfiles _ Hin) | reflexivity]. }
  split; [|split; [exact Hall|split]].
  - rewrite Hsp. f_equal. rewrite Hchunks, List.map_map.
    rewrite <- (enumerate_from_snd spans 1) at 1.
    apply map_ext. intros [i [s e]]. reflexivity.
  - rewrite stat_child. exact Hidx.
  - intros Hsep. eapply List.Forall_impl; [|exact Hall].
    intros c (Hfile & Hsha). eexists. split; [exact Hfile|].
    rewrite translate_newlines_posix by exact Hsep. exact Hsha.
Qed.

(** X16. [chunk_text] returns when nothing is in its way: the source is a
    file that decodes, the parameters are valid with an overlap of at most
    [int(0.6 * max_chars)], the output directory can be made, it holds no
    earlier chunk file unless [force] is given, and no directory below it
    has the name of an output file. *)
Theorem chunk_text_succeeds fuel src out M V enc force fs raw t :
  Fs.stat fs src = Some (Fs.File raw) -> decode enc raw = Some t ->
  valid_config M V -> V <= Py.int_times_min_ratio M -> (length t < fuel)%nat ->
  fst (ChunkText._safe_mkdir out fs) = Ok tt ->
  force = true \/
  fst (ChunkText._would_overwrite_existing_chunks out
         (snd (ChunkText._safe_mkdir out fs))) = Ok false ->
  existsb (blocks_output (snd (ChunkText._safe_mkdir out fs)))
          (Fs.listdir (snd (ChunkText._safe_mkdir out fs)) out) = false ->
  exists chunks,
    fst (ChunkText.chunk_text dumps_index fuel src out M V enc force fs) = Ok chunks.
Proof.
  intros Hsrc Hdec Hcfg HV Hfuel Hmk Hclash Hfree.
  apply run_ok_pair in Hmk. destruct (ChunkText._safe_mkdir out fs) as [r fs1] eqn:Emk.
  simpl in *. inversion Hmk; subst r. clear Hmk.
  destruct (iter_chunk_spans_returns t M V Hcfg HV fuel Hfuel) as (spans & Hsp).
  assert (Hnot : forall p : Fs.path,
            p <> [] -> Fs.parent p = out ->
            Fs.is_chunk_file p = true \/ Fs.name p = "index.json"%string ->
            fs1 !! p <> Some Fs.Dir).
  { intros p Hp Hpar Hname Hdir.
    assert (Hin : In p (Fs.listdir fs1 out)) by (eapply listdir_In; eassumption).
    assert (Hb : blocks_output fs1 p = true).
    { unfold blocks_output, Fs.is_dir, Fs.stat. destruct p; [congruence|].
      rewrite Hdir. simpl. destruct Hname as [-> | ->]; [reflexivity|].
      apply orb_true_r. }
    assert (Hex : existsb (blocks_output fs1) (Fs.listdir fs1 out) = true)
      by (apply existsb_exists; eauto).
    congruence. }
  eexists.
  rewrite (chunk_text_run dumps_index fuel src out M V enc force fs raw t fs1 spans
             Hsrc Hdec Emk Hclash Hsp); [reflexivity | |].
  - intros it _. apply Hnot; [apply child_not_nil | apply parent_child|].
    left. apply chunk_file_is_chunk_file.
  - apply Hnot; [apply child_not_nil | apply parent_child|]. right. apply name_child.
Qed.

(** X17. An empty source gives no chunk: with valid parameters the run
    returns the empty list and writes the index (of no chunk) and nothing
    else beyond the output directory it made. *)
Theorem chunk_text_empty_source fuel src out M V enc force fs raw :
  Fs.stat fs src = Some (Fs.File raw) -> decode enc raw = Some [] ->
  valid_config M V -> (0 < fuel)%nat ->
  fst (ChunkText._safe_mkdir out fs) = Ok tt ->
  force = true \/
  fst (ChunkText._would_overwrite_existing_chunks out
         (snd (ChunkText._safe_mkdir out fs))) = Ok false ->
  snd (ChunkText._safe_mkdir out fs) !! Fs.child out "index.json" <> Some Fs.Dir ->
  ChunkText.chunk_text dumps_index fuel src out M V enc force fs
  = (Ok [],
     <[Fs.child out "index.json" :=
         Fs.File (text_file_bytes (dumps_index src out M V [] ++ [newline]))]>
       (snd (ChunkText._safe_mkdir out fs))).
Proof.
  intros Hsrc Hdec Hcfg Hfuel Hmk Hclash Hidx.
  apply run_ok_pair in Hmk. destruct (ChunkText._safe_mkdir out fs) as [r fs1] eqn:Emk.
  simpl in *. inversion Hmk; subst r. clear Hmk.
  assert (Hsp : _iter_chunk_spans fuel [] M V = Ok []).
  { destruct Hcfg as (HM & HV). unfold _iter_chunk_spans.
    destruct (M <=? 0) eqn:E1; [lia|]. destruct (V <? 0) eqn:E2; [lia|].
    destruct (V >=? M) eqn:E3; [lia|].
    destruct fuel as [|fuel]; [lia|]. reflexivity. }
  rewrite (chunk_text_run dumps_index fuel src out M V enc force fs raw [] fs1 []
             Hsrc Hdec Emk Hclash Hsp); [reflexivity | | exact Hidx].
  intros it [].
Qed.

Lemma chunk_text_source_unchanged fuel src out M V enc force fs :
  Fs.parent src <> out ->
  snd (ChunkText.chunk_text dumps_index fuel src out M V enc force fs) !! src
  = fs !! src.
Proof.
  intros Hpar.
  destruct (Fs.stat fs src) as [[raw|]|] eqn:Hsrc.
  - destruct (chunk_text_state dumps_index fuel src out M V enc force fs)
      as (r & fs1 & Hfs1 & Hst).
    destruct (Hst src) as [Heq | (_ & Hp & _)]; [|contradiction].
    rewrite Heq. destruct Hfs1 as [-> | Hmk]; [reflexivity|].
    destruct (mkdir_from_changes _ _ _ _ _ src Hmk) as [Hsame | (Hnone & _)];
      [exact Hsame|].
    unfold Fs.stat in Hsrc. destruct src; [discriminate | congruence].
  - unfold ChunkText.chunk_text. io_unfold. unfold Fs.read_bytes. rewrite Hsrc.
    reflexivity.
  - unfold ChunkText.chunk_text. io_unfold. unfold Fs.read_bytes. rewrite Hsrc.
    reflexivity.
Qed.

(** X18. [chunk_text] never changes its source, however the run ends,
    unless the source lies directly in the output directory. *)
Theorem chunk_text_keeps_source fuel src out M V enc force fs :
  Fs.parent src <> out ->
  snd (ChunkText.chunk_text dumps_index fuel src out M V enc force fs) !! src
  = fs !! src.
Proof. exact (chunk_text_source_unchanged fuel src out M V enc force fs). Qed.

End EmitterRecords.

(** X9. [_would_overwrite_existing_chunks] never raises and changes
    nothing; it answers [True] exactly when the output path is a file, or
    is a directory with an entry directly below it whose name starts with
    [chunk_] and has the suffix [.txt]. *)
Theorem would_overwrite_existing_chunks_spec (out : Fs.path) (fs : gmap Fs.path Fs.entry) :
  exists clash,
    ChunkText._would_overwrite_existing_chunks out fs = (Ok clash, fs) /\
    (clash = true <->
     (exists data, Fs.stat fs out = Some (Fs.File data)) \/
     (Fs.stat fs out = Some Fs.Dir /\
      exists p : Fs.path, (exists e, fs !! p = Some e) /\ p <> [] /\
                          Fs.parent p = out /\ Fs.is_chunk_file p = true)).
Proof.
  unfold ChunkText._would_overwrite_existing_chunks. io_unfold.
  unfold Fs.exists_, Fs.is_dir, Fs.iterdir.
  destruct (Fs.stat fs out) as [[data|]|] eqn:E;
    repeat (progress (simpl; rewrite ?E)); eexists; (split; [reflexivity|]).
  - split; [intros _; left; eauto | reflexivity].
  - rewrite existsb_exists. split.
    + intros (p & Hin & Hp). right. split; [reflexivity|]. exists p.
      apply listdir_In_iff in Hin as (He & Hne & Hpar). auto.
    + intros [(data & Hd) | (_ & p & He & Hne & Hpar & Hp)]; [discriminate|].
      exists p. split; [apply listdir_In_iff; auto | exact Hp].
  - split; [discriminate|]. intros [(data & Hd) | (Hd & _)]; discriminate.
Qed.

(** ** The entry point of chunk_text.py *)

Section EmitterMain.
Context `{Hashlib} `{Codecs}.
Variable dumps_index : Fs.path -> Fs.path -> Z -> Z -> list ChunkText.Chunk -> text.
Variable str_path : Fs.path -> string.

(** X19. [main] of chunk_text.py never raises. It returns 2 and leaves the
    file system alone exactly when the source is not a regular file;
    otherwise it leaves the state [chunk_text] leaves, and returns 0 with a
    line on stdout when [chunk_text] returns and 1 with a line on stderr
    when it raises. *)
Theorem chunk_text_main_exit_code fuel args fs :
  (Fs.is_file fs (ChunkText.arg_source args) = false ->
   exists line,
     ChunkText.main dumps_index str_path fuel args fs = (Ok (2, Stderr line), fs)) /\
  (Fs.is_file fs (ChunkText.arg_source args) = true ->
   snd (ChunkText.main dumps_index str_path fuel args fs)
   = snd (ChunkText.chunk_text dumps_index fuel (ChunkText.arg_source args)
            (ChunkText.out_dir_of args) (ChunkText.arg_max_chars args)
            (ChunkText.arg_overlap_chars args) (ChunkText.arg_encoding args)
            (ChunkText.arg_force args) fs) /\
   match fst (ChunkText.chunk_text dumps_index fuel (ChunkText.arg_source args)
                (ChunkText.out_dir_of args) (ChunkText.arg_max_chars args)
                (ChunkText.arg_overlap_chars args) (ChunkText.arg_encoding args)
                (ChunkText.arg_force args) fs) with
   | Ok chunks =>
       exists line,
         fst (ChunkText.main dumps_index str_path fuel args fs) = Ok (0, Stdout line)
   | Raise e =>
       exists line,
         fst (ChunkText.main dumps_index str_path fuel args fs) = Ok (1, Stderr line)
   | Spin => fst (ChunkText.main dumps_index str_path fuel args fs) = Spin
   end).
Proof.
  unfold ChunkText.main. io_unfold. unfold Fs.exists_, Fs.is_file.
  destruct (Fs.stat fs (ChunkText.arg_source args)) as [[raw|]|] eqn:E;
    repeat (progress (simpl; rewrite ?E)).
  - split; [discriminate|]. intros _.
    destruct (ChunkText.chunk_text _ _ _ _ _ _ _ _ fs) as [[chunks|e|] fs'];
      simpl; split; eauto.
  - split; [eauto | discriminate].
  - split; [eauto | discriminate].
Qed.

(** X20. With the default output directory, [chunks/<stem>] beside the
    source, [main] never changes the source. *)
Theorem chunk_text_main_keeps_source fuel args fs :
  ChunkText.arg_out_dir args = None ->
  snd (ChunkText.main dumps_index str_path fuel args fs) !! ChunkText.arg_source args
  = fs !! ChunkText.arg_source args.
Proof.
  intros Hnone.
  assert (Hkept := chunk_text_source_unchanged dumps_index fuel
            (ChunkText.arg_source args) (ChunkText.out_dir_of args)
            (ChunkText.arg_max_chars args) (ChunkText.arg_overlap_chars args)
            (ChunkText.arg_encoding args) (ChunkText.arg_force args) fs).
  unfold ChunkText.main. io_unfold. unfold Fs.exists_, Fs.is_file.
  destruct (Fs.stat fs (ChunkText.arg_source args)) as [[raw|]|] eqn:E;
    repeat (progress (simpl; rewrite ?E)); try reflexivity.
  destruct (ChunkText.chunk_text _ _ _ _ _ _ _ _ fs) as [[chunks|e|] fs'];
    simpl in *; apply Hkept;
    unfold ChunkText.out_dir_of; rewrite Hnone; intros Heq;
    apply (f_equal (@length _)) in Heq; rewrite length_app in Heq; simpl in Heq; lia.
Qed.

End EmitterMain.

Lemma chunk_text_changes_only_output_witness :
  (on_the_way ["out"%string] ["out"; "chunk_0001.txt"]%string /\
   small_fs !! (["out"; "chunk_0001.txt"]%string : Fs.path) = None /\
   snd small_run !! (["out"; "chunk_0001.txt"]%string : Fs.path) = Some Fs.Dir)
  \/ output_path ["out"%string] ["out"; "chunk_0001.txt"]%string.
Proof.
  apply (@chunk_text_changes_only_output length_hashlib byte_codecs no_index 10%nat
           ["in.txt"%string] ["out"%string] 8 2 "utf-8"%string false small_fs).
  vm_compute. discriminate.
Defined.

Lemma chunk_text_rerun_refuses_witness :
  @ChunkText.chunk_text length_hashlib byte_codecs no_index 3
    ["in.txt"%string] ["out"%string] 5 0 "latin-1" false (snd small_run)
  = (Raise (RuntimeError "Refusing to overwrite existing chunk_*.txt files"),
     snd small_run).
Proof.
  apply (@chunk_text_rerun_refuses length_hashlib byte_codecs no_index 10%nat
           ["in.txt"%string] ["out"%string] 8 2 "utf-8"%string false small_fs
           (ok_or_nil (fst small_run)) 3%nat ["in.txt"%string] 5 0 "latin-1"%string
           small_source (List.map ascii_of_byte small_source)).
  - vm_compute. reflexivity.
  - vm_compute. discriminate.
  - vm_compute. reflexivity.
  - reflexivity.
Defined.

Lemma chunk_text_force_rerun_same_witness :
  @ChunkText.chunk_text length_hashlib byte_codecs no_index 10
    ["in.txt"%string] ["out"%string] 8 2 "utf-8" true (snd small_run)
  = (Ok (ok_or_nil (fst small_run)), snd small_run).
Proof.
  apply (@chunk_text_force_rerun_same length_hashlib byte_codecs no_index 10%nat
           ["in.txt"%string] ["out"%string] 8 2 "utf-8"%string false small_fs
           (ok_or_nil (fst small_run))).
  - vm_compute. reflexivity.
  - vm_compute. discriminate.
Defined.

Lemma chunk_text_ids_witness :
  List.map (fun c => (ChunkText.chunk_id c, ChunkText.path c)) (ok_or_nil (fst small_run))
  = List.map (fun it =>
       (Fmt.chunk_name (Fmt.id_width (Py.len (ok_or_nil (fst small_run)))) (fst it),
        (Fmt.chunk_name (Fmt.id_width (Py.len (ok_or_nil (fst small_run)))) (fst it)
           ++ ".txt")%string))
      (ChunkText.enumerate_from 1 (ok_or_nil (fst small_run))) /\
  List.NoDup (List.map ChunkText.chunk_id (ok_or_nil (fst small_run))) /\
  List.NoDup (List.map ChunkText.path (ok_or_nil (fst small_run))).
Proof.
  apply (@chunk_text_ids length_hashlib byte_codecs no_index 10%nat
           ["in.txt"%string] ["out"%string] 8 2 "utf-8"%string false small_fs).
  vm_compute. reflexivity.
Defined.

Lemma chunk_text_files_witness :
  exists raw t,
    Fs.stat small_fs ["in.txt"%string] = Some (Fs.File raw) /\
    @decode byte_codecs "utf-8" raw = Some t /\
    _iter_chunk_spans 10 t 8 2 = Ok (List.map bounds (ok_or_nil (fst small_run))) /\
    Forall (fun c =>
              Fs.stat (snd small_run) (Fs.child ["out"%string] (ChunkText.path c))
              = Some (Fs.File (@encode_utf8 byte_codecs (@translate_newlines byte_codecs
                   (Py.slice t (ChunkText.start_char c) (ChunkText.end_char c))))) /\
              ChunkText.sha256 c
              = @sha256_hexdigest length_hashlib (@encode_utf8 byte_codecs
                   (Py.slice t (ChunkText.start_char c) (ChunkText.end_char c))))
           (ok_or_nil (fst small_run)) /\
    Fs.stat (snd small_run) (Fs.child ["out"%string] "index.json")
    = Some (Fs.File (@encode_utf8 byte_codecs (@translate_newlines byte_codecs
         (no_index ["in.txt"%string] ["out"%string] 8 2 (ok_or_nil (fst small_run))
          ++ [newline])))) /\
    (@linesep byte_codecs = [newline] ->
     Forall (fun c => exists data,
               Fs.stat (snd small_run) (Fs.child ["out"%string] (ChunkText.path c))
               = Some (Fs.File data) /\
               ChunkText.sha256 c = @sha256_hexdigest length_hashlib data)
            (ok_or_nil (fst small_run))).
Proof.
  apply (@chunk_text_files length_hashlib byte_codecs no_index 10%nat
           ["in.txt"%string] ["out"%string] 8 2 "utf-8"%string false small_fs).
  vm_compute. reflexivity.
Defined.

Lemma chunk_text_succeeds_witness :
  exists chunks,
    fst (@ChunkText.chunk_text length_hashlib byte_codecs no_index 20
           ["in.txt"%string] ["out"%string] 8 2 "utf-8" false small_fs) = Ok chunks.
Proof.
  apply (@chunk_text_succeeds length_hashlib byte_codecs no_index 20%nat
           ["in.txt"%string] ["out"%string] 8 2 "utf-8"%string false small_fs
           small_source (List.map ascii_of_byte small_source)).
  - reflexivity.
  - reflexivity.
  - unfold valid_config. lia.
  - vm_compute. discriminate.
  - vm_compute. lia.
  - vm_compute. reflexivity.
  - right. vm_compute. reflexivity.
  - vm_compute. reflexivity.
Defined.

Lemma chunk_text_empty_source_witness :
  @ChunkText.chunk_text length_hashlib byte_codecs no_index 1
    ["in.txt"%string] ["out"%string] 8 2 "utf-8" false empty_source_fs
  = (Ok [],
     <[Fs.child ["out"%string] "index.json" :=
         Fs.File (@text_file_bytes byte_codecs
           (no_index ["in.txt"%string] ["out"%string] 8 2 [] ++ [newline]))]>
       (snd (ChunkText._safe_mkdir ["out"%string] empty_source_fs))).
Proof.
  apply (@chunk_text_empty_source length_hashlib byte_codecs no_index 1%nat
           ["in.txt"%string] ["out"%string] 8 2 "utf-8"%string false empty_source_fs []).
  - reflexivity.
  - reflexivity.
  - unfold valid_config. lia.
  - lia.
  - vm_compute. reflexivity.
  - right. vm_compute. reflexivity.
  - vm_compute. discriminate.
Defined.

Lemma chunk_text_keeps_source_witness :
  snd small_run !! (["in.txt"%string] : Fs.path)
  = small_fs !! (["in.txt"%string] : Fs.path).
Proof.
  apply (@chunk_text_keeps_source length_hashlib byte_codecs no_index 10%nat
           ["in.txt"%string] ["out"%string] 8 2 "utf-8"%string false small_fs).
  vm_compute. discriminate.
Defined.

Lemma chunk_text_main_keeps_source_witness :
  snd (@ChunkText.main length_hashlib byte_codecs no_index plain_path 10 small_args
         small_fs) !! (["in.txt"%string] : Fs.path)
  = small_fs !! (["in.txt"%string] : Fs.path).
Proof.
  apply (@chunk_text_main_keeps_source length_hashlib byte_codecs no_index plain_path
           10%nat small_args small_fs).
  reflexivity.
Defined.

(** ** The walk of the source tree *)

Lemma Fs_stat_lookup fs (p : Fs.path) : p <> [] -> Fs.stat fs p = fs !! p.
Proof. intros Hp. destruct p; [congruence | reflexivity]. Qed.

Lemma is_dir_lookup fs (p : Fs.path) :
  p <> [] -> Fs.is_dir fs p = true <-> fs !! p = Some Fs.Dir.
Proof.
  intros Hp. unfold Fs.is_dir. rewrite <- (Fs_stat_lookup fs p Hp).
  destruct (Fs.stat fs p) as [[data|]|]; split; congruence.
Qed.

Lemma walk_files_step fuel fs (d p : Fs.path) :
  In p (walk_files (S fuel) fs d) <->
  (p <> [] /\ Fs.parent p = d /\ (exists data, fs !! p = Some (Fs.File data)) /\
   wanted_file p = true) \/
  (exists q : Fs.path, q <> [] /\ Fs.parent q = d /\ fs !! q = Some Fs.Dir /\
                       keep_dir (Fs.name q) = true /\ In p (walk_files fuel fs q)).
Proof.
  cbn [walk_files]. rewrite in_app_iff, in_flat_map.
  rewrite !filter_In, listdir_In_iff. split.
  - intros [((((e & He) & Hne & Hpar) & Hnd) & Hw) | (q & Hq & Hin)].
    + left. repeat split; try assumption.
      destruct e as [data|]; [eauto|].
      apply negb_true_iff in Hnd.
      assert (Fs.is_dir fs p = true) by (apply is_dir_lookup; assumption). congruence.
    + right. exists q. rewrite !filter_In, listdir_In_iff in Hq.
      destruct Hq as ((((e & He) & Hne & Hpar) & Hd) & Hk).
      apply is_dir_lookup in Hd; [|exact Hne]. auto.
  - intros [(Hne & Hpar & (data & Hf) & Hw) | (q & Hne & Hpar & Hd & Hk & Hin)].
    + left. repeat split; eauto.
      apply negb_true_iff. destruct (Fs.is_dir fs p) eqn:E; [|reflexivity].
      apply is_dir_lookup in E; [congruence | exact Hne].
    + right. exists q. split; [|exact Hin].
      rewrite !filter_In, listdir_In_iff. repeat split; eauto.
      apply is_dir_lookup; assumption.
Qed.

Lemma walk_files_sound fuel fs : forall (d p : Fs.path),
  In p (walk_files fuel fs d) ->
  exists dirs name, p = d ++ dirs ++ [name] /\ kept_dirs fs d dirs /\
                    (exists data, fs !! p = Some (Fs.File data)) /\
                    wanted_file p = true.
Proof.
  induction fuel as [|fuel IH]; intros d p Hin; [contradiction|].
  apply walk_files_step in Hin
    as [(Hne & Hpar & Hf & Hw) | (q & Hne & Hpar & Hd & Hk & Hin)].
  - exists [], (Fs.name p). simpl. split; [|auto].
    rewrite <- Hpar. apply child_parent_name. exact Hne.
  - apply IH in Hin as (dirs & name & Hp & Hkept & Hf & Hw).
    exists (Fs.name q :: dirs), name.
    assert (Hq : q = Fs.child d (Fs.name q))
      by (rewrite <- Hpar; apply child_parent_name; exact Hne).
    split; [|split; [|auto]].
    + rewrite Hp. rewrite Hq at 1. unfold Fs.child. rewrite <- app_assoc. reflexivity.
    + simpl. rewrite <- Hq. auto.
Qed.

Lemma walk_files_complete fs dirs : forall fuel (d : Fs.path) name,
  (length dirs < fuel)%nat -> kept_dirs fs d dirs ->
  (exists data, fs !! (d ++ dirs ++ [name]) = Some (Fs.File data)) ->
  wanted_file (d ++ dirs ++ [name]) = true ->
  In (d ++ dirs ++ [name]) (walk_files fuel fs d).
Proof.
  induction dirs as [|c dirs IH]; intros fuel d name Hfuel Hkept Hf Hw;
    (destruct fuel as [|fuel]; [simpl in Hfuel; lia|]); apply walk_files_step.
  - left. simpl in *. fold (Fs.child d name) in *.
    repeat split; [apply child_not_nil | apply parent_child | exact Hf | exact Hw].
  - right. destruct Hkept as (Hd & Hk & Hkept). exists (Fs.child d c).
    rewrite parent_child, name_child.
    repeat split; [apply child_not_nil | exact Hd | exact Hk |].
    assert (Heq : d ++ (c :: dirs) ++ [name] = Fs.child d c ++ dirs ++ [name])
      by (unfold Fs.child; rewrite <- app_assoc; reflexivity).
    rewrite Heq in *. apply IH; [simpl in Hfuel; lia | assumption..].
Qed.

(** The directories of a chain are as many entries of the file system. *)
Lemma kept_dirs_keys fs dirs : forall base : Fs.path,
  kept_dirs fs base dirs ->
  exists l : list Fs.path,
    NoDup l /\ length l = length dirs /\
    forall q, q ∈ l -> is_Some (fs !! q) /\ (length base < length q)%nat.
Proof.
  induction dirs as [|c dirs IH]; intros base Hkept.
  - exists []. split; [constructor|]. split; [reflexivity|]. intros q Hq. inversion Hq.
  - destruct Hkept as (Hd & _ & Hkept). apply IH in Hkept as (l & Hnd & Hlen & Hl).
    assert (Hc : length (Fs.child base c) = S (length base))
      by (unfold Fs.child; rewrite length_app; simpl; lia).
    exists (Fs.child base c :: l). split; [|split].
    + constructor; [|exact Hnd]. intros Hin. apply Hl in Hin as (_ & Hlt). lia.
    + simpl. congruence.
    + intros q Hq. apply elem_of_cons in Hq as [-> | Hq].
      * split; [eauto | lia].
      * apply Hl in Hq as (Hs & Hlt). split; [exact Hs | lia].
Qed.

Lemma kept_dirs_depth fs dirs (base : Fs.path) :
  kept_dirs fs base dirs -> (length dirs <= size fs)%nat.
Proof.
  intros Hkept. apply kept_dirs_keys in Hkept as (l & Hnd & Hlen & Hl).
  rewrite <- Hlen, <- (length_map_to_list fs), <- (length_fmap fst (map_to_list fs)).
  apply submseteq_length, NoDup_submseteq; [exact Hnd|].
  intros q Hq. apply Hl in Hq as ((e & He) & _).
  apply list_elem_of_fmap. exists (q, e). split; [reflexivity|].
  apply elem_of_map_to_list. exact He.
Qed.

(** X22. [_iter_files(root)] yields exactly the files below the directory
    [root] that are reached through directories whose names are neither in
    [SKIP_DIR_NAMES] nor start with a dot, whose own name does not start
    with a dot and whose lower-cased suffix is a key of [EXT_TO_LANG];
    when [root] is not a directory it yields nothing. *)
Theorem iter_files_spec (fs : gmap Fs.path Fs.entry) (root p : Fs.path) :
  In p (_iter_files fs root) <->
  Fs.is_dir fs root = true /\
  exists dirs name,
    p = root ++ dirs ++ [name] /\ kept_dirs fs root dirs /\
    (exists data, fs !! p = Some (Fs.File data)) /\ wanted_file p = true.
Proof.
  unfold _iter_files. destruct (Fs.is_dir fs root); split.
  - intros Hin. split; [reflexivity|]. eapply walk_files_sound. exact Hin.
  - intros (_ & dirs & name & -> & Hkept & Hf & Hw).
    apply walk_files_complete; try assumption.
    apply kept_dirs_depth in Hkept. lia.
  - contradiction.
  - intros (Hd & _). discriminate.
Qed.

Lemma map_fmap {A B} (f : A -> B) (l : list A) : List.map f l = f <$> l.
Proof. induction l as [|x l IH]; simpl; [reflexivity | f_equal; exact IH]. Qed.

Lemma listdir_NoDup fs (d : Fs.path) : List.NoDup (Fs.listdir fs d).
Proof.
  unfold Fs.listdir. apply List.NoDup_filter. rewrite map_fmap.
  apply NoDup_ListNoDup, (NoDup_fst_map_to_list fs).
Qed.

Lemma iter_files_spec_witness :
  In (["src"; "pkg"; "b.RS"]%string : Fs.path) (_iter_files walk_fs ["src"%string]).
Proof.
  apply (proj2 (iter_files_spec walk_fs ["src"%string] ["src"; "pkg"; "b.RS"]%string)).
  split; [reflexivity|]. exists ["pkg"%string], "b.RS"%string.
  split; [reflexivity|]. split; [|split].
  - simpl. split; [reflexivity|]. split; [vm_compute; reflexivity | exact I].
  - exists []. reflexivity.
  - vm_compute. reflexivity.
Defined.

(** ** What [split_code] changes *)

Lemma confined_refl out fs : confined out fs fs.
Proof. intros p. left. reflexivity. Qed.

Lemma confined_trans out fs1 fs2 fs3 :
  confined out fs1 fs2 -> confined out fs2 fs3 -> confined out fs1 fs3.
Proof.
  intros H12 H23 p.
  destruct (H12 p) as [E12 | [(N1 & D2) | Hn]]; [| |auto];
    (destruct (H23 p) as [E23 | [(N2 & D3) | Hn]]; [| |auto]).
  - left. congruence.
  - right. left. split; congruence.
  - right. left. split; congruence.
  - congruence.
Qed.

Lemma confined_bind {A B} out (m : Fs.io A) (k : A -> Fs.io B) fs :
  confined out fs (snd (m fs)) ->
  (forall a fs1, confined out fs1 (snd (k a fs1))) ->
  confined out fs (snd (Fs.bind m k fs)).
Proof.
  intros Hm Hk. unfold Fs.bind. destruct (m fs) as [[a|e|] fs1]; simpl in *;
    [|exact Hm..].
  eapply confined_trans; [exact Hm | apply Hk].
Qed.

Lemma confined_mkdir out p fs : confined out fs (snd (Fs.mkdir_parents p fs)).
Proof.
  unfold Fs.mkdir_parents. destruct (Fs.mkdir_from [] p fs) as [r fs1] eqn:E.
  intros q. destruct (mkdir_from_only_dirs _ _ _ _ _ E q) as [Heq | Hd]; auto.
Qed.

Lemma clears_chunk_file (d : Fs.path) w i : clears (Fs.child d (chunk_file w i)) = true.
Proof. unfold clears. rewrite chunk_file_is_chunk_file. apply orb_true_r. Qed.

Lemma clears_index (d : Fs.path) : clears (Fs.child d "index.json") = true.
Proof. unfold clears. rewrite name_child. reflexivity. Qed.

Lemma below_child (out mid : Fs.path) name :
  exists rel, rel <> [] /\ Fs.child (out ++ mid) name = out ++ rel.
Proof.
  exists (mid ++ [name]). split; [destruct mid; discriminate|].
  unfold Fs.child. rewrite <- app_assoc. reflexivity.
Qed.

Lemma confined_write out (mid : Fs.path) name d fs :
  clears (Fs.child (out ++ mid) name) = true ->
  confined out fs (snd (Fs.write_bytes (Fs.child (out ++ mid) name) d fs)).
Proof.
  intros Hc. destruct (write_bytes_cases (Fs.child (out ++ mid) name) d fs)
    as [-> | (e & ->)]; simpl; [|apply confined_refl].
  intros p. destruct (decide (Fs.child (out ++ mid) name = p)) as [<- | Hne].
  - right. right. split; [apply below_child | exact Hc].
  - left. apply lookup_insert_ne. exact Hne.
Qed.

Lemma confined_unlink_chunks out (mid : Fs.path) ps : forall fs,
  (forall p, In p ps -> p <> [] /\ Fs.parent p = out ++ mid) ->
  confined out fs (snd (unlink_chunks ps fs)).
Proof.
  induction ps as [|q ps IH]; intros fs Hps; simpl; [apply confined_refl|].
  fold (clears q). destruct (clears q) eqn:Hq; [|apply IH; intros; apply Hps; right; assumption].
  unfold mbind, Fs.io_bind. apply confined_bind.
  - unfold Fs.unlink. destruct (Fs.stat fs q) as [[data|]|]; simpl;
      try apply confined_refl.
    intros p. destruct (decide (q = p)) as [<- | Hne].
    + right. right. split; [|exact Hq].
      destruct (Hps q (or_introl eq_refl)) as (Hne & Hpar).
      rewrite (child_parent_name q Hne), Hpar. apply below_child.
    + left. apply lookup_delete_ne. exact Hne.
  - intros _ fs1. apply IH. intros; apply Hps; right; assumption.
Qed.

Lemma listdir_below fs (d p : Fs.path) :
  In p (Fs.listdir fs d) -> p <> [] /\ Fs.parent p = d.
Proof. intros Hin. apply listdir_In_iff in Hin. tauto. Qed.

Lemma confined_clear out (mid : Fs.path) fs :
  confined out fs (snd (_clear_existing_chunks (out ++ mid) fs)).
Proof.
  unfold _clear_existing_chunks, mbind, Fs.io_bind, Fs.bind, Fs.gets. simpl.
  destruct (negb (Fs.exists_ fs (out ++ mid))); [apply confined_refl|].
  destruct (negb (Fs.is_dir fs (out ++ mid))); [apply confined_refl|].
  unfold Fs.iterdir. destruct (Fs.stat fs (out ++ mid)) as [[data|]|]; simpl;
    try apply confined_refl.
  apply (confined_unlink_chunks out mid). intros p. apply listdir_below.
Qed.

Section SplitterWrites.
Context `{Hashlib} `{Codecs}.
Variable get_parser : option (string -> option (list Byte.byte -> Node)).
Variable _iter_files : Fs.filesystem -> Fs.path -> list Fs.path.
Variable dumps_file_index : string -> string -> list Chunk -> text.
Variable dumps_index : Fs.path -> Fs.path -> option string -> list Chunk -> text.

Lemma confined_check_or_clear out (mid : Fs.path) force fs :
  confined out fs (snd (check_or_clear (out ++ mid) force fs)).
Proof.
  unfold check_or_clear. destruct force; [apply confined_clear|].
  unfold mbind, Fs.io_bind, Fs.bind, Fs.iterdir.
  destruct (Fs.stat fs (out ++ mid)) as [[data|]|]; simpl; try apply confined_refl.
  destruct (existsb Fs.is_chunk_file (Fs.listdir fs (out ++ mid))); apply confined_refl.
Qed.

Lemma confined_emit_nodes out (mid : Fs.path) data rel lang w items : forall acc fs,
  confined out fs (snd (emit_nodes data rel (out ++ mid) out lang w items acc fs)).
Proof.
  induction items as [|[i node] items IH]; intros acc fs; simpl;
    [apply confined_refl|].
  unfold mbind, Fs.io_bind. apply confined_bind.
  - apply confined_write. apply clears_chunk_file.
  - intros _ fs1. apply IH.
Qed.

Lemma confined_emit_file out data nodes rel lang force fs :
  confined out fs (snd (emit_file dumps_file_index data nodes rel out lang force fs)).
Proof.
  unfold emit_file, mbind, Fs.io_bind.
  apply confined_bind; [apply confined_mkdir | intros _ fs1].
  apply confined_bind; [apply confined_check_or_clear | intros _ fs2].
  apply confined_bind; [apply confined_emit_nodes | intros cs fs3].
  apply confined_bind; [|intros _ fs4; apply confined_refl].
  apply confined_write. apply clears_index.
Qed.

Lemma confined_split_file parser_of root out over force src all fs :
  confined out fs
    (snd (split_file dumps_file_index parser_of root out over force src all fs)).
Proof.
  unfold split_file.
  destruct (_detect_language src over) as [lang|]; [|apply confined_refl].
  destruct (String.eqb lang EmptyString); [apply confined_refl|].
  destruct (parser_of lang) as [parse|]; [|apply confined_refl].
  unfold mbind, Fs.io_bind. apply confined_bind.
  - unfold Fs.read_bytes. destruct (Fs.stat fs src) as [[d|]|]; apply confined_refl.
  - intros data fs1.
    destruct (_top_level_chunks (parse data) lang) as [|n ns]; [apply confined_refl|].
    destruct (relative_to src root) as [rel|]; [|apply confined_refl].
    apply confined_bind; [apply confined_emit_file | intros cs fs2; apply confined_refl].
Qed.

Lemma confined_split_files parser_of root out over force files : forall all fs,
  confined out fs
    (snd (split_files dumps_file_index parser_of root out over force files all fs)).
Proof.
  induction files as [|src files IH]; intros all fs; simpl; [apply confined_refl|].
  unfold mbind, Fs.io_bind. apply confined_bind; [apply confined_split_file|].
  intros all' fs1. apply IH.
Qed.

(** X25. Whatever the arguments and however the run ends, [split_code]
    changes an entry of the file system only by making a directory where
    nothing was, or at a path below the output directory that is named
    [index.json] or like a chunk file ([chunk_*.txt]); in particular it
    never changes or removes a source file that is not such a path. *)
Theorem split_code_confined src out over force fs :
  confined out fs
    (snd (split_code get_parser _iter_files dumps_file_index dumps_index
            src out over force fs)).
Proof.
  unfold split_code. destruct get_parser as [parser_of|]; [|apply confined_refl].
  unfold mbind, Fs.io_bind.
  apply confined_bind; [apply confined_refl | intros plan fs1].
  apply confined_bind; [apply confined_mkdir | intros _ fs2].
  apply confined_bind; [apply confined_split_files | intros cs fs3].
  apply confined_bind; [|intros _ fs4; apply confined_refl].
  rewrite <- (app_nil_r out) at 2. apply confined_write.
  rewrite app_nil_r. apply clears_index.
Qed.

End SplitterWrites.

(** ** Clearing a chunk directory *)

Lemma unlink_chunks_run ps : forall fs,
  List.NoDup ps -> (forall p, In p ps -> p <> []) ->
  (forall p, In p ps -> clears p = true -> exists data, fs !! p = Some (Fs.File data)) ->
  exists fs',
    unlink_chunks ps fs = (Ok tt, fs') /\
    forall p : Fs.path,
      (In p ps /\ clears p = true -> fs' !! p = None) /\
      (~ (In p ps /\ clears p = true) -> fs' !! p = fs !! p).
Proof.
  induction ps as [|q ps IH]; intros fs Hnd Hne Hfiles; simpl.
  - exists fs. split; [reflexivity|]. intros p. split; [intros ([] & _) | reflexivity].
  - apply NoDup_cons_iff in Hnd as [Hq Hnd]. fold (clears q).
    destruct (clears q) eqn:Hc.
    + destruct (Hfiles q (or_introl eq_refl) Hc) as (data & Hdata).
      assert (Hst : Fs.stat fs q = Some (Fs.File data)).
      { rewrite Fs_stat_lookup; [exact Hdata | exact (Hne q (or_introl eq_refl))]. }
      unfold mbind, Fs.io_bind, Fs.bind, Fs.unlink. rewrite Hst.
      destruct (IH (delete q fs) Hnd) as (fs' & Hrun & Hfs').
      * intros p Hp. apply Hne. right. exact Hp.
      * intros p Hp Hcp. rewrite lookup_delete_ne by (intros ->; contradiction).
        apply Hfiles; [right; exact Hp | exact Hcp].
      * exists fs'. split; [exact Hrun|]. intros p. split.
        -- intros ([-> | Hin] & Hcp).
           ++ rewrite (proj2 (Hfs' p)) by tauto. apply lookup_delete_eq.
           ++ apply Hfs'. tauto.
        -- intros Hnot. rewrite (proj2 (Hfs' p)) by tauto.
           apply lookup_delete_ne. intros ->. apply Hnot. auto.
    + destruct (IH fs Hnd) as (fs' & Hrun & Hfs').
      * intros p Hp. apply Hne. right. exact Hp.
      * intros p Hp Hcp. apply Hfiles; [right; exact Hp | exact Hcp].
      * exists fs'. split; [exact Hrun|]. intros p. split.
        -- intros ([-> | Hin] & Hcp); [congruence | apply Hfs'; tauto].
        -- intros Hnot. apply Hfs'. intros (Hin & Hcp). apply Hnot. auto.
Qed.

(** X23. [_clear_existing_chunks] does nothing when the directory is
    missing, raises a [RuntimeError] and changes nothing when the path is a
    file, and in a directory that holds no subdirectory named [index.json]
    or like a chunk file it removes exactly the entries directly below it
    that are named [index.json] or like a chunk file: every other entry of
    the file system is as before. *)
Theorem clear_existing_chunks_spec (chunk_dir : Fs.path) (fs : gmap Fs.path Fs.entry) :
  (Fs.stat fs chunk_dir = None -> _clear_existing_chunks chunk_dir fs = (Ok tt, fs)) /\
  (forall data, Fs.stat fs chunk_dir = Some (Fs.File data) ->
     exists msg, _clear_existing_chunks chunk_dir fs = (Raise (RuntimeError msg), fs)) /\
  (Fs.stat fs chunk_dir = Some Fs.Dir ->
   existsb (fun p => clears p && Fs.is_dir fs p) (Fs.listdir fs chunk_dir) = false ->
   exists fs',
     _clear_existing_chunks chunk_dir fs = (Ok tt, fs') /\
     forall p : Fs.path,
       (p <> [] -> Fs.parent p = chunk_dir -> clears p = true -> fs' !! p = None) /\
       (p = [] \/ Fs.parent p <> chunk_dir \/ clears p = false -> fs' !! p = fs !! p)).
Proof.
  unfold _clear_existing_chunks. io_unfold. unfold Fs.exists_, Fs.is_dir, Fs.iterdir.
  split; [|split].
  - intros Hst. repeat (progress (simpl; rewrite ?Hst)). reflexivity.
  - intros data Hst. repeat (progress (simpl; rewrite ?Hst)). eauto.
  - intros Hst Hnodir. repeat (progress (simpl; rewrite ?Hst)).
    destruct (unlink_chunks_run (Fs.listdir fs chunk_dir) fs) as (fs' & Hrun & Hfs').
    + apply listdir_NoDup.
    + intros p Hp. apply listdir_below in Hp. tauto.
    + intros p Hp Hc. pose proof Hp as Hp'.
      apply listdir_In_iff in Hp as ((e & He) & Hne & Hpar).
      destruct e as [data|]; [eauto|]. exfalso.
      assert (Hex : existsb (fun p => clears p && Fs.is_dir fs p)
                      (Fs.listdir fs chunk_dir) = true).
      { apply existsb_exists. exists p. split; [exact Hp'|].
        rewrite Hc. simpl. apply is_dir_lookup; assumption. }
      unfold Fs.is_dir in Hex. congruence.
    + exists fs'. split; [exact Hrun|]. intros p. split.
      * intros Hne Hpar Hc. destruct (fs !! p) as [e|] eqn:Hp.
        -- apply Hfs'. split; [|exact Hc]. apply listdir_In_iff. eauto.
        -- rewrite (proj2 (Hfs' p)); [exact Hp|].
           intros (Hin & _). apply listdir_In_iff in Hin as ((e & He) & _). congruence.
      * intros Hout. apply Hfs'. intros (Hin & Hc).
        apply listdir_below in Hin as (Hne & Hpar).
        destruct Hout as [-> | [Hp | Hcl]]; congruence.
Qed.

Lemma clear_existing_chunks_spec_witness :
  exists fs',
    _clear_existing_chunks ["out"; "a.py.chunks"]%string stale_py_fs = (Ok tt, fs') /\
    forall p : Fs.path,
      (p <> [] -> Fs.parent p = ["out"; "a.py.chunks"]%string -> clears p = true ->
       fs' !! p = None) /\
      (p = [] \/ Fs.parent p <> ["out"; "a.py.chunks"]%string \/ clears p = false ->
       fs' !! p = stale_py_fs !! p).
Proof.
  apply (proj2 (proj2 (clear_existing_chunks_spec ["out"; "a.py.chunks"]%string
                         stale_py_fs))).
  - reflexivity.
  - vm_compute. reflexivity.
Defined.

(** ** Languages and node types *)

(** X26. A language that [_detect_language] infers from the extension of a
    file is never the empty string and always has a set of interesting node
    types with something in it: an inferred language never leads
    [_top_level_chunks] to an empty table. *)
Theorem detect_language_has_node_types (p : Fs.path) (lang : string) :
  _detect_language p None = Some lang ->
  lang <> EmptyString /\
  exists types t, INTERESTING_NODE_TYPES !! lang = Some types /\ t ∈ types.
Proof.
  unfold _detect_language. intros Hl.
  apply (elem_of_list_to_map_2 (M := gmap string)) in Hl.
  apply list_elem_of_In in Hl. simpl in Hl.
  repeat (destruct Hl as [Hl | Hl];
          [inversion Hl; subst; split; [discriminate|];
           eexists _, _; split; [reflexivity | apply elem_of_list_to_set; left] |]).
  contradiction.
Qed.

Lemma detect_language_has_node_types_witness :
  "rust"%string <> EmptyString /\
  exists types t, INTERESTING_NODE_TYPES !! "rust"%string = Some types /\ t ∈ types.
Proof.
  apply (detect_language_has_node_types ["src"; "pkg"; "b.RS"]%string "rust"%string).
  vm_compute. reflexivity.
Defined.

(** X27. For a language without an entry in [INTERESTING_NODE_TYPES], an
    override the tables do not know, [_top_level_chunks] selects nothing,
    whatever the tree is. *)
Theorem top_level_chunks_unknown_language (root : Node) (lang : string) :
  INTERESTING_NODE_TYPES !! lang = None -> _top_level_chunks root lang = [].
Proof.
  intros Hnone. unfold _top_level_chunks. rewrite select_children_filter, Hnone.
  assert (Hw : WRAPPER_NODE_TYPES !! lang = None \/
               exists s, WRAPPER_NODE_TYPES !! lang = Some s /\
                         is_Some (INTERESTING_NODE_TYPES !! lang)).
  { destruct (WRAPPER_NODE_TYPES !! lang) as [s|] eqn:E; [right | left; reflexivity].
    exists s. split; [reflexivity|].
    apply (elem_of_list_to_map_2 (M := gmap string)) in E.
    apply list_elem_of_In in E. simpl in E.
    repeat (destruct E as [E | E]; [inversion E; subst; eexists; reflexivity|]).
    contradiction. }
  simpl. induction (named_children root) as [|c cs IH]; [reflexivity|].
  simpl. rewrite IH.
  replace (selected ∅ (default ∅ (WRAPPER_NODE_TYPES !! lang)) c) with false;
    [reflexivity|].
  unfold selected.
  rewrite bool_decide_eq_false_2 by set_solver. simpl.
  destruct Hw as [-> | (s & _ & Hsome)].
  - simpl. rewrite bool_decide_eq_false_2 by set_solver. reflexivity.
  - rewrite Hnone in Hsome. destruct Hsome; discriminate.
Qed.

Lemma top_level_chunks_unknown_language_witness :
  _top_level_chunks py_tree "cobol" = [].
Proof.
  apply (top_level_chunks_unknown_language py_tree "cobol"%string).
  vm_compute. reflexivity.
Defined.

(** ** Runs of [split_code] *)

Section SplitterSkips.
Context `{Hashlib} `{Codecs}.
Variable _iter_files : Fs.filesystem -> Fs.path -> list Fs.path.
Variable dumps_file_index : string -> string -> list Chunk -> text.
Variable dumps_index : Fs.path -> Fs.path -> option string -> list Chunk -> text.

(** X28. A single source file whose language is not known — no override
    and an extension outside [EXT_TO_LANG], or a language the installed
    parsers do not have — is skipped without being read: [split_code]
    returns no chunk and writes only the aggregate index, of no chunk, into
    the output directory it made. *)
Theorem split_code_skips_unknown_file parser_of src out over force fs :
  Fs.is_file fs src = true ->
  _detect_language src over = None \/
  (exists lang, _detect_language src over = Some lang /\ parser_of lang = None) ->
  fst (Fs.mkdir_parents out fs) = Ok tt ->
  snd (Fs.mkdir_parents out fs) !! Fs.child out "index.json" <> Some Fs.Dir ->
  split_code (Some parser_of) _iter_files dumps_file_index dumps_index
    src out over force fs
  = (Ok [],
     <[Fs.child out "index.json" :=
         Fs.File (text_file_bytes (dumps_index src out over [] ++ [newline]))]>
       (snd (Fs.mkdir_parents out fs))).
Proof.
  intros Hfile Hlang Hmk Hidx. apply run_ok_pair in Hmk.
  destruct (Fs.mkdir_parents out fs) as [r fs1] eqn:Emk. simpl in *.
  inversion Hmk; subst r. clear Hmk.
  unfold split_code. io_unfold. rewrite Hfile. simpl. rewrite Emk.
  assert (Hskip : split_file dumps_file_index parser_of (Fs.parent src) out over force
                    src [] fs1 = (Ok [], fs1)).
  { unfold split_file. destruct Hlang as [-> | (lang & -> & Hp)]; [reflexivity|].
    destruct (String.eqb lang EmptyString); [reflexivity|]. rewrite Hp. reflexivity. }
  io_unfold. rewrite Hskip.
  rewrite write_bytes_child; [reflexivity | | exact Hidx].
  eapply mkdir_parents_is_dir. exact Emk.
Qed.

End SplitterSkips.

Section SplitterMain.
Context `{Hashlib} `{Codecs}.
Variable get_parser : option (string -> option (list Byte.byte -> Node)).
Variable dumps_file_index : string -> string -> list Chunk -> text.
Variable dumps_index : Fs.path -> Fs.path -> option string -> list Chunk -> text.
Variable str_path : Fs.path -> string.

(** X29. [main] of split_code_treesitter.py never raises. It returns 2 and
    leaves the file system alone exactly when the source path does not
    exist; otherwise it leaves the state [split_code] leaves, and returns 0
    with a line on stdout when [split_code] returns and 1 with a line on
    stderr when it raises; without the tree-sitter packages that is 1, and
    nothing was written. *)
Theorem split_code_main_exit_code args fs :
  (Fs.exists_ fs (arg_source args) = false ->
   exists line,
     main get_parser dumps_file_index dumps_index str_path args fs
     = (Ok (2, Stderr line), fs)) /\
  (Fs.exists_ fs (arg_source args) = true ->
   snd (main get_parser dumps_file_index dumps_index str_path args fs)
   = snd (split_code get_parser _iter_files dumps_file_index dumps_index
            (arg_source args) (arg_out_dir args) (arg_language args) (arg_force args)
            fs) /\
   match fst (split_code get_parser _iter_files dumps_file_index dumps_index
                (arg_source args) (arg_out_dir args) (arg_language args)
                (arg_force args) fs) with
   | Ok chunks =>
       exists line,
         fst (main get_parser dumps_file_index dumps_index str_path args fs)
         = Ok (0, Stdout line)
   | Raise e =>
       exists line,
         fst (main get_parser dumps_file_index dumps_index str_path args fs)
         = Ok (1, Stderr line)
   | Spin => fst (main get_parser dumps_file_index dumps_index str_path args fs) = Spin
   end) /\
  (Fs.exists_ fs (arg_source args) = true -> get_parser = None ->
   exists line,
     main get_parser dumps_file_index dumps_index str_path args fs
     = (Ok (1, Stderr line), fs)).
Proof.
  unfold main. io_unfold.
  destruct (Fs.exists_ fs (arg_source args)) eqn:E; simpl.
  - split; [discriminate|]. split.
    + intros _.
      destruct (split_code _ _ _ _ _ _ _ _ fs) as [[chunks|e|] fs']; simpl; split; eauto.
    + intros _ ->. unfold split_code. simpl. eauto.
  - split; [eauto|]. split; discriminate.
Qed.

End SplitterMain.

Lemma emit_file_force_replaces_witness :
  exists i node,
    In (i, node) (ChunkText.enumerate_from 1 (_top_level_chunks py_tree "python")) /\
    (["out"; "a.py.chunks"; "chunk_0001.txt"]%string : Fs.path)
    = Fs.child (chunk_dir_of ["out"%string] ["a.py"%string])
        (chunk_file (Fmt.id_width (Py.len (_top_level_chunks py_tree "python"))) i) /\
    snd stale_py_emit !! (["out"; "a.py.chunks"; "chunk_0001.txt"]%string : Fs.path)
    = Some (Fs.File (node_bytes py_source node)).
Proof.
  apply (@emit_file_force_replaces length_hashlib byte_codecs no_file_index py_source
           (_top_level_chunks py_tree "python") ["a.py"%string] ["out"%string]
           "python"%string stale_py_fs (ok_or_nil (fst stale_py_emit))
           (snd stale_py_emit)).
  - apply run_ok_pair. vm_compute. reflexivity.
  - discriminate.
  - vm_compute. reflexivity.
  - vm_compute. reflexivity.
  - vm_compute. eexists. reflexivity.
Defined.

Lemma split_code_skips_unknown_file_witness :
  @split_code length_hashlib byte_codecs (Some py_parser) _iter_files no_file_index
    no_root_index ["notes.txt"%string] ["out"%string] None false notes_fs
  = (Ok [],
     <[Fs.child ["out"%string] "index.json" :=
         Fs.File (@text_file_bytes byte_codecs
           (no_root_index ["notes.txt"%string] ["out"%string] None [] ++ [newline]))]>
       (snd (Fs.mkdir_parents ["out"%string] notes_fs))).
Proof.
  apply (@split_code_skips_unknown_file length_hashlib byte_codecs _iter_files
           no_file_index no_root_index py_parser ["notes.txt"%string] ["out"%string]
           None false notes_fs).
  - reflexivity.
  - left. vm_compute. reflexivity.
  - vm_compute. reflexivity.
  - vm_compute. discriminate.
Defined.
